(** * HydroNav: hazard-aware routing and live re-routing

    A shallow embedding of the routing engine of the HydroNav application
    ([utils/geo.ts], [services/mapService.ts] and the navigation handlers of
    [App.tsx]) together with the properties its design document states, and
    further properties of the code: of the polygon test, the bounding
    rectangles, the detour waypoints, the route queries, the drawing tools,
    the playback and the geocoding client.

    JavaScript's [number] is an IEEE-754 binary64 value.  The code is embedded
    once, over an interface [Number] of the operations it uses, and read at
    two instances:

    - [float], Rocq's primitive binary64 floats: what the program computes;
    - [exact], the rationals extended with [Infinity], [-Infinity] and [NaN]:
      the same program without rounding and without overflow.

    Statements that hold for every [Number] hold for the program as it runs.
    Statements proved at [exact] describe the computation up to rounding; the
    examples at [float] show where rounding separates the two. *)

From Stdlib Require Import Floats QArith Qminmax Lia Lqa List Bool String ZArith Arith PeanoNat Permutation.
From Stdlib Require Import Ascii Qround Qpower.
Import ListNotations.

Set Implicit Arguments.
Close Scope Q_scope.

(* ================================================================== *)
(** * 1. JavaScript numbers *)
(* ================================================================== *)

Declare Scope js_scope.
Delimit Scope js_scope with js.

(** The arithmetic the sources use.  [ofQ (n # d)] is the decimal literal
    [n/d]. *)
Class Number (N : Type) : Type := {
  ofQ : Q -> N;
  nadd : N -> N -> N;
  nsub : N -> N -> N;
  nmul : N -> N -> N;
  ndiv : N -> N -> N;
  nneg : N -> N;
  nltb : N -> N -> bool;          (* a < b *)
  nleb : N -> N -> bool;          (* a <= b *)
  neqb : N -> N -> bool;          (* a === b *)
  nIsNaN : N -> bool;             (* isNaN(a) *)
  nIsFinite : N -> bool;          (* isFinite(a) *)
  nInfinity : N;                  (* Infinity *)
  nmin : N -> N -> N;             (* Math.min(a, b) *)
  nmax : N -> N -> N              (* Math.max(a, b) *)
}.

Arguments ofQ {N _} q%_Q.

Notation "a + b" := (nadd a b) : js_scope.
Notation "a - b" := (nsub a b) : js_scope.
Notation "a * b" := (nmul a b) : js_scope.
Notation "a / b" := (ndiv a b) : js_scope.
Notation "- a" := (nneg a) : js_scope.
Notation "a <? b" := (nltb a b) (at level 70) : js_scope.
Notation "a >? b" := (nltb b a) (at level 70) : js_scope.
Notation "a <=? b" := (nleb a b) (at level 70) : js_scope.
Notation "a >=? b" := (nleb b a) (at level 70) : js_scope.
Notation "a === b" := (neqb a b) (at level 70) : js_scope.

(** Functions of the [Math] object.  [Math.sqrt] is correctly rounded;
    [Math.sin], [Math.cos] and [Math.atan2] are implementation-approximated
    (ECMA-262, 21.3.2), hence parameters of whatever uses them. *)
Class Sqrt (N : Type) : Type := { Msqrt : N -> N }.
Class Trig (N : Type) : Type := {
  MPI : N;
  Msin : N -> N;
  Mcos : N -> N;
  Matan2 : N -> N -> N
}.

(** ** 1.1 IEEE-754 binary64 *)

Module JSFloat.

(** The double nearest to an integer. *)
Definition ofZ (z : Z) : float :=
  SF2Prim (binary_normalize prec emax z 0%Z false).

(** A literal [n/d].  When [n] and [d] are exact doubles (as are those of
    every literal of the sources) the quotient is the correctly rounded
    value of the literal, which is what the JavaScript lexer produces. *)
Definition literal (q : Q) : float :=
  PrimFloat.div (ofZ (Qnum q)) (ofZ (Zpos (Qden q))).

Definition isNaN (x : float) : bool := PrimFloat.is_nan x.

Definition isFinite (x : float) : bool :=
  negb (PrimFloat.is_nan x || PrimFloat.is_infinity x).

(** [Math.min] and [Math.max]: [NaN] is contagious and [-0 < +0]. *)
Definition min (a b : float) : float :=
  if PrimFloat.is_nan a || PrimFloat.is_nan b then PrimFloat.nan
  else if PrimFloat.ltb a b then a
  else if PrimFloat.ltb b a then b
  else if PrimFloat.get_sign a then a else b.

Definition max (a b : float) : float :=
  if PrimFloat.is_nan a || PrimFloat.is_nan b then PrimFloat.nan
  else if PrimFloat.ltb a b then b
  else if PrimFloat.ltb b a then a
  else if PrimFloat.get_sign a then b else a.

#[global] Instance number : Number float := {|
  ofQ := literal;
  nadd := PrimFloat.add;
  nsub := PrimFloat.sub;
  nmul := PrimFloat.mul;
  ndiv := PrimFloat.div;
  nneg := PrimFloat.opp;
  nltb := PrimFloat.ltb;
  nleb := PrimFloat.leb;
  neqb := PrimFloat.eqb;
  nIsNaN := isNaN;
  nIsFinite := isFinite;
  nInfinity := PrimFloat.infinity;
  nmin := min;
  nmax := max
|}.

#[global] Instance sqrt : Sqrt float := {| Msqrt := PrimFloat.sqrt |}.

End JSFloat.

(** ** 1.2 Exact arithmetic *)

Inductive exact : Type :=
| Fin (q : Q)
| PInf
| NInf
| NaN.

Module Exact.

Definition qltb (a b : Q) : bool := negb (Qle_bool b a).

Definition neg (x : exact) : exact :=
  match x with
  | Fin a => Fin (- a)
  | PInf => NInf
  | NInf => PInf
  | NaN => NaN
  end.

Definition add (x y : exact) : exact :=
  match x, y with
  | NaN, _ | _, NaN => NaN
  | PInf, NInf | NInf, PInf => NaN
  | PInf, _ | _, PInf => PInf
  | NInf, _ | _, NInf => NInf
  | Fin a, Fin b => Fin (a + b)
  end.

Definition sub (x y : exact) : exact := add x (neg y).

(** [inf_signed s]: the infinity of sign [s] ([true] = negative). *)
Definition inf_signed (s : bool) : exact := if s then NInf else PInf.

(** A product or quotient with an infinite operand: the sign is the
    product of the signs, and [0 * Infinity] is [NaN]. *)
Definition inf_times (s : bool) (a : Q) : exact :=
  match (a ?= 0)%Q with
  | Eq => NaN
  | Lt => inf_signed (negb s)
  | Gt => inf_signed s
  end.

Definition mul (x y : exact) : exact :=
  match x, y with
  | NaN, _ | _, NaN => NaN
  | Fin a, Fin b => Fin (a * b)
  | Fin a, PInf | PInf, Fin a => inf_times false a
  | Fin a, NInf | NInf, Fin a => inf_times true a
  | PInf, PInf | NInf, NInf => PInf
  | PInf, NInf | NInf, PInf => NInf
  end.

(** Division; there is one zero, and it divides as [+0] does. *)
Definition div (x y : exact) : exact :=
  match x, y with
  | NaN, _ | _, NaN => NaN
  | Fin a, Fin b => if Qeq_bool b 0 then inf_times false a else Fin (a / b)
  | Fin _, PInf | Fin _, NInf => Fin 0
  | PInf, Fin b => inf_signed (qltb b 0)
  | NInf, Fin b => inf_signed (negb (qltb b 0))
  | PInf, PInf | PInf, NInf | NInf, PInf | NInf, NInf => NaN
  end.

Definition ltb (x y : exact) : bool :=
  match x, y with
  | NaN, _ | _, NaN => false
  | Fin a, Fin b => qltb a b
  | NInf, NInf | PInf, _ => false
  | NInf, _ => true
  | Fin _, PInf => true
  | Fin _, NInf => false
  end.

Definition leb (x y : exact) : bool :=
  match x, y with
  | NaN, _ | _, NaN => false
  | Fin a, Fin b => Qle_bool a b
  | NInf, _ => true
  | _, PInf => true
  | PInf, _ => false
  | Fin _, NInf => false
  end.

Definition eqb (x y : exact) : bool :=
  match x, y with
  | Fin a, Fin b => Qeq_bool a b
  | PInf, PInf | NInf, NInf => true
  | _, _ => false
  end.

Definition isNaN (x : exact) : bool :=
  match x with NaN => true | _ => false end.

Definition isFinite (x : exact) : bool :=
  match x with Fin _ => true | _ => false end.

Definition min (x y : exact) : exact :=
  if isNaN x || isNaN y then NaN else if ltb y x then y else x.

Definition max (x y : exact) : exact :=
  if isNaN x || isNaN y then NaN else if ltb x y then y else x.

#[global] Instance number : Number exact := {|
  ofQ := Fin;
  nadd := add;
  nsub := sub;
  nmul := mul;
  ndiv := div;
  nneg := neg;
  nltb := ltb;
  nleb := leb;
  neqb := eqb;
  nIsNaN := isNaN;
  nIsFinite := isFinite;
  nInfinity := PInf;
  nmin := min;
  nmax := max
|}.

End Exact.

(* ================================================================== *)
(** * 2. Data model ([types.ts]) *)
(* ================================================================== *)

Record Coordinate (N : Type) : Type := mkCoordinate {
  lat : N;
  lng : N
}.

Inductive ZoneType : Type := manual_polygon | geocoded_area | circular_risk.

Record FloodZone (N : Type) : Type := mkFloodZone {
  id : string;
  name : string;
  polygon : list (Coordinate N);
  center : Coordinate N;
  radius : N;
  type : ZoneType
}.

Record RouteManeuver (N : Type) : Type := mkRouteManeuver {
  maneuver_type : string;
  modifier : option string;
  bearing_before : N;
  bearing_after : N
}.

Record RouteStep (N : Type) : Type := mkRouteStep {
  step_distance : N;
  step_duration : N;
  step_name : string;
  maneuver : RouteManeuver N
}.

Record RouteData (N : Type) : Type := mkRouteData {
  coordinates : list (Coordinate N);
  totalDistance : N;
  totalDuration : N;
  bbox : option (N * N * N * N);
  steps : list (RouteStep N)
}.

Record NavigationStatus (N : Type) : Type := mkNavigationStatus {
  isNavigating : bool;
  distanceRemaining : N;
  alert : option string;
  rerouting : bool
}.

(* ================================================================== *)
(** * 3. Geometry kernel and hazard scorer ([utils/geo.ts]) *)
(* ================================================================== *)

Section Geo.

Context {N : Type} `{Number N}.
Local Open Scope js_scope.

(** Earth radius in meters. *)
Definition R : N := ofQ 6371000.

Section Haversine.
Context `{Sqrt N} `{Trig N}.

Definition haversineDistance (c1 c2 : Coordinate N) : N :=
  let dLat := (lat c2 - lat c1) * (MPI / ofQ 180) in
  let dLon := (lng c2 - lng c1) * (MPI / ofQ 180) in
  let lat1 := lat c1 * (MPI / ofQ 180) in
  let lat2 := lat c2 * (MPI / ofQ 180) in
  let a :=
    Msin (dLat / ofQ 2) * Msin (dLat / ofQ 2) +
    Msin (dLon / ofQ 2) * Msin (dLon / ofQ 2) * Mcos lat1 * Mcos lat2 in
  let c := ofQ 2 * Matan2 (Msqrt a) (Msqrt (ofQ 1 - a)) in
  R * c.
End Haversine.

(** [Math.min(...xs)] and [Math.max(...xs)]. *)
Definition mathMin (xs : list N) : N := fold_left nmin xs nInfinity.
Definition mathMax (xs : list N) : N := fold_left nmax xs (- nInfinity).

(** One turn of the ray-casting loop: [vi = vs[i]], [vj = vs[j]]. *)
Definition intersect (x y : N) (vi vj : Coordinate N) : bool :=
  let xi := lng vi in let yi := lat vi in
  let xj := lng vj in let yj := lat vj in
  xorb (yi >? y) (yj >? y)
  && (x <? (xj - xi) * (y - yi) / (yj - yi) + xi).

(** The loop [for (i = 0, j = vs.length - 1; i < vs.length; j = i++)],
    entered with [vj = vs[j]]. *)
Fixpoint rayCast (x y : N) (vj : Coordinate N) (vs : list (Coordinate N))
         (inside : bool) : bool :=
  match vs with
  | [] => inside
  | vi :: rest =>
      rayCast x y vi rest
              (if intersect x y vi vj then negb inside else inside)
  end.

Definition isPointInPolygon (point : Coordinate N) (vs : list (Coordinate N)) : bool :=
  match vs with
  | [] => false
  | v0 :: _ => rayCast (lng point) (lat point) (last vs v0) vs false
  end.

(** The bounding box [(minLat, maxLat, minLng, maxLng)] of a list of points. *)
Record Bounds : Type := mkBounds {
  minLat : N; maxLat : N; minLng : N; maxLng : N
}.

Definition boundsOf (ps : list (Coordinate N)) : Bounds :=
  let lats := map (@lat N) ps in
  let lngs := map (@lng N) ps in
  {| minLat := mathMin lats; maxLat := mathMax lats;
     minLng := mathMin lngs; maxLng := mathMax lngs |}.

(** [rMaxLat < minLat || rMinLat > maxLat || rMaxLng < minLng || rMinLng > maxLng] *)
Definition bboxDisjoint (r z : Bounds) : bool :=
  (maxLat r <? minLat z) || (minLat r >? maxLat z)
  || (maxLng r <? minLng z) || (minLng r >? maxLng z).

Definition margin : N := ofQ (1 # 1000).

(** The filter of the narrow phase. *)
Definition withinMargin (z : Bounds) (p : Coordinate N) : bool :=
  (lat p >=? minLat z - margin) && (lat p <=? maxLat z + margin)
  && (lng p >=? minLng z - margin) && (lng p <=? maxLng z + margin).

Definition doesRouteIntersectFlood (routePath : list (Coordinate N))
           (floodZone : FloodZone N) : bool :=
  let z := boundsOf (polygon floodZone) in
  let r := boundsOf routePath in
  if bboxDisjoint r z then false
  else
    existsb (fun p => withinMargin z p && isPointInPolygon p (polygon floodZone))
            routePath.

(** The zones kept by the prefilter of the scorer. *)
Definition relevantZones (routePath : list (Coordinate N))
           (floodZones : list (FloodZone N)) : list (FloodZone N) :=
  filter (fun zone =>
            negb (bboxDisjoint (boundsOf routePath) (boundsOf (polygon zone))))
         floodZones.

Definition pointInDanger (zones : list (FloodZone N)) (p : Coordinate N) : bool :=
  existsb (fun zone => isPointInPolygon p (polygon zone)) zones.

Definition calculateRouteHazardScore (routePath : list (Coordinate N))
           (floodZones : list (FloodZone N)) : nat :=
  let relevant := relevantZones routePath floodZones in
  match relevant with
  | [] => 0
  | _ =>
      fold_left (fun score p => if pointInDanger relevant p then S score else score)
                routePath 0
  end.

End Geo.

(* ================================================================== *)
(** * 4. Asynchronous computations *)
(* ================================================================== *)

(** An [async] function either returns or throws; the requests it sends are
    appended to a log. *)
Inductive Outcome (A : Type) : Type :=
| Value (a : A)
| Thrown (error : string).

Arguments Thrown {A} error.

Definition Async (L A : Type) : Type := list L -> Outcome A * list L.

Definition ret {L A} (a : A) : Async L A := fun log => (Value a, log).

Definition throw {L A} (error : string) : Async L A := fun log => (Thrown error, log).

Definition bind {L A B} (m : Async L A) (k : A -> Async L B) : Async L B :=
  fun log =>
    match m log with
    | (Value a, log') => k a log'
    | (Thrown e, log') => (Thrown e, log')
    end.

(** [try { m } catch (error) { handler(error) }] *)
Definition tryCatch {L A} (m : Async L A) (handler : string -> Async L A) : Async L A :=
  fun log =>
    match m log with
    | (Value a, log') => (Value a, log')
    | (Thrown e, log') => handler e log'
    end.

Definition liftOutcome {L A} (o : Outcome A) : Async L A := fun log => (o, log).

Notation "'await' x <- m ;; k" := (bind m (fun x => k))
  (at level 61, x name, m at next level, right associativity).

(** [values[i] = v] on an array of known length. *)
Fixpoint setIndex {A} (i : nat) (v : A) (values : list A) {struct values} : list A :=
  match values with
  | [] => []
  | x :: rest =>
      match i with
      | O => v :: rest
      | S i' => x :: setIndex i' v rest
      end
  end.

(** ** Calls started together, and [Promise.all]

    [array.map(async (x) => ...)] calls the async function on every element
    before anything is awaited: each call runs at once up to the point where
    it first waits for an answer, sending what it sends on the way, and what
    is left of it resumes when the answer has arrived.  A started call is
    its synchronous part, which returns what is left of the call. *)
Definition Started (L A : Type) : Type := Async L (Async L A).

(** The synchronous parts run in the order of the array.  A throw in the
    synchronous part of an [async] function rejects its promise: it is what
    is left of the call. *)
Fixpoint startAll {L A} (calls : list (Started L A)) (log : list L)
  : list (Async L A) * list L :=
  match calls with
  | [] => ([], log)
  | call :: others =>
      let (o, log1) := call log in
      let (rests, log2) := startAll others log1 in
      (match o with Value rest => rest | Thrown e => throw e end :: rests, log2)
  end.

(** What has settled so far: the outcome of each call that has, and the
    reason of the first rejection. *)
Record Progress (A : Type) : Type := mkProgress {
  outcomes : list (option (Outcome A));
  rejection : option string
}.

Definition settle {A} (i : nat) (o : Outcome A) (s : Progress A) : Progress A :=
  {| outcomes := setIndex i (Some o) (outcomes s);
     rejection := match rejection s, o with
                  | None, Thrown e => Some e
                  | r, _ => r
                  end |}.

(** The calls resume in the order [order], each once (an index that names
    no call, or a call that has settled, is passed over), and each runs to
    its end: what it sends then is logged at that point. *)
Fixpoint resumeAll {L A} (rests : list (Async L A)) (order : list nat)
         (s : Progress A) (log : list L) : Progress A * list L :=
  match order with
  | [] => (s, log)
  | i :: later =>
      match nth_error rests i, nth_error (outcomes s) i with
      | Some rest, Some None =>
          let (o, log1) := rest log in
          resumeAll rests later (settle i o s) log1
      | _, _ => resumeAll rests later s log
      end
  end.

Definition settled {A} (os : list (option (Outcome A))) : list A :=
  flat_map (fun o => match o with Some (Value a) => [a] | _ => [] end) os.

(** [Promise.all(calls)] over calls started together.  [completion] is the
    order in which the answers the calls first wait for arrive; a call it
    does not name resumes after those it names.  The promise is rejected
    with the reason of the first call to reject in that order, and
    fulfilled with the values in the order of the array when none does.
    The other calls go on when one has rejected: the log holds every request
    the calls send, also those sent after the promise has been rejected. *)
Definition promiseAll {L A} (calls : list (Started L A)) (completion : list nat)
  : Async L (list A) :=
  fun log =>
    let (rests, log1) := startAll calls log in
    let n := List.length calls in
    let (s, log2) := resumeAll rests (completion ++ seq 0 n)
                               {| outcomes := repeat None n; rejection := None |} log1 in
    (match rejection s with
     | Some e => Thrown e
     | None => Value (settled (outcomes s))
     end, log2).

(** ** [Array.prototype.sort]

    Only the sign of what [comparefn] returns is used, [NaN] counting as
    [0].  ECMAScript prescribes the result for a consistent comparator: the
    elements in ascending order, those that compare equal in their original
    order; [sort] is that order.  For a comparator that is not consistent
    the order is implementation-defined: the algorithm is the engine's. *)
Inductive Sign : Type := Negative | Zero | Positive.

Fixpoint sortInsert {A} (comparefn : A -> A -> Sign) (x : A) (sorted : list A) : list A :=
  match sorted with
  | [] => [x]
  | y :: rest =>
      match comparefn x y with
      | Positive => y :: sortInsert comparefn x rest
      | _ => x :: sorted
      end
  end.

Definition sort {A} (comparefn : A -> A -> Sign) (l : list A) : list A :=
  fold_right (sortInsert comparefn) [] l.

(** The engine the program runs on, as far as the program depends on it. *)
Class Engine : Type := {
  arraySort : forall A : Type, (A -> A -> Sign) -> list A -> list A
}.

Arguments arraySort {Engine A} comparefn l.

(** A consistent comparator for the elements of [l] (ECMA-262, 23.1.3.30):
    equality is reflexive, symmetric and transitive, and [<] and [>] are
    transitive. *)
Definition consistent {A} (comparefn : A -> A -> Sign) (l : list A) : Prop :=
  forall a b c, In a l -> In b l -> In c l ->
    comparefn a a = Zero
    /\ (comparefn a b = Zero -> comparefn b a = Zero)
    /\ (comparefn a b = Zero -> comparefn b c = Zero -> comparefn a c = Zero)
    /\ (comparefn a b = Negative -> comparefn b c = Negative -> comparefn a c = Negative)
    /\ (comparefn a b = Positive -> comparefn b c = Positive -> comparefn a c = Positive).

(** What ECMAScript asks of every engine: the result holds the elements of
    the array, and it is the prescribed order when the comparator is
    consistent. *)
Definition conforming (engine : Engine) : Prop :=
  forall (A : Type) (comparefn : A -> A -> Sign) (l : list A),
    Permutation l (arraySort comparefn l)
    /\ (consistent comparefn l -> arraySort comparefn l = sort comparefn l).

(** An engine that sorts by insertion, whatever the comparator. *)
Definition insertionEngine : Engine := {| arraySort := @sort |}.

(* ================================================================== *)
(** * 5. Route provider client and route selector ([services/mapService.ts]) *)
(* ================================================================== *)

Definition OSRM_BASE_URL : string := "https://router.project-osrm.org/route/v1/driving".
Definition OSRM_BACKUP_URL : string := "https://routing.openstreetmap.de/routed-car/route/v1/driving".

(** The body of a provider response, once parsed. *)
Record OSRMLeg (N : Type) : Type := mkLeg {
  leg_steps : list (RouteStep N)
}.

Record OSRMRoute (N : Type) : Type := mkOSRMRoute {
  geometry_coordinates : list (N * N);       (* [lng, lat] pairs *)
  distance : N;
  duration : N;
  route_bbox : option (N * N * N * N);
  legs : list (OSRMLeg N)
}.

Record OSRMResponse (N : Type) : Type := mkOSRMResponse {
  routes : list (OSRMRoute N)
}.

(** [null], or an object; an object without [routes] has [routes = []]. *)
Definition JSON (N : Type) : Type := option (OSRMResponse N).

(** A request: the endpoint, the coordinates of the query string
    [lng,lat;lng,lat;...] and the delay after which it is aborted. *)
Record Request (N : Type) : Type := mkRequest {
  req_base : string;
  req_coords : list (Coordinate N);
  req_timeout_ms : nat
}.

(** What [fetch] followed by [response.json()] can do. *)
Inductive FetchOutcome (N : Type) : Type :=
| Aborted                                   (* the timer fired first *)
| NetworkError                              (* [fetch] rejected *)
| Responded (ok : bool) (status : nat) (body : option (JSON N)).
                                            (* [body = None]: not JSON *)

Arguments Aborted {N}.
Arguments NetworkError {N}.

(** The routing provider: its answer to each request. *)
Definition Provider (N : Type) : Type := Request N -> FetchOutcome N.

Record DetourCandidate (N : Type) : Type := mkDetourCandidate {
  cand_type : string;
  waypoint : Coordinate N
}.

Record RouteEvaluation (N : Type) : Type := mkRouteEvaluation {
  route : RouteData N;
  hazardScore : nat;
  detourType : string
}.

Section Detours.

Context {N : Type} `{Number N} `{Sqrt N}.
Local Open Scope js_scope.

Definition calculateOffsetPoint (start end_ center : Coordinate N)
           (multiplier radiusMeters : N) : Coordinate N :=
  let dx := lng end_ - lng start in
  let dy := lat end_ - lat start in
  let len := Msqrt (dx * dx + dy * dy) in
  if len === ofQ 0 then center
  else
    let perpX := (- dy) / len in
    let perpY := dx / len in
    let radiusInDegrees := radiusMeters / ofQ 111111 in
    let offsetAmount := radiusInDegrees * multiplier in
    {| lat := lat center + (perpY * offsetAmount);
       lng := lng center + (perpX * offsetAmount) |}.

Definition getExpandedBoundingBoxCorners (zone : FloodZone N) (expansionFactor : N)
  : list (Coordinate N) :=
  let b := boundsOf (polygon zone) in
  let latSpan := maxLat b - minLat b in
  let lngSpan := maxLng b - minLng b in
  let latMargin := (latSpan * (expansionFactor - ofQ 1)) / ofQ 2 in
  let lngMargin := (lngSpan * (expansionFactor - ofQ 1)) / ofQ 2 in
  [ {| lat := maxLat b + latMargin; lng := minLng b - lngMargin |};   (* TL *)
    {| lat := maxLat b + latMargin; lng := maxLng b + lngMargin |};   (* TR *)
    {| lat := minLat b - latMargin; lng := maxLng b + lngMargin |};   (* BR *)
    {| lat := minLat b - latMargin; lng := minLng b - lngMargin |} ]. (* BL *)

Definition generateDetourWaypoints (start end_ : Coordinate N) (hazard : FloodZone N)
  : list (DetourCandidate N) :=
  let offset m := calculateOffsetPoint start end_ (center hazard) m (radius hazard) in
  let corners := getExpandedBoundingBoxCorners hazard (ofQ (13 # 10)) in
  [ {| cand_type := "Perpendicular Left (Tight)"; waypoint := offset (ofQ (3 # 2)) |};
    {| cand_type := "Perpendicular Right (Tight)"; waypoint := offset (- ofQ (3 # 2)) |};
    {| cand_type := "Perpendicular Left (Wide)"; waypoint := offset (ofQ 3) |};
    {| cand_type := "Perpendicular Right (Wide)"; waypoint := offset (- ofQ 3) |} ]
  ++ map (fun '(label, corner) => {| cand_type := label; waypoint := corner |})
         (combine ["Corner Top-Left"; "Corner Top-Right";
                   "Corner Bottom-Right"; "Corner Bottom-Left"]%string
                  corners).

(** The [forEach] loops of [getCombinedHazardZone]. *)
Definition extend (b : Bounds) (p : Coordinate N) : Bounds :=
  {| minLat := if lat p <? minLat b then lat p else minLat b;
     maxLat := if lat p >? maxLat b then lat p else maxLat b;
     minLng := if lng p <? minLng b then lng p else minLng b;
     maxLng := if lng p >? maxLng b then lng p else maxLng b |}.

Definition getCombinedHazardZone (zones : list (FloodZone N)) : option (FloodZone N) :=
  match zones with
  | [] => None
  | _ =>
      let b := fold_left (fun b z => fold_left extend (polygon z) b) zones
                         {| minLat := nInfinity; maxLat := - nInfinity;
                            minLng := nInfinity; maxLng := - nInfinity |} in
      let centerLat := (minLat b + maxLat b) / ofQ 2 in
      let centerLng := (minLng b + maxLng b) / ofQ 2 in
      let latDiff := maxLat b - minLat b in
      let lngDiff := maxLng b - minLng b in
      let diagonalDeg := Msqrt (latDiff * latDiff + lngDiff * lngDiff) in
      let radiusMeters := (diagonalDeg / ofQ 2) * ofQ 111111 in
      Some {| id := "combined-hazard";
              name := "Combined Hazard Zone";
              center := {| lat := centerLat; lng := centerLng |};
              radius := nmax radiusMeters (ofQ 500);
              type := manual_polygon;
              polygon := [ {| lat := maxLat b; lng := minLng b |};
                           {| lat := maxLat b; lng := maxLng b |};
                           {| lat := minLat b; lng := maxLng b |};
                           {| lat := minLat b; lng := minLng b |} ] |}
  end.

End Detours.

Section MapService.

Context {N : Type} `{Number N} `{Sqrt N}.
Local Open Scope js_scope.

(** The routing provider the client talks to. *)
Variable provider : Provider N.

Definition IO : Type -> Type := Async (Request N).

(** [performFetch(buildUrl(base))]: the request is aborted after 5000 ms;
    a response that is not [ok], or whose body is not JSON, throws. *)
Definition performFetch (base : string) (coords : list (Coordinate N)) : IO (JSON N) :=
  fun log =>
    let request := {| req_base := base; req_coords := coords; req_timeout_ms := 5000 |} in
    let log' := log ++ [request] in
    match provider request with
    | Aborted => (Thrown "AbortError", log')
    | NetworkError => (Thrown "TypeError: Failed to fetch", log')
    | Responded ok status body =>
        if negb ok then (Thrown "Error: Status", log')
        else match body with
             | None => (Thrown "SyntaxError", log')
             | Some data => (Value data, log')
             end
    end.

Definition validCoordinate (c : Coordinate N) : bool :=
  negb (nIsNaN (lat c)) && negb (nIsNaN (lng c))
  && nIsFinite (lat c) && nIsFinite (lng c).

Definition fetchOSRMRoute (coordinates : list (Coordinate N)) : IO (JSON N) :=
  let validCoords := filter validCoordinate coordinates in
  if (List.length validCoords <? 2)%nat then ret None
  else
    tryCatch (performFetch OSRM_BASE_URL validCoords)
             (fun primaryError =>
                tryCatch (performFetch OSRM_BACKUP_URL validCoords)
                         (fun backupError => ret None)).

(** [performFetch] in two parts: the request [fetch] sends, and what the
    function makes of the answer. *)
Definition fetchRequest (base : string) (coords : list (Coordinate N)) : Request N :=
  {| req_base := base; req_coords := coords; req_timeout_ms := 5000 |}.

Definition fetchAnswer (base : string) (coords : list (Coordinate N)) : Outcome (JSON N) :=
  match provider (fetchRequest base coords) with
  | Aborted => Thrown "AbortError"
  | NetworkError => Thrown "TypeError: Failed to fetch"
  | Responded ok status body =>
      if negb ok then Thrown "Error: Status"
      else match body with
           | None => Thrown "SyntaxError"
           | Some data => Value data
           end
  end.

(** [fetchOSRMRoute] in two parts, for a call that is not awaited at once:
    the part that runs before the call first waits, in which [fetch] sends
    the request to the primary server, and what is left of the call, from
    the answer on. *)
Definition fetchOSRMRoute_started (coordinates : list (Coordinate N))
  : Started (Request N) (JSON N) :=
  let validCoords := filter validCoordinate coordinates in
  if (List.length validCoords <? 2)%nat then ret (ret None)
  else
    fun log =>
      (Value (tryCatch (liftOutcome (fetchAnswer OSRM_BASE_URL validCoords))
                       (fun primaryError =>
                          tryCatch (performFetch OSRM_BACKUP_URL validCoords)
                                   (fun backupError => ret None))),
       log ++ [fetchRequest OSRM_BASE_URL validCoords]).

(** [route.legs[0].steps] throws when the route has no leg. *)
Definition transformRouteData (data : JSON N) : Outcome (option (RouteData N)) :=
  match data with
  | None => Value None
  | Some response =>
      match routes response with
      | [] => Value None
      | route :: _ =>
          match legs route with
          | [] => Thrown "TypeError: Cannot read properties of undefined"
          | leg :: _ =>
              Value (Some {| coordinates :=
                               map (fun c => {| lat := snd c; lng := fst c |})
                                   (geometry_coordinates route);
                             totalDistance := distance route;
                             totalDuration := duration route;
                             bbox := route_bbox route;
                             steps := leg_steps leg |})
          end
      end
  end.

Definition signOfZ (z : Z) : Sign :=
  match z with Z0 => Zero | Zpos _ => Positive | Zneg _ => Negative end.

Definition signOf (v : N) : Sign :=
  if v <? ofQ 0 then Negative else if v >? ofQ 0 then Positive else Zero.

(** The comparator of [validEvaluations.sort]. *)
Definition compareEvaluations (a b : RouteEvaluation N) : Sign :=
  if negb (hazardScore a =? hazardScore b)%nat then
    signOfZ (Z.of_nat (hazardScore a) - Z.of_nat (hazardScore b))
  else
    signOf (totalDistance (route a) - totalDistance (route b)).

Definition filterNonNull {A} (results : list (option A)) : list A :=
  flat_map (fun r => match r with Some a => [a] | None => [] end) results.

(** The body of [candidates.map(async (candidate) => ...)]. *)
Definition evaluateCandidate (start end_ : Coordinate N) (floodZones : list (FloodZone N))
           (candidate : DetourCandidate N) : IO (option (RouteEvaluation N)) :=
  await detourData <- fetchOSRMRoute [start; waypoint candidate; end_] ;;
  await detourRoute <- liftOutcome (transformRouteData detourData) ;;
  match detourRoute with
  | None => ret None
  | Some detourRoute =>
      ret (Some {| route := detourRoute;
                   hazardScore :=
                     calculateRouteHazardScore (coordinates detourRoute) floodZones;
                   detourType := cand_type candidate |})
  end.

(** The same body in two parts: [candidates.map] starts the eight
    evaluations together, and each waits first for the answer to the request
    of its [fetchOSRMRoute]. *)
Definition evaluateCandidate_started (start end_ : Coordinate N)
           (floodZones : list (FloodZone N)) (candidate : DetourCandidate N)
  : Started (Request N) (option (RouteEvaluation N)) :=
  await rest <- fetchOSRMRoute_started [start; waypoint candidate; end_] ;;
  ret (await detourData <- rest ;;
       await detourRoute <- liftOutcome (transformRouteData detourData) ;;
       match detourRoute with
       | None => ret None
       | Some detourRoute =>
           ret (Some {| route := detourRoute;
                        hazardScore :=
                          calculateRouteHazardScore (coordinates detourRoute) floodZones;
                        detourType := cand_type candidate |})
       end).

(** [fetchRoute]; [completion] is the order in which the answers to the
    first requests of the candidate evaluations arrive. *)
Definition fetchRoute `{engine : Engine} (completion : list nat) (start end_ : Coordinate N)
           (floodZones : list (FloodZone N)) (avoidHazards : bool)
  : IO (option (RouteData N)) :=
  tryCatch
    (await data <- fetchOSRMRoute [start; end_] ;;
     await directRoute <- liftOutcome (transformRouteData data) ;;
     match directRoute with
     | None => ret None
     | Some directRoute =>
         if negb avoidHazards then ret (Some directRoute)
         else
           let directHazardScore :=
             calculateRouteHazardScore (coordinates directRoute) floodZones in
           if (directHazardScore =? 0)%nat then ret (Some directRoute)
           else
             let intersectingZones :=
               filter (doesRouteIntersectFlood (coordinates directRoute)) floodZones in
             match getCombinedHazardZone intersectingZones with
             | Some metaZone =>
                 let candidates := generateDetourWaypoints start end_ metaZone in
                 await results <-
                   promiseAll (map (evaluateCandidate_started start end_ floodZones)
                                   candidates)
                              completion ;;
                 let validEvaluations := filterNonNull results in
                 if (0 <? List.length validEvaluations)%nat then
                   match arraySort compareEvaluations validEvaluations with
                   | best :: _ => ret (Some (route best))
                   | [] => throw "TypeError: Cannot read properties of undefined"
                   end
                 else ret (Some directRoute)
             | None => ret (Some directRoute)
             end
     end)
    (fun error => ret None).

End MapService.

(* ================================================================== *)
(** * 6. Location smoother ([utils/geo.ts], class [LocationSmoother]) *)
(* ================================================================== *)

Record LocationSmoother (N : Type) : Type := mkLocationSmoother {
  lastLat : option N;
  lastLng : option N
}.

Section Smoother.

Context {N : Type} `{Number N}.
Local Open Scope js_scope.

(** [new LocationSmoother()] *)
Definition newLocationSmoother : LocationSmoother N :=
  {| lastLat := None; lastLng := None |}.

(** 0.3 means 30% new data, 70% old data. *)
Definition alpha : N := ofQ (3 # 10).

(** [smooth(lat, lng)]: the value returned and the smoother afterwards. *)
Definition smooth (this : LocationSmoother N) (rawLat rawLng : N)
  : Coordinate N * LocationSmoother N :=
  match lastLat this, lastLng this with
  | Some lastLat_, Some lastLng_ =>
      let smoothedLat := lastLat_ + alpha * (rawLat - lastLat_) in
      let smoothedLng := lastLng_ + alpha * (rawLng - lastLng_) in
      ({| lat := smoothedLat; lng := smoothedLng |},
       {| lastLat := Some smoothedLat; lastLng := Some smoothedLng |})
  | _, _ =>
      ({| lat := rawLat; lng := rawLng |},
       {| lastLat := Some rawLat; lastLng := Some rawLng |})
  end.

(** The values returned by successive calls, from a given smoother. *)
Fixpoint smoothAll (this : LocationSmoother N) (fixes : list (N * N))
  : list (Coordinate N) :=
  match fixes with
  | [] => []
  | (rawLat, rawLng) :: rest =>
      let '(out, this') := smooth this rawLat rawLng in
      out :: smoothAll this' rest
  end.

End Smoother.

(* ================================================================== *)
(** * 7. The navigation session ([App.tsx]) *)
(* ================================================================== *)

Inductive Tool : Type := tool_none | tool_destination | tool_hazard.

(** The arguments of one call of [calculateRoute]. *)
Record RouteQuery (N : Type) : Type := mkRouteQuery {
  q_start : Coordinate N;
  q_end : Coordinate N;
  q_zones : list (FloodZone N);
  q_avoidHazards : bool;
  q_isAutoReroute : bool
}.

(** [position.coords] of a [GeolocationPosition]. *)
Record GeolocationCoordinates (N : Type) : Type := mkCoords {
  latitude : N;
  longitude : N
}.

(** The state of the component.  [pending] is not a variable of the
    program: it lists the calls of [calculateRoute] that have started and
    whose [fetchRoute] has not settled yet.  Fields that only feed the
    display (heading, speed, ETA, search texts, view centre) are left out. *)
Record AppState (N : Type) : Type := mkAppState {
  userLocation : Coordinate N;
  pathTrail : list (Coordinate N);
  locationSmoother : LocationSmoother N;
  activeTool : Tool;
  tempHazardPoints : list (Coordinate N);
  destination : option (Coordinate N);
  activeRoute : option (RouteData N);          (* the state variable [route] *)
  isBlocked : bool;
  floodZones : list (FloodZone N);
  isCalculating : bool;
  isSimulating : bool;
  navStatus : NavigationStatus N;
  simulationInterval : bool;                    (* [simulationInterval.current !== null] *)
  simulationIndex : nat;
  previousLocationRef : Coordinate N;
  pending : list (RouteQuery N)
}.

(** What the interval callback of [startSimulation] closes over: the values
    of the render in which the simulation was started. *)
Record SimulationClosure (N : Type) : Type := mkSimulationClosure {
  sim_route : RouteData N;
  sim_destination : option (Coordinate N);
  sim_floodZones : list (FloodZone N);
  sim_navStatus : NavigationStatus N
}.

Section App.

Context {N : Type} `{Number N} `{Sqrt N}.
Local Open Scope js_scope.

Definition DEFAULT_LOCATION : Coordinate N :=
  {| lat := ofQ (163067 # 10000); lng := ofQ (804365 # 10000) |}.

Definition initialState : AppState N :=
  {| userLocation := DEFAULT_LOCATION;
     pathTrail := [];
     locationSmoother := newLocationSmoother;
     activeTool := tool_none;
     tempHazardPoints := [];
     destination := None;
     activeRoute := None;
     isBlocked := false;
     floodZones := [];
     isCalculating := false;
     isSimulating := false;
     navStatus := {| isNavigating := false; distanceRemaining := ofQ 0;
                     alert := None; rerouting := false |};
     simulationInterval := false;
     simulationIndex := 0;
     previousLocationRef := DEFAULT_LOCATION;
     pending := [] |}.

(** ** State setters *)

Definition setNavStatus (f : NavigationStatus N -> NavigationStatus N)
           (st : AppState N) : AppState N :=
  mkAppState (userLocation st) (pathTrail st) (locationSmoother st) (activeTool st)
             (tempHazardPoints st) (destination st) (activeRoute st) (isBlocked st)
             (floodZones st) (isCalculating st) (isSimulating st) (f (navStatus st))
             (simulationInterval st) (simulationIndex st) (previousLocationRef st)
             (pending st).

Definition setPathTrail (f : list (Coordinate N) -> list (Coordinate N))
           (st : AppState N) : AppState N :=
  mkAppState (userLocation st) (f (pathTrail st)) (locationSmoother st) (activeTool st)
             (tempHazardPoints st) (destination st) (activeRoute st) (isBlocked st)
             (floodZones st) (isCalculating st) (isSimulating st) (navStatus st)
             (simulationInterval st) (simulationIndex st) (previousLocationRef st)
             (pending st).

(** [setUserLocation(loc)], with the smoother and [previousLocationRef]
    as the position handler leaves them. *)
Definition setLocation (loc previous : Coordinate N) (smoother : LocationSmoother N)
           (st : AppState N) : AppState N :=
  mkAppState loc (pathTrail st) smoother (activeTool st)
             (tempHazardPoints st) (destination st) (activeRoute st) (isBlocked st)
             (floodZones st) (isCalculating st) (isSimulating st) (navStatus st)
             (simulationInterval st) (simulationIndex st) previous
             (pending st).

Definition setTools (tool : Tool) (points : list (Coordinate N))
           (dest : option (Coordinate N)) (st : AppState N) : AppState N :=
  mkAppState (userLocation st) (pathTrail st) (locationSmoother st) tool
             points dest (activeRoute st) (isBlocked st)
             (floodZones st) (isCalculating st) (isSimulating st) (navStatus st)
             (simulationInterval st) (simulationIndex st) (previousLocationRef st)
             (pending st).

Definition setFloodZones (f : list (FloodZone N) -> list (FloodZone N))
           (st : AppState N) : AppState N :=
  mkAppState (userLocation st) (pathTrail st) (locationSmoother st) (activeTool st)
             (tempHazardPoints st) (destination st) (activeRoute st) (isBlocked st)
             (f (floodZones st)) (isCalculating st) (isSimulating st) (navStatus st)
             (simulationInterval st) (simulationIndex st) (previousLocationRef st)
             (pending st).

(** [setRoute], [setIsBlocked], [setIsCalculating] and the bookkeeping of
    [pending]. *)
Definition setRouting (r : option (RouteData N)) (blocked calculating : bool)
           (queries : list (RouteQuery N)) (st : AppState N) : AppState N :=
  mkAppState (userLocation st) (pathTrail st) (locationSmoother st) (activeTool st)
             (tempHazardPoints st) (destination st) r blocked
             (floodZones st) calculating (isSimulating st) (navStatus st)
             (simulationInterval st) (simulationIndex st) (previousLocationRef st)
             queries.

Definition setSimulation (simulating interval : bool) (index : nat)
           (st : AppState N) : AppState N :=
  mkAppState (userLocation st) (pathTrail st) (locationSmoother st) (activeTool st)
             (tempHazardPoints st) (destination st) (activeRoute st) (isBlocked st)
             (floodZones st) (isCalculating st) simulating (navStatus st)
             interval index (previousLocationRef st)
             (pending st).

Definition withRerouting (b : bool) (a : option (option string))
           (prev : NavigationStatus N) : NavigationStatus N :=
  {| isNavigating := isNavigating prev;
     distanceRemaining := distanceRemaining prev;
     alert := match a with Some a' => a' | None => alert prev end;
     rerouting := b |}.

Definition withAlert (a : option string) (prev : NavigationStatus N)
  : NavigationStatus N :=
  {| isNavigating := isNavigating prev;
     distanceRemaining := distanceRemaining prev;
     alert := a;
     rerouting := rerouting prev |}.

Definition withDistanceRemaining (d : N) (prev : NavigationStatus N)
  : NavigationStatus N :=
  {| isNavigating := isNavigating prev;
     distanceRemaining := d;
     alert := alert prev;
     rerouting := rerouting prev |}.

(** ** The breadcrumb trail *)

(** [prev.slice(-n)] *)
Definition sliceLast {A} (n : nat) (prev : list A) : list A :=
  skipn (List.length prev - n) prev.

(** [prev[prev.length - 1]] *)
Definition lastOf {A} (prev : list A) : option A :=
  nth_error prev (List.length prev - 1).

(** The updater of [setPathTrail] in the simulated playback. *)
Definition trailAfterTick (currentPos : Coordinate N) (prev : list (Coordinate N))
  : list (Coordinate N) :=
  sliceLast 49 prev ++ [currentPos].

(** ** Stopping *)

Definition stopSimulation (st : AppState N) : AppState N :=
  setNavStatus (fun prev => {| isNavigating := false;
                               distanceRemaining := distanceRemaining prev;
                               alert := None;
                               rerouting := false |})
               (setSimulation false false (simulationIndex st) st).

Definition completeNavigation (st : AppState N) : AppState N :=
  setNavStatus (fun prev => {| isNavigating := false;
                               distanceRemaining := distanceRemaining prev;
                               alert := Some "TARGET REACHED"%string;
                               rerouting := rerouting prev |})
               (stopSimulation st).

Definition abortNavigation (st : AppState N) : AppState N :=
  setNavStatus (fun prev => {| isNavigating := false;
                               distanceRemaining := distanceRemaining prev;
                               alert := None;
                               rerouting := false |})
               (stopSimulation st).

(** ** Routing *)

Definition isCompromised (r : RouteData N) (zones : list (FloodZone N)) : bool :=
  existsb (fun z => doesRouteIntersectFlood (coordinates r) z) zones.

Definition invalidQuery (q : RouteQuery N) : bool :=
  nIsNaN (lat (q_start q)) || nIsNaN (lng (q_start q))
  || nIsNaN (lat (q_end q)) || nIsNaN (lng (q_end q)).

(** [calculateRoute] up to its first [await]: validation, then the flags. *)
Definition calculateRoute_begin (q : RouteQuery N) (st : AppState N) : AppState N :=
  if invalidQuery q then st
  else
    setNavStatus
      (withRerouting true
         (if q_isAutoReroute q then Some (Some "REROUTING..."%string) else None))
      (setRouting (activeRoute st) (isBlocked st) true (pending st ++ [q]) st).

(** [calculateRoute] from the moment [fetchRoute] has settled with
    [routeData]; [rest] is what remains in flight. *)
Definition calculateRoute_settle (q : RouteQuery N) (routeData : option (RouteData N))
           (rest : list (RouteQuery N)) (st : AppState N) : AppState N :=
  let st1 :=
    setNavStatus (withRerouting false None)
                 (setRouting routeData (isBlocked st) false rest st) in
  match routeData with
  | None => st1
  | Some r =>
      let intersect := isCompromised r (q_zones q) in
      let st2 := setRouting routeData intersect false rest st1 in
      if intersect then
        if q_avoidHazards q then
          setNavStatus (withAlert (Some "NO SAFE PATH FOUND"%string)) st2
        else
          setNavStatus (withAlert (Some "CRITICAL: HAZARD ON ROUTE"%string)) st2
      else
        if q_isAutoReroute q then
          setNavStatus (withAlert (Some "REROUTE COMPLETE"%string)) st2
        else
          setNavStatus
            (withAlert (if q_avoidHazards q then Some "SAFE ROUTE LOCKED"%string else None))
            st2
  end.

(** One call of [calculateRoute] run to its end with nothing in between. *)
Definition calculateRoute `{engine : Engine} (provider : Provider N) (completion : list nat)
           (q : RouteQuery N) (st : AppState N) : AppState N :=
  if invalidQuery q then st
  else
    let routeData :=
      match fst (fetchRoute provider completion (q_start q) (q_end q) (q_zones q)
                            (q_avoidHazards q) []) with
      | Value r => r
      | Thrown _ => None
      end in
    calculateRoute_settle q routeData (pending st) (calculateRoute_begin q st).

(** ** Effects

    An effect runs after a render in which one of its dependencies
    changed; it reads the values of that render, [snap], whatever state
    updates have been queued since. *)

(** The dynamic hazard check (dependencies: [floodZones],
    [navStatus.isNavigating], [route], [userLocation], [destination]). *)
Definition hazardCheckEffect (snap st : AppState N) : AppState N :=
  match activeRoute snap with
  | Some r =>
      if isNavigating (navStatus snap)
         && (0 <? List.length (floodZones snap))%nat
         && negb (rerouting (navStatus snap))
      then
        if isCompromised r (floodZones snap) then
          match destination snap with
          | Some dest =>
              calculateRoute_begin
                {| q_start := userLocation snap; q_end := dest;
                   q_zones := floodZones snap;
                   q_avoidHazards := true; q_isAutoReroute := true |} st
          | None => st
          end
        else st
      else st
  | None => st
  end.

(** "Auto-calc route when destination changes" (dependencies:
    [destination], [floodZones], [calculateRoute]). *)
Definition autoCalcEffect (snap st : AppState N) : AppState N :=
  match destination snap with
  | Some dest =>
      let shouldAvoid := (0 <? List.length (floodZones snap))%nat in
      calculateRoute_begin
        {| q_start := userLocation snap; q_end := dest;
           q_zones := floodZones snap;
           q_avoidHazards := shouldAvoid; q_isAutoReroute := shouldAvoid |} st
  | None => st
  end.

(** A hazard is appended to the hazard set ([setFloodZones(prev =>
    [...prev, zone])]); both effects depend on [floodZones] and run, in
    the order of their declaration, on the values of the same render. *)
Definition addFloodZone (zone : FloodZone N) (st : AppState N) : AppState N :=
  let snap := setFloodZones (fun prev => prev ++ [zone]) st in
  autoCalcEffect snap (hazardCheckEffect snap snap).

(** The oldest evaluation in flight settles with [routeData]; [route]
    changes, so the hazard check runs again. *)
Definition routeSettled (routeData : option (RouteData N)) (st : AppState N)
  : AppState N :=
  match pending st with
  | [] => st
  | q :: rest =>
      let snap := calculateRoute_settle q routeData rest st in
      hazardCheckEffect snap snap
  end.

(** ** Handlers *)

Definition handleMapClick (lat_ lng_ : N) (st : AppState N) : AppState N :=
  if nIsNaN lat_ || nIsNaN lng_ then st
  else
    match activeTool st with
    | tool_destination =>
        setTools tool_none (tempHazardPoints st)
                 (Some {| lat := lat_; lng := lng_ |}) st
    | tool_hazard =>
        setTools tool_hazard (tempHazardPoints st ++ [{| lat := lat_; lng := lng_ |}])
                 (destination st) st
    | tool_none => st
    end.

Definition startRealNavigation (st : AppState N) : AppState N :=
  match activeRoute st with
  | None => st
  | Some _ =>
      setNavStatus (fun prev => {| isNavigating := true;
                                   distanceRemaining := distanceRemaining prev;
                                   alert := None;
                                   rerouting := rerouting prev |})
                   (setSimulation false (simulationInterval st) (simulationIndex st) st)
  end.

Section Positions.

Context `{Trig N}.

(** The updater of [setPathTrail] in the position handler. *)
Definition trailAfterFix (newLoc : Coordinate N) (prev : list (Coordinate N))
  : list (Coordinate N) :=
  match lastOf prev with
  | None => sliceLast 49 prev ++ [newLoc]
  | Some last_ =>
      if haversineDistance last_ newLoc >? ofQ 5
      then sliceLast 49 prev ++ [newLoc]
      else prev
  end.

(** [handleSuccess], the callback of [watchPosition]. *)
Definition handleSuccess (coords : GeolocationCoordinates N) (st : AppState N)
  : AppState N :=
  if isSimulating st then st
  else
    let rawLat := latitude coords in
    let rawLng := longitude coords in
    if nIsNaN rawLat || nIsNaN rawLng then st
    else
      let '(smoothed, smoother) := smooth (locationSmoother st) rawLat rawLng in
      let newLoc := {| lat := lat smoothed; lng := lng smoothed |} in
      let st1 := setPathTrail (trailAfterFix newLoc)
                              (setLocation newLoc newLoc smoother st) in
      if isNavigating (navStatus st) then
        let distToDest :=
          match destination st with
          | Some dest => haversineDistance newLoc dest
          | None => ofQ 0
          end in
        let st2 := setNavStatus (withDistanceRemaining distToDest) st1 in
        match destination st with
        | Some _ => if distToDest <? ofQ 30 then completeNavigation st2 else st2
        | None => st2
        end
      else st1.

(** A position fix: when the handler accepts it [userLocation] changes
    and the hazard check runs. *)
Definition positionFix (coords : GeolocationCoordinates N) (st : AppState N)
  : AppState N :=
  if isSimulating st || nIsNaN (latitude coords) || nIsNaN (longitude coords) then st
  else
    let snap := handleSuccess coords st in
    hazardCheckEffect snap snap.

(** [startSimulation], without its interval. *)
Definition startSimulation (st : AppState N) : AppState N :=
  match activeRoute st with
  | None => st
  | Some r =>
      match coordinates r with
      | [] => st
      | _ =>
          setNavStatus (fun prev => {| isNavigating := true;
                                       distanceRemaining := distanceRemaining prev;
                                       alert := alert prev;
                                       rerouting := rerouting prev |})
                       (setSimulation true true 0 st)
      end
  end.

(** One tick of the interval of [startSimulation]; [hit] is
    [Math.random() > 0.98].  Before the last point, the updater given to
    [setNavStatus] computes [haversineDistance(currentPos, destination!)]:
    when the destination is [null] it throws, the render fails and nothing
    is left of the session ([None]). *)
Definition simulationTick (closure : SimulationClosure N) (hit : bool)
           (st : AppState N) : option (AppState N) :=
  let coords := coordinates (sim_route closure) in
  let idx := simulationIndex st in
  if (idx <? List.length coords - 1)%nat then
    match nth_error coords idx with
    | None => Some st
    | Some currentPos =>
        match sim_destination closure with
        | None => None
        | Some dest =>
            let st1 :=
              setSimulation (isSimulating st) (simulationInterval st) (idx + 1)
                (setPathTrail (trailAfterTick currentPos)
                   (setLocation currentPos (previousLocationRef st)
                                (locationSmoother st) st)) in
            let st2 :=
              setNavStatus (withDistanceRemaining (haversineDistance currentPos dest))
                           st1 in
            if hit
               && isCompromised (sim_route closure) (sim_floodZones closure)
               && negb (rerouting (sim_navStatus closure))
            then
              Some (calculateRoute_begin
                      {| q_start := currentPos; q_end := dest;
                         q_zones := sim_floodZones closure;
                         q_avoidHazards := true; q_isAutoReroute := true |} st2)
            else Some st2
        end
    end
  else Some (completeNavigation st).

(** ** The session as a transition system *)

(** What can happen while the live monitor is the only source of
    reroutes. *)
Inductive MonitorEvent : Type :=
| GpsFix (coords : GeolocationCoordinates N)
| FetchSettled (routeData : option (RouteData N))
| AbortPressed.

Definition monitorStep (st : AppState N) (e : MonitorEvent) : AppState N :=
  match e with
  | GpsFix coords => positionFix coords st
  | FetchSettled routeData => routeSettled routeData st
  | AbortPressed => abortNavigation st
  end.

(** Updates of the breadcrumb trail. *)
Inductive TrailEvent : Type :=
| RealFix (newLoc : Coordinate N)
| PlaybackTick (currentPos : Coordinate N).

Definition trailStep (prev : list (Coordinate N)) (e : TrailEvent)
  : list (Coordinate N) :=
  match e with
  | RealFix newLoc => trailAfterFix newLoc prev
  | PlaybackTick currentPos => trailAfterTick currentPos prev
  end.

End Positions.

End App.

Arguments MonitorEvent N : clear implicits.
Arguments TrailEvent N : clear implicits.

(* ================================================================== *)
(** * 8. Embedding rational inputs *)
(* ================================================================== *)

(** A coordinate given by two rationals, read in any arithmetic: at [float]
    each component is rounded to the nearest double, at [exact] it is the
    rational itself. *)
Definition coordinateOf {N : Type} `{Number N} (c : Coordinate Q) : Coordinate N :=
  {| lat := ofQ (lat c); lng := ofQ (lng c) |}.

Definition zoneOf {N : Type} `{Number N} (z : FloodZone Q) : FloodZone N :=
  {| id := id z; name := name z;
     polygon := map coordinateOf (polygon z);
     center := coordinateOf (center z);
     radius := ofQ (radius z);
     type := type z |}.

(** A zone with a given polygon (the other fields play no part in the
    hazard tests). *)
Definition zoneWith {N : Type} `{Number N} (vs : list (Coordinate N)) : FloodZone N :=
  {| id := "zone"; name := "zone"; polygon := vs;
     center := {| lat := ofQ 0; lng := ofQ 0 |}; radius := ofQ 500;
     type := manual_polygon |}.

(* ================================================================== *)
(** * 9. Vocabulary of the statements *)
(* ================================================================== *)

(** ** Ray casting over the rationals *)

Section RationalGeometry.

Local Open Scope Q_scope.

(** [yi > y !== yj > y] *)
Definition straddles (y yi yj : Q) : bool :=
  xorb (Exact.qltb y yi) (Exact.qltb y yj).

(** The abscissa at which the edge meets the horizontal line through
    the point. *)
Definition crossing (y : Q) (vi vj : Coordinate Q) : Q :=
  (lng vj - lng vi) * (y - lat vi) / (lat vj - lat vi) + lng vi.

(** The point lies in the bounding box of the vertices: each side is
    witnessed by a vertex. *)
Definition inBox (p : Coordinate Q) (vs : list (Coordinate Q)) : Prop :=
  (exists v, In v vs /\ lat v <= lat p) /\ (exists v, In v vs /\ lat p <= lat v)
  /\ (exists v, In v vs /\ lng v <= lng p) /\ (exists v, In v vs /\ lng p <= lng v).

End RationalGeometry.

(** ** The low-pass filter *)

(** The filter as the design states it: the first fix is returned
    unchanged; every later output is the previous output plus [alpha] times
    the move from the previous output to the raw fix. *)
Fixpoint lowPass {N : Type} `{Number N} (previous : Coordinate N) (fixes : list (N * N))
  : list (Coordinate N) :=
  match fixes with
  | [] => []
  | (rawLat, rawLng) :: rest =>
      let smoothed :=
        {| lat := nadd (lat previous) (nmul alpha (nsub rawLat (lat previous)));
           lng := nadd (lng previous) (nmul alpha (nsub rawLng (lng previous))) |} in
      smoothed :: lowPass smoothed rest
  end.

Definition lowPassFilter {N : Type} `{Number N} (fixes : list (N * N))
  : list (Coordinate N) :=
  match fixes with
  | [] => []
  | (rawLat, rawLng) :: rest =>
      {| lat := rawLat; lng := rawLng |} :: lowPass {| lat := rawLat; lng := rawLng |} rest
  end.

Section SmootherVocabulary.

Context {N : Type} `{Number N}.
Local Open Scope js_scope.

(** [x] is a fixed point of one step, up to [===]. *)
Definition fixedPoint (x : N) : Prop :=
  (x === x) = true
  /\ forall s, (s === x) = true -> (s + alpha * (x - s) === x) = true.

Definition near (x y : N) (out : Coordinate N) : bool :=
  (lat out === x) && (lng out === y).

End SmootherVocabulary.

(** ** Responses, tasks and ranking *)

(** The body of a response that [performFetch] accepts. *)
Definition succeeded {N : Type} (o : FetchOutcome N) : option (JSON N) :=
  match o with
  | Responded true _ (Some data) => Some data
  | _ => None
  end.

Section SortVocabulary.

Context {A : Type}.
Variable comparefn : A -> A -> Sign.

(** The element that ends up first: scanning from the right, a new
    element takes the first place unless it compares [Positive] with the
    one that holds it. *)
Definition challenger (x : A) (champion : option A) : A :=
  match champion with
  | None => x
  | Some y => match comparefn x y with Positive => y | _ => x end
  end.

End SortVocabulary.

Section JoinVocabulary.

Context {L A : Type}.

(** All the values, in the order of the tasks, unless one of them threw. *)
Fixpoint allValues (outcomes : list (Outcome A)) : option (list A) :=
  match outcomes with
  | [] => Some []
  | Value v :: rest => option_map (cons v) (allValues rest)
  | Thrown _ :: _ => None
  end.

(** The started call settles with [o], whatever has been sent before it
    runs and before it resumes. *)
Definition settlesWith (call : Started L A) (o : Outcome A) : Prop :=
  forall log, exists rest log',
      call log = (Value rest, log') /\ forall log'', fst (rest log'') = o.

(** What is recorded of the calls that settle with [os]: outcomes of [os],
    each at its index, and a rejection exactly when one of them is one. *)
Definition recorded (os : list (Outcome A)) (s : Progress A) : Prop :=
  List.length (outcomes s) = List.length os
  /\ (forall j o, nth_error (outcomes s) j = Some (Some o) -> nth_error os j = Some o)
  /\ (rejection s = None
      <-> forall j e, nth_error (outcomes s) j <> Some (Some (Thrown e))).

End JoinVocabulary.

Section SelectorVocabulary.

Context {N : Type} `{Number N} `{Sqrt N}.
Variable provider : Provider N.
Local Open Scope js_scope.

(** What the client returns for a list of waypoints. *)
Definition fetched (waypoints : list (Coordinate N)) : JSON N :=
  match fst (fetchOSRMRoute provider waypoints []) with
  | Value data => data
  | Thrown _ => None
  end.

(** The direct route, and the evaluation of one candidate. *)
Definition directOutcome (start end_ : Coordinate N) : Outcome (option (RouteData N)) :=
  transformRouteData (fetched [start; end_]).

Definition candidateOutcome (start end_ : Coordinate N) (floodZones : list (FloodZone N))
           (candidate : DetourCandidate N) : Outcome (option (RouteEvaluation N)) :=
  match transformRouteData (fetched [start; waypoint candidate; end_]) with
  | Thrown e => Thrown e
  | Value None => Value None
  | Value (Some detourRoute) =>
      Value (Some {| route := detourRoute;
                     hazardScore :=
                       calculateRouteHazardScore (coordinates detourRoute) floodZones;
                     detourType := cand_type candidate |})
  end.

End SelectorVocabulary.

(** [a] ranks at least as high as [b]: a lower hazard score, or the same
    score and a total distance that is not larger. *)
Definition atLeastAsGood {N : Type} `{Number N} (a b : RouteEvaluation N) : Prop :=
  hazardScore a < hazardScore b
  \/ (hazardScore a = hazardScore b
      /\ nleb (totalDistance (route a)) (totalDistance (route b)) = true).

(** The total distance is a number; it may be infinite. *)
Definition knownDistance {N : Type} `{Number N} (e : RouteEvaluation N) : Prop :=
  nIsNaN (totalDistance (route e)) = false.

(** [a] ranks strictly before [b]. *)
Definition rankedBefore {N : Type} `{Number N} (a b : RouteEvaluation N) : Prop :=
  hazardScore a < hazardScore b
  \/ (hazardScore a = hazardScore b
      /\ nltb (totalDistance (route a)) (totalDistance (route b)) = true).

(** What the comparator relies on in the arithmetic, for numbers other than
    [NaN]: the sign of a difference tells which of the two is the smaller,
    [<=] is the negation of [>], and [<] is irreflexive, transitive and
    negatively transitive.  It holds of binary64 and of exact arithmetic
    (lemmas [float_subtractionOrders] and [exact_subtractionOrders]). *)
Definition subtractionOrders (N : Type) `{Number N} : Prop :=
  forall x y z : N,
    nIsNaN x = false -> nIsNaN y = false -> nIsNaN z = false ->
    nltb (nsub x y) (ofQ 0) = nltb x y
    /\ nltb (ofQ 0) (nsub x y) = nltb y x
    /\ nleb x y = negb (nltb y x)
    /\ nltb x x = false
    /\ (nltb x y = true -> nltb y z = true -> nltb x z = true)
    /\ (nltb x y = false -> nltb y z = false -> nltb x z = false).

Arguments subtractionOrders N {_}.

(** ** The order of binary64 *)

Section FloatVocabulary.

Local Open Scope Z_scope.

(** The first power of two beyond the finite range, in units of [2^emin]. *)
Definition top : Z := 2 ^ (emax - emin).

(** The value of a double, in units of [2^emin]; an infinity is given
    [top] with its sign. *)
Definition key (x : spec_float) : Z :=
  match x with
  | S754_finite s m e => cond_Zopp s (Zpos m * 2 ^ (e - emin))
  | S754_infinity s => cond_Zopp s top
  | _ => 0
  end.

Definition finite_or_zero (x : spec_float) : bool :=
  match x with
  | S754_finite _ _ _ | S754_zero _ => true
  | _ => false
  end.

Definition ordered (x : spec_float) : bool :=
  match x with
  | S754_nan => false
  | _ => true
  end.

Definition keyOf (x : float) : Z := key (Prim2SF x).

End FloatVocabulary.

(** ** The session *)

(** No evaluation in flight. *)
Definition quiescent {N : Type} (st : AppState N) : AppState N :=
  mkAppState (userLocation st) (pathTrail st) (locationSmoother st) (activeTool st)
             (tempHazardPoints st) (destination st) (activeRoute st) (isBlocked st)
             (floodZones st) (isCalculating st) (isSimulating st) (navStatus st)
             (simulationInterval st) (simulationIndex st) (previousLocationRef st)
             [].

(** At most one evaluation is in flight, and while one is and the session
    is navigating the flag is set. *)
Definition singleFlight {N : Type} (st : AppState N) : Prop :=
  List.length (pending st) <= 1
  /\ (pending st <> [] ->
      rerouting (navStatus st) = true \/ isNavigating (navStatus st) = false).

(* ================================================================== *)
(** * 10. Sample inputs *)
(* ================================================================== *)

Definition qpoint (la lo : Q) : Coordinate Q := {| lat := la; lng := lo |}.

(** A "polygon" of two vertices, and a point of the segment between them:
    its longitude is the double [1/3]. *)
Definition segment : list (Coordinate Q) := [qpoint 0 0; qpoint 3 1].
Definition onSegment : Coordinate Q := qpoint 1 (1 # 3).

(** A triangle with vertices (lat, lng) = (2^-60, 3 * 2^-54), (-1, -1),
    (1, -1), and a point just to the right of its rightmost vertex.  All
    components are exact doubles. *)
Definition sliver : list (Coordinate Q) :=
  [qpoint (1 # 2 ^ 60) (3 # 2 ^ 54); qpoint (-1) (-1); qpoint 1 (-1)].
Definition besideSliver : Coordinate Q := qpoint 0 (7 # 2 ^ 55).

(** A square hazard of side 0.004 degrees lying across the parallel
    16.3067, between the start (16.3067, 80.4365) and a point 2 km east. *)
Definition square : list (Coordinate Q) :=
  [qpoint (163087 # 10000) (804439 # 10000); qpoint (163087 # 10000) (804479 # 10000);
   qpoint (163047 # 10000) (804479 # 10000); qpoint (163047 # 10000) (804439 # 10000)].
Definition startPoint : Coordinate Q := qpoint (163067 # 10000) (804365 # 10000).
Definition endPoint : Coordinate Q := qpoint (163067 # 10000) (804553 # 10000).
Definition midPoint : Coordinate Q := qpoint (163067 # 10000) (804459 # 10000).

Definition qzone (vs : list (Coordinate Q)) : FloodZone Q :=
  {| id := "zone"; name := "zone"; polygon := vs;
     center := midPoint; radius := 500%Q; type := manual_polygon |}.

Definition midPoint2 : Coordinate Q := qpoint (163070 # 10000) (804465 # 10000).

(** A provider route through the given points. *)
Definition osrmRoute {N : Type} `{Number N} (pts : list (Coordinate Q)) (meters : Q)
  : OSRMRoute N :=
  {| geometry_coordinates := map (fun c => (ofQ (lng c), ofQ (lat c))) pts;
     distance := ofQ meters;
     duration := ofQ (meters / 10);
     route_bbox := None;
     legs := [ {| leg_steps := [] |} ] |}.

(** What [transformRouteData] makes of it. *)
Definition routeDataOf {N : Type} `{Number N} (pts : list (Coordinate Q)) (meters : Q)
  : RouteData N :=
  {| coordinates := map coordinateOf pts;
     totalDistance := ofQ meters;
     totalDuration := ofQ (meters / 10);
     bbox := None;
     steps := [] |}.

(** A provider whose direct route crosses the square hazard at one sample
    point and whose every detour crosses it at two. *)
Definition stubbornProvider {N : Type} `{Number N} : Provider N :=
  fun request =>
    if (List.length (req_coords request) =? 2)%nat
    then Responded true 200
                   (Some (Some {| routes := [osrmRoute [startPoint; midPoint; endPoint] 2000] |}))
    else Responded true 200
                   (Some (Some {| routes := [osrmRoute [startPoint; midPoint; midPoint2; endPoint]
                                                       2600] |})).

(** A provider whose direct route crosses the square hazard at one sample
    point and whose detours keep clear of it, except that its answer for a
    detour through a waypoint south of the parallel 16.2967 (of the eight
    around the sample hazard, the wide one on the right) holds a route
    without legs. *)
Definition leglessProvider {N : Type} `{Number N} : Provider N :=
  fun request =>
    match req_coords request with
    | [_; via; _] =>
        if nltb (lat via) (ofQ (162967 # 10000)) then
          Responded true 200
                    (Some (Some {| routes := [ {| geometry_coordinates := [];
                                                  distance := ofQ 2600;
                                                  duration := ofQ 260;
                                                  route_bbox := None;
                                                  legs := [] |} ] |}))
        else
          Responded true 200
                    (Some (Some {| routes := [osrmRoute [startPoint; endPoint] 2600] |}))
    | _ =>
        Responded true 200
                  (Some (Some {| routes := [osrmRoute [startPoint; midPoint; endPoint] 2000] |}))
    end.

Definition sampleQuery {N : Type} `{Number N} : RouteQuery N :=
  {| q_start := coordinateOf startPoint; q_end := coordinateOf endPoint;
     q_zones := [zoneOf (qzone square)];
     q_avoidHazards := true; q_isAutoReroute := false |}.

(** The combined hazard of the sample query: the square is the one zone
    the direct sample route intersects. *)
Definition sampleHazard {N : Type} `{Number N} `{Sqrt N} : FloodZone N :=
  match getCombinedHazardZone [zoneOf (qzone square)] with
  | Some metaZone => metaZone
  | None => zoneOf (qzone square)
  end.

Definition sampleEvaluation {N : Type} `{Number N} (score : nat) (meters : Q)
  : RouteEvaluation N :=
  {| route := routeDataOf [startPoint; endPoint] meters;
     hazardScore := score; detourType := "Corner Top-Left" |}.

(** A session navigating along the direct sample route, no hazard yet. *)
Definition navigatingState {N : Type} `{Number N} : AppState N :=
  startRealNavigation
    (setRouting (Some (routeDataOf [startPoint; midPoint; endPoint] 2000)) false false []
                (setTools tool_none [] (Some (coordinateOf endPoint)) initialState)).

(* ================================================================== *)
(** * 11. Speed and bearing ([utils/geo.ts]) *)
(* ================================================================== *)

(** The remainder operator [%]: the result has the sign of the dividend. *)
Class Rem (N : Type) : Type := { nrem : N -> N -> N }.

(** [Math.trunc] of a rational. *)
Definition qtrunc (q : Q) : Z :=
  if Exact.qltb q 0 then Qceiling q else Qfloor q.

Definition exactRem (n d : exact) : exact :=
  match n, d with
  | NaN, _ | _, NaN => NaN
  | PInf, _ | NInf, _ => NaN
  | Fin a, PInf | Fin a, NInf => Fin a
  | Fin a, Fin b =>
      if Qeq_bool b 0 then NaN
      else Fin (a - b * inject_Z (qtrunc (a / b)))
  end.

#[global] Instance exact_rem : Rem exact := {| nrem := exactRem |}.

(** The remainder of two doubles is a double: it is computed on their
    mantissas, brought to the smaller exponent. *)
Definition floatRem (n d : float) : float :=
  match Prim2SF n, Prim2SF d with
  | S754_nan, _ | _, S754_nan => PrimFloat.nan
  | S754_infinity _, _ => PrimFloat.nan
  | _, S754_zero _ => PrimFloat.nan
  | _, S754_infinity _ => n
  | S754_zero _, _ => n
  | S754_finite sn mn en, S754_finite _ md ed =>
      let e := Z.min en ed in
      let r := ((Zpos mn * 2 ^ (en - e)) mod (Zpos md * 2 ^ (ed - e)))%Z in
      if (r =? 0)%Z then (if sn then PrimFloat.neg_zero else PrimFloat.zero)
      else SF2Prim (binary_normalize prec emax (cond_Zopp sn r) e false)
  end.

#[global] Instance float_rem : Rem float := {| nrem := floatRem |}.

Section SpeedAndBearing.

Context {N : Type} `{Number N} `{Rem N} `{Trig N}.
Local Open Scope js_scope.

Definition calculateBearing (start end_ : Coordinate N) : N :=
  let startLat := lat start * (MPI / ofQ 180) in
  let startLng := lng start * (MPI / ofQ 180) in
  let endLat := lat end_ * (MPI / ofQ 180) in
  let endLng := lng end_ * (MPI / ofQ 180) in
  let y := Msin (endLng - startLng) * Mcos endLat in
  let x := Mcos startLat * Msin endLat
           - Msin startLat * Mcos endLat * Mcos (endLng - startLng) in
  let brng := nrem (Matan2 y x * ofQ 180 / MPI + ofQ 360) (ofQ 360) in
  brng.

Definition calculateSpeed (distMeters timeDeltaMs : N) : N :=
  if timeDeltaMs <=? ofQ 0 then ofQ 0
  else
    let speedMPS := distMeters / (timeDeltaMs / ofQ 1000) in
    speedMPS * ofQ (36 # 10).

End SpeedAndBearing.

(* ================================================================== *)
(** * 12. Drawing tools, destination, live hazards and playback ([App.tsx]) *)
(* ================================================================== *)

Definition tool_eqb (a b : Tool) : bool :=
  match a, b with
  | tool_none, tool_none
  | tool_destination, tool_destination
  | tool_hazard, tool_hazard => true
  | _, _ => false
  end.

Section Hazards.

Context {N : Type} `{Number N} `{Sqrt N}.
Local Open Scope js_scope.

(** A click on the map: [handleMapClick], then, when the click has set the
    destination, the effects that depend on it. *)
Definition mapClicked (lat_ lng_ : N) (st : AppState N) : AppState N :=
  let snap := handleMapClick lat_ lng_ st in
  match activeTool st with
  | tool_destination =>
      if nIsNaN lat_ || nIsNaN lng_ then st
      else autoCalcEffect snap (hazardCheckEffect snap snap)
  | _ => snap
  end.

Definition toggleTool (tool : Tool) (st : AppState N) : AppState N :=
  setTools (if tool_eqb (activeTool st) tool then tool_none else tool)
           [] (destination st) st.

(** [points.length], as a number. *)
Definition numberOfNat (n : nat) : N := ofQ (inject_Z (Z.of_nat n)).

(** The zone [confirmHazardDrawing] makes of the drawn points; [id_] is
    [`manual-${Date.now()}`]. *)
Definition drawnZone (id_ : string) (points : list (Coordinate N)) : FloodZone N :=
  let latSum := fold_left (fun acc p => acc + lat p) points (ofQ 0) in
  let lngSum := fold_left (fun acc p => acc + lng p) points (ofQ 0) in
  {| id := id_;
     name := "Manual Hazard";
     polygon := points;
     center := {| lat := latSum / numberOfNat (List.length points);
                  lng := lngSum / numberOfNat (List.length points) |};
     radius := ofQ 500;
     type := manual_polygon |}.

(** With fewer than 3 points: [alert("Need 3+ points")], and nothing else. *)
Definition confirmHazardDrawing (id_ : string) (st : AppState N) : AppState N :=
  if (List.length (tempHazardPoints st) <? 3)%nat then st
  else
    addFloodZone (drawnZone id_ (tempHazardPoints st))
                 (setTools tool_none [] (destination st) st).

(** [setDestination(coords)], and the effects that depend on the
    destination. *)
Definition destinationSet (coords : Coordinate N) (st : AppState N) : AppState N :=
  let snap := setTools (activeTool st) (tempHazardPoints st) (Some coords) st in
  autoCalcEffect snap (hazardCheckEffect snap snap).

(** [handleDestinationSearch], from the moment [searchLocation] has settled
    with [coords]. *)
Definition destinationSearched (coords : option (Coordinate N)) (st : AppState N)
  : AppState N :=
  match coords with
  | Some c =>
      if negb (nIsNaN (lat c)) && negb (nIsNaN (lng c)) then destinationSet c st else st
  | None => st
  end.

(** [handleSelectDestination]; [lat_] and [lng_] are
    [parseFloat(suggestion.lat)] and [parseFloat(suggestion.lon)]. *)
Definition handleSelectDestination (lat_ lng_ : N) (st : AppState N) : AppState N :=
  if negb (nIsNaN lat_) && negb (nIsNaN lng_)
  then destinationSet {| lat := lat_; lng := lng_ |} st
  else st.

(** What the user can do with the map, the drawing tools and the
    destination search. *)
Inductive UserEvent : Type :=
| MapClick (lat_ lng_ : N)
| ToolToggled (tool : Tool)
| DrawingConfirmed (id_ : string)
| DestinationSearched (coords : option (Coordinate N))
| SuggestionSelected (lat_ lng_ : N).

Definition userStep (st : AppState N) (e : UserEvent) : AppState N :=
  match e with
  | MapClick lat_ lng_ => mapClicked lat_ lng_ st
  | ToolToggled tool => toggleTool tool st
  | DrawingConfirmed id_ => confirmHazardDrawing id_ st
  | DestinationSearched coords => destinationSearched coords st
  | SuggestionSelected lat_ lng_ => handleSelectDestination lat_ lng_ st
  end.

(** The zone the live monitor spawns near [baseLoc]; [latDraw] and
    [lngDraw] are two results of [Math.random()]. *)
Definition liveHazard (baseLoc : Coordinate N) (latDraw lngDraw : N)
           (id_ name_ : string) : FloodZone N :=
  let latOffset := (latDraw - ofQ (1 # 2)) * ofQ (3 # 100) in
  let lngOffset := (lngDraw - ofQ (1 # 2)) * ofQ (3 # 100) in
  {| id := id_;
     name := name_;
     polygon :=
       [ {| lat := lat baseLoc + latOffset + ofQ (4 # 1000);
            lng := lng baseLoc + lngOffset - ofQ (4 # 1000) |};
         {| lat := lat baseLoc + latOffset + ofQ (4 # 1000);
            lng := lng baseLoc + lngOffset + ofQ (4 # 1000) |};
         {| lat := lat baseLoc + latOffset - ofQ (4 # 1000);
            lng := lng baseLoc + lngOffset + ofQ (4 # 1000) |};
         {| lat := lat baseLoc + latOffset - ofQ (4 # 1000);
            lng := lng baseLoc + lngOffset - ofQ (4 # 1000) |} ];
     center := {| lat := lat baseLoc + latOffset; lng := lng baseLoc + lngOffset |};
     radius := ofQ 600;
     type := circular_risk |}.

(** The ticks of a playback, one after the other; [hits] are the draws
    [Math.random() > 0.98] of the ticks.  Nothing follows a render that
    has failed. *)
Definition playback `{Trig N} (closure : SimulationClosure N) (hits : list bool)
           (st : AppState N) : option (AppState N) :=
  fold_left (fun session hit =>
               match session with
               | Some st => simulationTick closure hit st
               | None => None
               end)
            hits (Some st).

End Hazards.

Arguments UserEvent N : clear implicits.

(* ================================================================== *)
(** * 13. Geocoding client ([services/mapService.ts]) *)
(* ================================================================== *)

Definition NOMINATIM_BASE_URL : string := "https://nominatim.openstreetmap.org/search".

(** The geometry of a place, as far as [searchAreaPolygon] reads it:
    positions are [[lng, lat]] pairs. *)
Inductive GeoJSON (N : Type) : Type :=
| GeoPolygon (rings : list (list (N * N)))
| GeoMultiPolygon (polygons : list (list (list (N * N))))
| GeoOther (type_ : string).

Arguments GeoOther {N} type_.

(** One place of an answer of the geocoder.  Coordinates come as strings; a
    string is the sequence of its code units. *)
Record Place (N : Type) : Type := mkPlace {
  place_lat : string;
  place_lon : string;
  display_name : string;
  boundingbox : list string;
  geojson : option (GeoJSON N)
}.

(** What [fetch(url)] followed by [response.json()] can do: the status of
    the response is not looked at.  A body that is JSON is taken to be
    what the code's types say, [null] or an array of places. *)
Inductive SearchOutcome (N : Type) : Type :=
| SearchFailed                                        (* [fetch] rejected *)
| SearchAnswered (body : option (option (list (Place N)))).
      (* [None]: not JSON; [Some None]: [null]; [Some (Some places)]: an array *)

Arguments SearchFailed {N}.

(** The geocoder: its answer to each URL. *)
Definition Geocoder (N : Type) : Type := string -> SearchOutcome N.

(** [s.split(',')[0]] *)
Fixpoint beforeComma (s : string) : string :=
  match s with
  | EmptyString => EmptyString
  | String c rest =>
      if Ascii.eqb c ","%char then EmptyString else String c (beforeComma rest)
  end.

Section Geocoding.

Context {N : Type} `{Number N}.
Local Open Scope js_scope.

Variable geocoder : Geocoder N.

(** [encodeURIComponent], which throws on a lone surrogate, and
    [parseFloat], applied to a string or to [undefined]. *)
Variable encodeURIComponent : string -> option string.
Variable parseFloat : option string -> N.

Definition Search : Type -> Type := Async string.

Definition fetchJSON (url : string) : Search (option (list (Place N))) :=
  fun log =>
    let log' := log ++ [url] in
    match geocoder url with
    | SearchFailed => (Thrown "TypeError: Failed to fetch", log')
    | SearchAnswered None => (Thrown "SyntaxError", log')
    | SearchAnswered (Some data) => (Value data, log')
    end.

(** The URL of a search, or the [URIError] of [encodeURIComponent]. *)
Definition searchURL (query options : string) : Search string :=
  match encodeURIComponent query with
  | Some q => ret (NOMINATIM_BASE_URL ++ "?q=" ++ q ++ options)%string
  | None => throw "URIError: URI malformed"
  end.

Definition searchLocation (query : string) : Search (option (Coordinate N)) :=
  tryCatch
    (await url <- searchURL query "&format=json&limit=1" ;;
     await data <- fetchJSON url ;;
     match data with
     | Some (place :: _) =>
         ret (Some {| lat := parseFloat (Some (place_lat place));
                      lng := parseFloat (Some (place_lon place)) |})
     | _ => ret None
     end)
    (fun error => ret None).

Definition getPlaceSuggestions (query : string) : Search (list (Place N)) :=
  if (String.length query <? 3)%nat then ret []
  else
    tryCatch
      (await url <- searchURL query "&format=json&addressdetails=1&limit=5" ;;
       await data <- fetchJSON url ;;
       match data with
       | Some places => ret places
       | None => ret []
       end)
      (fun error => ret []).

(** [ring.map((c: number[]) => ({ lat: c[1], lng: c[0] }))] *)
Definition ringPolygon (ring : list (N * N)) : list (Coordinate N) :=
  map (fun c => {| lat := snd c; lng := fst c |}) ring.

(** The polygon made of the bounding box when the place has no polygon. *)
Definition boundingBoxPolygon (bbox : list string) : list (Coordinate N) :=
  let minLat := parseFloat (nth_error bbox 0) in
  let maxLat := parseFloat (nth_error bbox 1) in
  let minLng := parseFloat (nth_error bbox 2) in
  let maxLng := parseFloat (nth_error bbox 3) in
  [ {| lat := minLat; lng := minLng |};
    {| lat := maxLat; lng := minLng |};
    {| lat := maxLat; lng := maxLng |};
    {| lat := minLat; lng := maxLng |};
    {| lat := minLat; lng := minLng |} ].

(** [id_] is [`flood-${Date.now()}`]. *)
Definition searchAreaPolygon (id_ query : string) : Search (option (FloodZone N)) :=
  tryCatch
    (await url <- searchURL query "&format=json&limit=1&polygon_geojson=1" ;;
     await data <- fetchJSON url ;;
     match data with
     | Some (place :: _) =>
         await polygon_ <-
           match geojson place with
           | Some (GeoPolygon rings) =>
               match rings with
               | ring :: _ => ret (ringPolygon ring)
               | [] => throw "TypeError: Cannot read properties of undefined"
               end
           | Some (GeoMultiPolygon polygons) =>
               match polygons with
               | (ring :: _) :: _ => ret (ringPolygon ring)
               | _ => throw "TypeError: Cannot read properties of undefined"
               end
           | _ => ret (boundingBoxPolygon (boundingbox place))
           end ;;
         ret (Some {| id := id_;
                      name := beforeComma (display_name place);
                      polygon := polygon_;
                      center := {| lat := parseFloat (Some (place_lat place));
                                   lng := parseFloat (Some (place_lon place)) |};
                      radius := ofQ 1500;
                      type := geocoded_area |})
     | _ => ret None
     end)
    (fun error => ret None).

End Geocoding.

(* ================================================================== *)
(** * 14. Vocabulary of the further statements *)
(* ================================================================== *)

(** ** Rectangles *)

(** Bounds given by four rationals, and the rectangle
    [TL; TR; BR; BL] that [getCombinedHazardZone] makes of its bounds. *)
Definition qbounds (a b c d : Q) : Bounds (N:=exact) :=
  {| minLat := Fin a; maxLat := Fin b; minLng := Fin c; maxLng := Fin d |}.

Definition rectangle {N : Type} (b : Bounds (N:=N)) : list (Coordinate N) :=
  [ {| lat := maxLat b; lng := minLng b |};
    {| lat := maxLat b; lng := maxLng b |};
    {| lat := minLat b; lng := maxLng b |};
    {| lat := minLat b; lng := minLng b |} ].

Section BoundsVocabulary.

Context {N : Type} `{Number N}.

(** [ok]: being a number; [le]: the order of the numbers. *)
Variable ok : N -> Prop.
Variable le : N -> N -> Prop.

Definition okBounds (b : Bounds) : Prop :=
  ok (minLat b) /\ ok (maxLat b) /\ ok (minLng b) /\ ok (maxLng b).

Definition okPoint (p : Coordinate N) : Prop := ok (lat p) /\ ok (lng p).

(** [p] lies within the bounds [b], sides included. *)
Definition covers (b : Bounds) (p : Coordinate N) : Prop :=
  le (minLat b) (lat p) /\ le (lat p) (maxLat b)
  /\ le (minLng b) (lng p) /\ le (lng p) (maxLng b).

Definition widens (b b' : Bounds) : Prop :=
  le (minLat b') (minLat b) /\ le (maxLat b) (maxLat b')
  /\ le (minLng b') (minLng b) /\ le (maxLng b) (maxLng b').

End BoundsVocabulary.

(** ** The drawing tools *)

(** Neither coordinate of [p] is [NaN]. *)
Definition isNumberPoint {N : Type} `{Number N} (p : Coordinate N) : Prop :=
  nIsNaN (lat p) = false /\ nIsNaN (lng p) = false.

(** The hazards drawn so far are well formed: at least 3 vertices each, no
    [NaN] coordinate, neither in them nor in the points being drawn. *)
Definition wellDrawn {N : Type} `{Number N} (st : AppState N) : Prop :=
  Forall (fun z => 3 <= List.length (polygon z) /\ Forall isNumberPoint (polygon z))
         (floodZones st)
  /\ Forall isNumberPoint (tempHazardPoints st).

(** The destination, when there is one, has no [NaN] coordinate. *)
Definition destinationIsNumber {N : Type} `{Number N} (st : AppState N) : Prop :=
  match destination st with
  | Some d => isNumberPoint d
  | None => True
  end.

(** The sum of a list of rationals. *)
Definition total (l : list Q) : Q := fold_right Qplus 0%Q l.

(** ** Searches *)

(** The places of the geocoder's answer to [url]: none when the request
    fails or the body is not JSON or is [null]. *)
Definition placesAt {N : Type} (geocoder : Geocoder N) (url : string) : list (Place N) :=
  match geocoder url with
  | SearchAnswered (Some (Some places)) => places
  | _ => []
  end.

(** The URLs a search of [query] with [options] may ask for. *)
Definition searchRequest (encodeURIComponent : string -> option string)
           (query options url : string) : Prop :=
  exists q, encodeURIComponent query = Some q
            /\ url = (NOMINATIM_BASE_URL ++ "?q=" ++ q ++ options)%string.

(** ** Square roots *)

(** [Math.sqrt] within a quarter, in the square: for [x >= 0] it returns a
    number [s >= 0] with [3/4 x <= s * s <= 5/4 x]. *)
Definition roughSqrt (S : Sqrt exact) : Prop :=
  forall x : Q, (0 <= x)%Q ->
    exists s : Q, Msqrt (Fin x) = Fin s
                  /\ (0 <= s)%Q /\ ((3 # 4) * x <= s * s <= (5 # 4) * x)%Q.

(** A square root over the rationals, computed on integers: for
    [x = n / d] it is [isqrt(64 n d) / (8 d)]. *)
Definition approxSqrt (x : exact) : exact :=
  match x with
  | Fin q =>
      if Exact.qltb q 0 then NaN
      else Fin (Z.sqrt (64 * Qnum q * Zpos (Qden q)) # (8 * Qden q))
  | PInf => PInf
  | NInf => NaN
  | NaN => NaN
  end.

Definition approxMath : Sqrt exact := {| Msqrt := approxSqrt |}.

(** ** Requests *)

(** [m] sends at most [k] requests, each satisfying [P], whatever it
    returns or throws. *)
Definition sends {L A : Type} (k : nat) (P : L -> Prop) (m : Async L A) : Prop :=
  forall log, exists (o : Outcome A) (requests : list L),
      m log = (o, log ++ requests)
      /\ List.length requests <= k /\ Forall P requests.

(** A call started with others: before it first waits it sends at most [j]
    requests and does not throw, and what is left of it sends at most [k]. *)
Definition starts {L A : Type} (j k : nat) (P : L -> Prop) (call : Started L A) : Prop :=
  forall log, exists (rest : Async L A) (requests : list L),
      call log = (Value rest, log ++ requests)
      /\ List.length requests <= j /\ Forall P requests
      /\ sends k P rest.

(** The number of calls that have not settled. *)
Definition unsettled {A : Type} (os : list (option (Outcome A))) : nat :=
  List.length (filter (fun o => match o with None => true | Some _ => false end) os).

(** What every request of the route client looks like: two valid
    coordinates at least, and a timer of 5000 ms. *)
Definition routeRequest {N : Type} `{Number N} (r : Request N) : Prop :=
  req_timeout_ms r = 5000
  /\ 2 <= List.length (req_coords r)
  /\ forallb validCoordinate (req_coords r) = true.

(* ================================================================== *)
(** * 15. Lists *)
(* ================================================================== *)

Section ListFacts.

Context {A : Type}.

Lemma count_fold (f : A -> bool) (l : list A) (n : nat) :
  fold_left (fun score p => if f p then S score else score) l n
  = n + List.length (filter f l).
Proof.
  revert n; induction l as [|a l IH]; intro n; simpl.
  - lia.
  - rewrite IH. destruct (f a); simpl; lia.
Qed.

Lemma filter_length_mono (f g : A -> bool) (l : list A) :
  (forall a, In a l -> f a = true -> g a = true) ->
  List.length (filter f l) <= List.length (filter g l).
Proof.
  induction l as [|a l IH]; intro Himp; simpl; [lia|].
  assert (IH' : List.length (filter f l) <= List.length (filter g l)).
  { apply IH. intros b Hb. apply Himp. now right. }
  destruct (f a) eqn:Hf.
  - rewrite (Himp a (or_introl eq_refl) Hf). simpl. lia.
  - destruct (g a); simpl; lia.
Qed.

Lemma filter_length_ext (f g : A -> bool) (l : list A) :
  (forall a, In a l -> f a = g a) ->
  List.length (filter f l) = List.length (filter g l).
Proof.
  intro Heq. apply Nat.le_antisymm; apply filter_length_mono;
    intros a Ha; rewrite (Heq a Ha); auto.
Qed.

Lemma filter_none (f : A -> bool) (l : list A) :
  (List.length (filter f l) =? 0)%nat = negb (existsb f l).
Proof.
  induction l as [|a l IH]; [reflexivity|].
  simpl. destruct (f a); [reflexivity | exact IH].
Qed.

Lemma existsb_filter (f g : A -> bool) (l : list A) :
  (forall a, In a l -> f a = true -> g a = true) ->
  existsb f (filter g l) = existsb f l.
Proof.
  induction l as [|a l IH]; intro Himp; simpl; [reflexivity|].
  assert (IH' : existsb f (filter g l) = existsb f l).
  { apply IH. intros b Hb. apply Himp. now right. }
  destruct (g a) eqn:Hg; simpl.
  - now rewrite IH'.
  - destruct (f a) eqn:Hf.
    + rewrite (Himp a (or_introl eq_refl) Hf) in Hg. discriminate.
    + exact IH'.
Qed.

Lemma existsb_ext_in (f g : A -> bool) (l : list A) :
  (forall a, In a l -> f a = g a) -> existsb f l = existsb g l.
Proof.
  induction l as [|a l IH]; intro Heq; simpl; [reflexivity|].
  rewrite (Heq a (or_introl eq_refl)), IH; auto.
  intros b Hb. apply Heq. now right.
Qed.

Lemma last_default (l : list A) (d d' : A) :
  l <> [] -> last l d = last l d'.
Proof.
  intro Hne. induction l as [|a l IH]; [congruence|].
  destruct l as [|b l]; [reflexivity|].
  change (last (b :: l) d = last (b :: l) d'). apply IH. discriminate.
Qed.

Lemma last_cons (a : A) (l : list A) (d : A) : last (a :: l) d = last l a.
Proof.
  destruct l as [|b l]; [reflexivity|].
  change (last (b :: l) d = last (b :: l) a). apply last_default. discriminate.
Qed.

Lemma last_last_default (l : list A) (d : A) :
  l <> [] -> last l (last l d) = last l d.
Proof.
  intro Hne. induction l as [|a l IH]; [congruence|].
  destruct l as [|b l]; [reflexivity|].
  change (last (a :: b :: l) (last (a :: b :: l) d))
    with (last (b :: l) (last (b :: l) d)).
  change (last (a :: b :: l) d) with (last (b :: l) d).
  apply IH. discriminate.
Qed.

Lemma last_in (l : list A) (d : A) : l <> [] -> In (last l d) l.
Proof.
  intro Hne. induction l as [|a l IH]; [congruence|].
  destruct l as [|b l]; [now left|].
  right. apply IH. discriminate.
Qed.

Lemma sliceLast_length (n : nat) (l : list A) :
  List.length (sliceLast n l) <= n.
Proof.
  unfold sliceLast. rewrite length_skipn. lia.
Qed.

End ListFacts.

(* ================================================================== *)
(** * 16. The ray-casting test, in any arithmetic *)
(* ================================================================== *)

Section RayCastFacts.

Context {N : Type} `{Number N}.
Local Open Scope js_scope.

Lemma intersect_same (x y : N) (v : Coordinate N) : intersect x y v v = false.
Proof. unfold intersect. now rewrite xorb_nilpotent. Qed.

Lemma isPointInPolygon_nil (p : Coordinate N) : isPointInPolygon p [] = false.
Proof. reflexivity. Qed.

Lemma isPointInPolygon_one (p v : Coordinate N) : isPointInPolygon p [v] = false.
Proof. simpl. now rewrite intersect_same. Qed.

Lemma isPointInPolygon_two (p a b : Coordinate N) :
  isPointInPolygon p [a; b]
  = xorb (intersect (lng p) (lat p) a b) (intersect (lng p) (lat p) b a).
Proof.
  simpl.
  destruct (intersect (lng p) (lat p) a b), (intersect (lng p) (lat p) b a);
    reflexivity.
Qed.

(** A point is reported inside only if some edge is crossed. *)
Lemma rayCast_crossed (x y : N) (vs : list (Coordinate N)) (vj : Coordinate N) :
  rayCast x y vj vs false = true ->
  exists vi vj', In vi vs /\ In vj' (vj :: vs) /\ intersect x y vi vj' = true.
Proof.
  revert vj. induction vs as [|vi rest IH]; intros vj Hin; simpl in Hin.
  - discriminate.
  - destruct (intersect x y vi vj) eqn:Hc.
    + exists vi, vj. repeat split; simpl; auto.
    + destruct (IH vi Hin) as (a & b & Ha & Hb & Hab).
      exists a, b. repeat split; simpl in *; tauto.
Qed.

(** When, on the vertices at hand, every crossing test reduces to the
    comparison of the two latitudes with [y], the loop computes a
    telescoping parity. *)
Lemma rayCast_parity (P : Coordinate N -> Prop) (x y : N) :
  (forall vi vj, P vi -> P vj ->
                 intersect x y vi vj = xorb (lat vi >? y) (lat vj >? y)) ->
  forall vs vj inside,
    Forall P vs -> P vj ->
    rayCast x y vj vs inside
    = xorb inside (xorb (lat vj >? y) (lat (last vs vj) >? y)).
Proof.
  intro Hall. induction vs as [|vi rest IH]; intros vj inside Hvs Hvj.
  - simpl. now rewrite xorb_nilpotent, xorb_false_r.
  - inversion Hvs as [|? ? Hvi Hrest]; subst.
    cbn [rayCast]. rewrite (IH vi _ Hrest Hvi), (Hall vi vj Hvi Hvj), last_cons.
    destruct (lat vi >? y), (lat vj >? y), (lat (last rest vi) >? y), inside;
      reflexivity.
Qed.

Lemma pointInDanger_app (zs more : list (FloodZone N)) (p : Coordinate N) :
  pointInDanger zs p = true -> pointInDanger (zs ++ more) p = true.
Proof.
  unfold pointInDanger. rewrite existsb_app. intros ->. reflexivity.
Qed.

Lemma relevantZones_app (route : list (Coordinate N)) (zs more : list (FloodZone N)) :
  relevantZones route (zs ++ more) = relevantZones route zs ++ relevantZones route more.
Proof. unfold relevantZones. apply filter_app. Qed.

(** The score counts the sample points that lie in a zone that passed the
    prefilter. *)
Lemma score_count (route : list (Coordinate N)) (zones : list (FloodZone N)) :
  calculateRouteHazardScore route zones
  = List.length (filter (pointInDanger (relevantZones route zones)) route).
Proof.
  unfold calculateRouteHazardScore.
  destruct (relevantZones route zones) as [|z zs] eqn:Hrel.
  - symmetry. apply length_zero_iff_nil. clear Hrel.
    induction route as [|p route IH]; [reflexivity|]. simpl. exact IH.
  - now rewrite count_fold.
Qed.

Lemma pointInDanger_relevant (route : list (Coordinate N)) (zones : list (FloodZone N))
      (p : Coordinate N) :
  pointInDanger (relevantZones route zones) p = true -> pointInDanger zones p = true.
Proof.
  unfold pointInDanger, relevantZones. rewrite !existsb_exists.
  intros (z & Hz & Hp). apply filter_In in Hz. exists z. tauto.
Qed.

Lemma score_le_all (route : list (Coordinate N)) (zones : list (FloodZone N)) :
  calculateRouteHazardScore route zones
  <= List.length (filter (pointInDanger zones) route).
Proof.
  rewrite score_count. apply filter_length_mono.
  intros p _. apply pointInDanger_relevant.
Qed.

Lemma score_le_length (route : list (Coordinate N)) (zones : list (FloodZone N)) :
  calculateRouteHazardScore route zones <= List.length route.
Proof.
  rewrite score_count. apply filter_length_le.
Qed.

Lemma score_monotone (route : list (Coordinate N)) (zones more : list (FloodZone N)) :
  calculateRouteHazardScore route zones
  <= calculateRouteHazardScore route (zones ++ more).
Proof.
  rewrite !score_count, relevantZones_app.
  apply filter_length_mono. intros p _. apply pointInDanger_app.
Qed.

(** The monitor's test never reports a route that has no sample point in
    the polygon. *)
Lemma intersect_sound (route : list (Coordinate N)) (zone : FloodZone N) :
  doesRouteIntersectFlood route zone = true ->
  existsb (fun p => isPointInPolygon p (polygon zone)) route = true.
Proof.
  unfold doesRouteIntersectFlood.
  destruct (bboxDisjoint _ _); [discriminate|].
  rewrite !existsb_exists. intros (p & Hp & Hin).
  apply andb_true_iff in Hin. exists p. tauto.
Qed.

End RayCastFacts.

(* ================================================================== *)
(** * 17. The ray-casting test in exact arithmetic *)
(* ================================================================== *)

Module ExactFacts.

Import Exact.
Local Open Scope Q_scope.

Lemma qltb_true (a b : Q) : qltb a b = true <-> a < b.
Proof.
  unfold qltb. rewrite negb_true_iff. split.
  - intro Hb. apply Qnot_le_lt. intro Hle.
    apply Qle_bool_iff in Hle. congruence.
  - intro Hlt. destruct (Qle_bool b a) eqn:E; [|reflexivity].
    apply Qle_bool_iff in E. exfalso. exact (Qlt_not_le _ _ Hlt E).
Qed.

Lemma qltb_false (a b : Q) : qltb a b = false <-> b <= a.
Proof.
  unfold qltb. rewrite negb_false_iff. apply Qle_bool_iff.
Qed.

Lemma qltb_cases (a b : Q) :
  (qltb a b = true /\ a < b) \/ (qltb a b = false /\ b <= a).
Proof.
  destruct (qltb a b) eqn:E; [left | right]; split; auto.
  - now apply qltb_true.
  - now apply qltb_false.
Qed.

Lemma straddles_cases (y yi yj : Q) :
  straddles y yi yj = true ->
  (y < yi /\ yj <= y) \/ (yi <= y /\ y < yj).
Proof.
  unfold straddles.
  destruct (qltb_cases y yi) as [[-> Hi]|[-> Hi]],
           (qltb_cases y yj) as [[-> Hj]|[-> Hj]]; simpl; try discriminate; auto.
Qed.

Lemma straddles_apart (y yi yj : Q) :
  straddles y yi yj = true -> ~ yj - yi == 0.
Proof.
  intros Hs Heq. apply straddles_cases in Hs. lra.
Qed.

Lemma intersect_exact (x y : Q) (vi vj : Coordinate Q) :
  intersect (N:=exact) (Fin x) (Fin y) (coordinateOf vi) (coordinateOf vj)
  = straddles y (lat vi) (lat vj) && qltb x (crossing y vi vj).
Proof.
  unfold intersect, coordinateOf, straddles, crossing. cbn.
  destruct (xorb (qltb y (lat vi)) (qltb y (lat vj))) eqn:Hs; [|reflexivity].
  cbn. apply straddles_apart in Hs.
  destruct (Qeq_bool (lat vj + - lat vi) 0) eqn:E.
  - apply Qeq_bool_iff in E. exfalso. apply Hs. exact E.
  - reflexivity.
Qed.

(** The crossing abscissa lies between the abscissae of the two ends. *)
Lemma crossing_between (y : Q) (vi vj : Coordinate Q) :
  straddles y (lat vi) (lat vj) = true ->
  Qmin (lng vi) (lng vj) <= crossing y vi vj <= Qmax (lng vi) (lng vj).
Proof.
  intro Hs. assert (Hd := Hs). apply straddles_apart in Hd.
  apply straddles_cases in Hs.
  set (t := (y - lat vi) / (lat vj - lat vi)).
  assert (Ht : 0 <= t <= 1).
  { unfold t. destruct Hs as [[H1 H2]|[H1 H2]].
    - setoid_replace ((y - lat vi) / (lat vj - lat vi))
        with ((lat vi - y) / (lat vi - lat vj)) by (field; lra).
      split.
      + apply Qle_shift_div_l; lra.
      + apply Qle_shift_div_r; lra.
    - split.
      + apply Qle_shift_div_l; lra.
      + apply Qle_shift_div_r; lra. }
  assert (Hc : crossing y vi vj == lng vi + (lng vj - lng vi) * t).
  { unfold crossing, t. field. exact Hd. }
  rewrite Hc.
  destruct (Qlt_le_dec (lng vi) (lng vj)) as [Hlt|Hle].
  - rewrite Q.min_l, Q.max_r by lra.
    assert (0 <= (lng vj - lng vi) * t) by (apply Qmult_le_0_compat; lra).
    assert (0 <= (lng vj - lng vi) * (1 - t)) by (apply Qmult_le_0_compat; lra).
    lra.
  - rewrite Q.min_r, Q.max_l by lra.
    assert (0 <= (lng vi - lng vj) * t) by (apply Qmult_le_0_compat; lra).
    assert (0 <= (lng vi - lng vj) * (1 - t)) by (apply Qmult_le_0_compat; lra).
    lra.
Qed.

(** A crossed edge has a vertex on each side in latitude and a vertex to
    the right. *)
Lemma crossed_edge (x y : Q) (vi vj : Coordinate Q) :
  intersect (N:=exact) (Fin x) (Fin y) (coordinateOf vi) (coordinateOf vj) = true ->
  (lat vi <= y \/ lat vj <= y) /\ (y <= lat vi \/ y <= lat vj)
  /\ (x <= lng vi \/ x <= lng vj).
Proof.
  rewrite intersect_exact. intro Hi. apply andb_true_iff in Hi as [Hs Hx].
  destruct (@crossing_between y vi vj Hs) as [_ Hmax].
  apply qltb_true in Hx. apply straddles_cases in Hs.
  repeat split.
  - lra.
  - lra.
  - destruct (Q.max_spec (lng vi) (lng vj)) as [[_ E]|[_ E]]; rewrite E in Hmax; lra.
Qed.

(** Left of both ends, the crossing test is the comparison of latitudes. *)
Lemma left_of_edge (x y : Q) (vi vj : Coordinate Q) :
  x < lng vi -> x < lng vj ->
  intersect (N:=exact) (Fin x) (Fin y) (coordinateOf vi) (coordinateOf vj)
  = xorb (nltb (Fin y) (lat (coordinateOf (N:=exact) vi)))
         (nltb (Fin y) (lat (coordinateOf (N:=exact) vj))).
Proof.
  intros Hi Hj. rewrite intersect_exact. cbn. fold (straddles y (lat vi) (lat vj)).
  destruct (straddles y (lat vi) (lat vj)) eqn:Hs; [|reflexivity].
  destruct (@crossing_between y vi vj Hs) as [Hmin _].
  simpl. apply qltb_true.
  destruct (Q.min_spec (lng vi) (lng vj)) as [[_ E]|[_ E]]; rewrite E in Hmin; lra.
Qed.

(** ** Bounding boxes *)

Lemma fold_min_Fin (l : list Q) (a : Q) :
  exists m, fold_left min (map Fin l) (Fin a) = Fin m
            /\ m <= a /\ forall x, In x l -> m <= x.
Proof.
  revert a. induction l as [|b l IH]; intro a; simpl.
  - exists a. repeat split; [lra | contradiction].
  - unfold min at 2. simpl.
    destruct (qltb_cases b a) as [[-> Hlt]|[-> Hle]].
    + destruct (IH b) as (m & E & Hm & Hall). exists m. repeat split; auto; [lra|].
      intros x [<-|Hx]; auto.
    + destruct (IH a) as (m & E & Hm & Hall). exists m. repeat split; auto.
      intros x [<-|Hx]; [lra | auto].
Qed.

Lemma fold_max_Fin (l : list Q) (a : Q) :
  exists m, fold_left max (map Fin l) (Fin a) = Fin m
            /\ a <= m /\ forall x, In x l -> x <= m.
Proof.
  revert a. induction l as [|b l IH]; intro a; simpl.
  - exists a. repeat split; [lra | contradiction].
  - unfold max at 2. simpl.
    destruct (qltb_cases a b) as [[-> Hlt]|[-> Hle]].
    + destruct (IH b) as (m & E & Hm & Hall). exists m. repeat split; auto; [lra|].
      intros x [<-|Hx]; auto.
    + destruct (IH a) as (m & E & Hm & Hall). exists m. repeat split; auto.
      intros x [<-|Hx]; [lra | auto].
Qed.

Lemma mathMin_Fin (l : list Q) (x : Q) :
  In x l -> exists m, mathMin (N:=exact) (map Fin l) = Fin m /\ m <= x.
Proof.
  unfold mathMin. destruct l as [|b l]; [contradiction|]. intro Hx. cbn.
  destruct (fold_min_Fin l b) as (m & E & Hm & Hall).
  exists m. split; [exact E|]. destruct Hx as [<-|Hx]; auto.
Qed.

Lemma mathMax_Fin (l : list Q) (x : Q) :
  In x l -> exists m, mathMax (N:=exact) (map Fin l) = Fin m /\ x <= m.
Proof.
  unfold mathMax. destruct l as [|b l]; [contradiction|]. intro Hx. cbn.
  destruct (fold_max_Fin l b) as (m & E & Hm & Hall).
  exists m. split; [exact E|]. destruct Hx as [<-|Hx]; auto.
Qed.

Lemma lats_of (vs : list (Coordinate Q)) :
  map (@lat exact) (map coordinateOf vs) = map Fin (map (@lat Q) vs).
Proof. rewrite !map_map. reflexivity. Qed.

Lemma lngs_of (vs : list (Coordinate Q)) :
  map (@lng exact) (map coordinateOf vs) = map Fin (map (@lng Q) vs).
Proof. rewrite !map_map. reflexivity. Qed.

Lemma box_bounds (p : Coordinate Q) (vs : list (Coordinate Q)) :
  inBox p vs ->
  exists a b c d,
    boundsOf (N:=exact) (map coordinateOf vs)
    = {| minLat := Fin a; maxLat := Fin b; minLng := Fin c; maxLng := Fin d |}
    /\ a <= lat p <= b /\ c <= lng p <= d.
Proof.
  intros ((v1 & I1 & H1) & (v2 & I2 & H2) & (v3 & I3 & H3) & (v4 & I4 & H4)).
  unfold boundsOf. rewrite lats_of, lngs_of.
  destruct (mathMin_Fin (map (@lat Q) vs) (lat v1)) as (a & Ea & Ha);
    [now apply in_map|].
  destruct (mathMax_Fin (map (@lat Q) vs) (lat v2)) as (b & Eb & Hb);
    [now apply in_map|].
  destruct (mathMin_Fin (map (@lng Q) vs) (lng v3)) as (c & Ec & Hc);
    [now apply in_map|].
  destruct (mathMax_Fin (map (@lng Q) vs) (lng v4)) as (d & Ed & Hd);
    [now apply in_map|].
  exists a, b, c, d. rewrite Ea, Eb, Ec, Ed. repeat split; lra.
Qed.

Lemma inBox_self (p : Coordinate Q) (route : list (Coordinate Q)) :
  In p route -> inBox p route.
Proof.
  intro Hp. repeat split; exists p; split; auto; lra.
Qed.

(** Two boxes that share a point are not disjoint. *)
Lemma boxes_meet (p : Coordinate Q) (route vs : list (Coordinate Q)) :
  In p route -> inBox p vs ->
  bboxDisjoint (N:=exact) (boundsOf (map coordinateOf route))
               (boundsOf (map coordinateOf vs)) = false.
Proof.
  intros Hp Hbox.
  destruct (@box_bounds p route (@inBox_self p route Hp)) as (a & b & c & d & Er & Hlat & Hlng).
  destruct (@box_bounds p vs Hbox) as (a' & b' & c' & d' & Ez & Hlat' & Hlng').
  rewrite Er, Ez. unfold bboxDisjoint. cbn.
  repeat rewrite orb_false_iff. repeat split; apply qltb_false; lra.
Qed.

(** A point of the box passes the filter of the narrow phase. *)
Lemma box_withinMargin (p : Coordinate Q) (vs : list (Coordinate Q)) :
  inBox p vs ->
  withinMargin (N:=exact) (boundsOf (map coordinateOf vs)) (coordinateOf p) = true.
Proof.
  intro Hbox.
  destruct (@box_bounds p vs Hbox) as (a & b & c & d & Ez & Hlat & Hlng).
  rewrite Ez. unfold withinMargin, margin. cbn.
  repeat rewrite andb_true_iff. repeat split; apply Qle_bool_iff; lra.
Qed.

(** ** Points reported inside lie in the bounding box *)

Lemma qltb_compat (a a' b b' : Q) :
  a == a' -> b == b' -> qltb a b = qltb a' b'.
Proof.
  intros Ha Hb.
  destruct (qltb_cases a b) as [[-> H1]|[-> H1]];
    destruct (qltb_cases a' b') as [[-> H2]|[-> H2]]; auto; lra.
Qed.

Lemma inside_box (p : Coordinate Q) (vs : list (Coordinate Q)) :
  isPointInPolygon (N:=exact) (coordinateOf p) (map coordinateOf vs) = true ->
  inBox p vs.
Proof.
  destruct vs as [|v0 vs']; [discriminate|].
  set (vs := v0 :: vs'). intro Hin.
  change (rayCast (N:=exact) (Fin (lng p)) (Fin (lat p))
                  (last (map coordinateOf vs) (coordinateOf v0))
                  (map coordinateOf vs) false = true) in Hin.
  assert (Hne : map (coordinateOf (N:=exact)) vs <> []) by discriminate.
  set (vj0 := last (map (coordinateOf (N:=exact)) vs) (coordinateOf v0)) in *.
  assert (Hvj0 : exists v, In v vs /\ vj0 = coordinateOf v).
  { pose proof (last_in (coordinateOf v0) Hne) as Hl. fold vj0 in Hl.
    apply in_map_iff in Hl as (v & <- & Hv). now exists v. }
  destruct (rayCast_crossed _ _ _ _ Hin) as (vi' & vj' & Hi & Hj & Hx).
  apply in_map_iff in Hi as (vi & <- & Hvi).
  assert (Hj' : exists vj, In vj vs /\ vj' = coordinateOf vj).
  { destruct Hj as [<-|Hj]; [exact Hvj0|].
    apply in_map_iff in Hj as (vj & <- & Hvj). now exists vj. }
  destruct Hj' as (vj & Hvj & ->).
  apply crossed_edge in Hx as (Hlo & Hhi & Hright).
  repeat split.
  - destruct Hlo; [exists vi | exists vj]; auto.
  - destruct Hhi; [exists vi | exists vj]; auto.
  - destruct (existsb (fun v => Qle_bool (lng v) (lng p)) vs) eqn:E.
    + apply existsb_exists in E as (v & Hv & Hle).
      apply Qle_bool_iff in Hle. now exists v.
    + exfalso.
      assert (Hleft : forall v, In v vs -> lng p < lng v).
      { intros v Hv. apply qltb_true. unfold qltb.
        destruct (Qle_bool (lng v) (lng p)) eqn:Hle; [|reflexivity].
        assert (Hex : existsb (fun v => Qle_bool (lng v) (lng p)) vs = true)
          by (apply existsb_exists; now exists v).
        congruence. }
      pose (P := fun c : Coordinate exact => exists v, In v vs /\ c = coordinateOf v).
      assert (Hpar := @rayCast_parity exact _ P (Fin (lng p)) (Fin (lat p))).
      rewrite Hpar in Hin.
      * unfold vj0 in Hin. rewrite last_last_default in Hin by exact Hne.
        rewrite xorb_nilpotent in Hin. discriminate.
      * intros a b (va & Hva & ->) (vb & Hvb & ->).
        apply left_of_edge; auto.
      * apply Forall_forall. intros c Hc.
        apply in_map_iff in Hc as (v & <- & Hv). now exists v.
      * exact Hvj0.
  - destruct Hright; [exists vi | exists vj]; auto.
Qed.

(** The crossing abscissa does not depend on the direction in which the
    edge is taken. *)
Lemma crossing_sym (y : Q) (a b : Coordinate Q) :
  ~ lat b - lat a == 0 -> crossing y a b == crossing y b a.
Proof.
  intro Hd. unfold crossing. field. split; lra.
Qed.

Lemma two_vertices (p a b : Coordinate Q) :
  isPointInPolygon (N:=exact) (coordinateOf p) [coordinateOf a; coordinateOf b] = false.
Proof.
  rewrite isPointInPolygon_two. cbn [lat lng coordinateOf].
  change (Fin (lng p)) with (ofQ (N:=exact) (lng p)).
  change (Fin (lat p)) with (ofQ (N:=exact) (lat p)).
  cbn [ofQ number].
  rewrite !intersect_exact.
  replace (straddles (lat p) (lat b) (lat a)) with (straddles (lat p) (lat a) (lat b))
    by apply xorb_comm.
  destruct (straddles (lat p) (lat a) (lat b)) eqn:Hs; [|reflexivity].
  simpl. apply straddles_apart in Hs.
  rewrite (@qltb_compat _ _ _ _ (Qeq_refl (lng p)) (@crossing_sym (lat p) a b Hs)).
  apply xorb_nilpotent.
Qed.

Lemma degenerate_exact (p : Coordinate Q) (vs : list (Coordinate Q)) :
  (List.length vs < 3)%nat ->
  isPointInPolygon (N:=exact) (coordinateOf p) (map coordinateOf vs) = false.
Proof.
  destruct vs as [|a [|b [|c vs]]]; simpl List.length; intro Hlen.
  - reflexivity.
  - apply isPointInPolygon_one.
  - apply two_vertices.
  - lia.
Qed.

(** ** The two hazard tests against the plain point-in-polygon test *)

Lemma intersects_exact (route : list (Coordinate Q)) (zone : FloodZone Q) :
  doesRouteIntersectFlood (N:=exact) (map coordinateOf route) (zoneOf zone)
  = existsb (fun p => isPointInPolygon p (polygon (zoneOf (N:=exact) zone)))
            (map coordinateOf route).
Proof.
  unfold doesRouteIntersectFlood. cbn [polygon zoneOf].
  destruct (bboxDisjoint _ _) eqn:D.
  - symmetry. apply not_true_is_false. intro E.
    apply existsb_exists in E as (p' & Hp' & Hin).
    apply in_map_iff in Hp' as (p & <- & Hp).
    rewrite (@boxes_meet p route _ Hp (@inside_box p _ Hin)) in D. discriminate.
  - apply existsb_ext_in. intros p' Hp'.
    apply in_map_iff in Hp' as (p & <- & Hp).
    destruct (isPointInPolygon (coordinateOf p) (map coordinateOf (polygon zone))) eqn:Hin.
    + now rewrite (@box_withinMargin p _ (@inside_box p _ Hin)).
    + apply andb_false_r.
Qed.

Lemma score_exact (route : list (Coordinate Q)) (zones : list (FloodZone Q)) :
  calculateRouteHazardScore (N:=exact) (map coordinateOf route) (map zoneOf zones)
  = List.length (filter (pointInDanger (map (zoneOf (N:=exact)) zones))
                        (map coordinateOf route)).
Proof.
  rewrite score_count. apply filter_length_ext. intros p' Hp'.
  apply in_map_iff in Hp' as (p & <- & Hp).
  unfold pointInDanger, relevantZones. apply existsb_filter.
  intros z' Hz' Hin. apply in_map_iff in Hz' as (z & <- & Hz).
  cbn [polygon zoneOf] in *.
  now rewrite (@boxes_meet p route _ Hp (@inside_box p _ Hin)).
Qed.

End ExactFacts.

(* ================================================================== *)
(** * 18. Point-in-polygon and the hazard tests: the stated properties *)
(* ================================================================== *)

(** In binary64 the two-vertex polygon [segment] contains [onSegment]:
    the edge taken from (0,0) crosses at [1/3 = 0.33333333333333331], which
    is not to the right of the point, and taken from (3,1) it crosses at
    [-2/3 + 1 = 0.33333333333333337], which is. *)
Lemma two_vertex_polygon_contains_a_point :
  (List.length segment < 3)%nat
  /\ isPointInPolygon (N:=float) (coordinateOf onSegment) (map coordinateOf segment) = true.
Proof. split; [simpl; lia | vm_compute; reflexivity]. Qed.

(** C10 (amended).  On the empty and the one-vertex polygon
    [isPointInPolygon] is false for every point, in any arithmetic.  On a
    two-vertex polygon [[a; b]] it is the exclusive-or of the crossing test
    of the edge taken from [a] and taken from [b].  In exact arithmetic the
    two tests agree, so a polygon of fewer than 3 vertices contains no
    point, a zone with such a polygon adds nothing to a hazard score and
    never makes a route intersect. *)
Theorem degenerate_polygon_contains_nothing :
  (forall (N : Type) (HN : Number N) (p : Coordinate N) (vs : list (Coordinate N)),
      (List.length vs < 2)%nat -> isPointInPolygon p vs = false)
  /\ (forall (N : Type) (HN : Number N) (p a b : Coordinate N),
         isPointInPolygon p [a; b]
         = xorb (intersect (lng p) (lat p) a b) (intersect (lng p) (lat p) b a))
  /\ (forall (p : Coordinate Q) (vs : list (Coordinate Q)),
         (List.length vs < 3)%nat ->
         isPointInPolygon (N:=exact) (coordinateOf p) (map coordinateOf vs) = false)
  /\ (forall (route : list (Coordinate Q)) (zones : list (FloodZone Q)),
         (forall z, In z zones -> (List.length (polygon z) < 3)%nat) ->
         calculateRouteHazardScore (N:=exact) (map coordinateOf route) (map zoneOf zones) = 0
         /\ (forall z, In z zones ->
                       doesRouteIntersectFlood (N:=exact) (map coordinateOf route) (zoneOf z)
                       = false)).
Proof.
  split; [|split; [|split]].
  - intros N HN p [|v [|w vs]] Hlen; simpl in Hlen.
    + reflexivity.
    + apply isPointInPolygon_one.
    + lia.
  - intros. apply isPointInPolygon_two.
  - exact ExactFacts.degenerate_exact.
  - intros route zones Hdeg.
    assert (Hnone : forall z p, In z zones -> In p route ->
                      isPointInPolygon (N:=exact) (coordinateOf p)
                                       (polygon (zoneOf (N:=exact) z)) = false).
    { intros z p Hz _. cbn [polygon zoneOf]. apply ExactFacts.degenerate_exact. auto. }
    split.
    + rewrite ExactFacts.score_exact. apply length_zero_iff_nil.
      induction route as [|p route IH]; [reflexivity|].
      cbn [map filter].
      assert (Hp : pointInDanger (map (zoneOf (N:=exact)) zones) (coordinateOf p) = false).
      { unfold pointInDanger. apply not_true_is_false. intro E.
        apply existsb_exists in E as (z' & Hz' & Hin).
        apply in_map_iff in Hz' as (z & <- & Hz).
        rewrite (Hnone z p Hz (or_introl eq_refl)) in Hin. discriminate. }
      rewrite Hp. apply IH. intros z q Hz Hq. apply Hnone; [exact Hz | now right].
    + intros z Hz. rewrite ExactFacts.intersects_exact.
      apply not_true_is_false. intro E.
      apply existsb_exists in E as (p' & Hp' & Hin).
      apply in_map_iff in Hp' as (p & <- & Hp).
      rewrite (Hnone z p Hz Hp) in Hin. discriminate.
Qed.

(** The two-vertex polygon [segment] and the point [onSegment], in exact
    arithmetic. *)
Lemma degenerate_polygon_witness :
  isPointInPolygon (N:=exact) (coordinateOf onSegment) (map coordinateOf segment) = false
  /\ calculateRouteHazardScore (N:=exact) (map coordinateOf [onSegment])
                               (map zoneOf [qzone segment]) = 0.
Proof.
  destruct degenerate_polygon_contains_nothing as (_ & _ & Hp & Hz).
  split.
  - apply Hp. simpl. lia.
  - apply (Hz [onSegment] [qzone segment]).
    intros z [<-|[]]. simpl. lia.
Defined.

(** In binary64 the point [besideSliver] lies to the right of every vertex
    of [sliver], so the bounding boxes are disjoint, and yet the ray-casting
    test reports it inside: the crossing abscissa of the edge from (-1,-1)
    to (2^-60, 3 * 2^-54) is computed as [((3 * 2^-54 + 1) * 1) / 1 - 1],
    where [3 * 2^-54 + 1] rounds up to [1 + 2^-52]; the result [2^-52] is to
    the right of the point's longitude [7 * 2^-55]. *)
Lemma prefilter_drops_a_counted_point :
  calculateRouteHazardScore (N:=float) (map coordinateOf [besideSliver])
                            (map zoneOf [qzone sliver]) = 0
  /\ List.length (filter (pointInDanger (map (zoneOf (N:=float)) [qzone sliver]))
                         (map coordinateOf [besideSliver])) = 1.
Proof. split; vm_compute; reflexivity. Qed.

(** C3 (amended).  In any arithmetic the score is the number of sample
    points inside at least one zone that passes the bounding-box prefilter,
    each point counted once; it is at most the number of sample points inside
    at least one zone, and it does not decrease when zones are appended.  In
    exact arithmetic the prefilter changes nothing: the score is the number
    of sample points inside at least one zone, hence 0 exactly when no
    sample point is inside a zone. *)
Theorem hazard_score_counts_points_in_danger :
  (forall (N : Type) (HN : Number N) (route : list (Coordinate N))
          (zones more : list (FloodZone N)),
      calculateRouteHazardScore route zones
      = List.length (filter (pointInDanger (relevantZones route zones)) route)
      /\ calculateRouteHazardScore route zones
         <= List.length (filter (pointInDanger zones) route)
      /\ List.length (filter (pointInDanger zones) route) <= List.length route
      /\ calculateRouteHazardScore route zones
         <= calculateRouteHazardScore route (zones ++ more))
  /\ (forall (route : list (Coordinate Q)) (zones : list (FloodZone Q)),
         calculateRouteHazardScore (N:=exact) (map coordinateOf route) (map zoneOf zones)
         = List.length (filter (pointInDanger (map (zoneOf (N:=exact)) zones))
                               (map coordinateOf route))
         /\ (calculateRouteHazardScore (N:=exact) (map coordinateOf route)
                                       (map zoneOf zones) =? 0)%nat
            = negb (existsb (pointInDanger (map (zoneOf (N:=exact)) zones))
                            (map coordinateOf route))).
Proof.
  split.
  - intros N HN route zones more. repeat split.
    + apply score_count.
    + apply score_le_all.
    + apply filter_length_le.
    + apply score_monotone.
  - intros route zones. rewrite ExactFacts.score_exact. split; [reflexivity|].
    apply filter_none.
Qed.

(** In binary64 the route [[besideSliver]] has a sample point that
    [isPointInPolygon] puts inside [sliver], and [doesRouteIntersectFlood]
    answers [false]: the broad phase has rejected the zone. *)
Lemma broad_phase_false_negative :
  doesRouteIntersectFlood (N:=float) (map coordinateOf [besideSliver])
                          (zoneOf (qzone sliver)) = false
  /\ existsb (fun p => isPointInPolygon p (polygon (zoneOf (N:=float) (qzone sliver))))
             (map coordinateOf [besideSliver]) = true.
Proof. split; vm_compute; reflexivity. Qed.

(** C4 (amended).  In any arithmetic [doesRouteIntersectFlood] answers
    [true] only if some sample point is inside the polygon.  In exact
    arithmetic it answers [true] exactly when some sample point is inside the
    polygon: neither the broad phase nor the margin filter loses a point. *)
Theorem route_intersection_is_point_test :
  (forall (N : Type) (HN : Number N) (route : list (Coordinate N)) (zone : FloodZone N),
      implb (doesRouteIntersectFlood route zone)
            (existsb (fun p => isPointInPolygon p (polygon zone)) route) = true)
  /\ (forall (route : list (Coordinate Q)) (zone : FloodZone Q),
         doesRouteIntersectFlood (N:=exact) (map coordinateOf route) (zoneOf zone)
         = existsb (fun p => isPointInPolygon p (polygon (zoneOf (N:=exact) zone)))
                   (map coordinateOf route)).
Proof.
  split.
  - intros N HN route zone.
    destruct (doesRouteIntersectFlood route zone) eqn:E; [|reflexivity].
    simpl. now apply intersect_sound.
  - exact ExactFacts.intersects_exact.
Qed.

(* ================================================================== *)
(** * 19. The location smoother *)
(* ================================================================== *)

Section SmootherFacts.

Context {N : Type} `{Number N}.
Local Open Scope js_scope.

Lemma smoothAll_seeded (a b : N) (fixes : list (N * N)) :
  smoothAll {| lastLat := Some a; lastLng := Some b |} fixes
  = lowPass {| lat := a; lng := b |} fixes.
Proof.
  revert a b. induction fixes as [|[rawLat rawLng] rest IH]; intros a b.
  - reflexivity.
  - cbn [smoothAll smooth lastLat lastLng lowPass lat lng]. now rewrite IH.
Qed.

Lemma smoothAll_lowPassFilter (fixes : list (N * N)) :
  smoothAll newLocationSmoother fixes = lowPassFilter fixes.
Proof.
  destruct fixes as [|[rawLat rawLng] rest]; [reflexivity|].
  cbn [smoothAll smooth newLocationSmoother lastLat lastLng lowPassFilter].
  now rewrite smoothAll_seeded.
Qed.

Lemma lowPass_constant (x y : N) (n : nat) :
  fixedPoint x -> fixedPoint y ->
  forall previous, near x y previous = true ->
                   forallb (near x y) (lowPass previous (repeat (x, y) n)) = true.
Proof.
  intros [_ Hx] [_ Hy]. induction n as [|n IH]; intros previous Hnear; [reflexivity|].
  apply andb_true_iff in Hnear as [Hlat Hlng].
  cbn [repeat lowPass forallb].
  assert (Hnext : near x y
            {| lat := lat previous + alpha * (x - lat previous);
               lng := lng previous + alpha * (y - lng previous) |} = true).
  { unfold near. cbn [lat lng]. now rewrite Hx, Hy. }
  rewrite Hnext. simpl. now apply IH.
Qed.

Lemma constant_input_is_fixed (x y : N) (n : nat) :
  fixedPoint x -> fixedPoint y ->
  forallb (near x y) (smoothAll newLocationSmoother (repeat (x, y) n)) = true.
Proof.
  intros Hx Hy. rewrite smoothAll_lowPassFilter.
  destruct n as [|n]; [reflexivity|].
  cbn [repeat lowPassFilter forallb].
  assert (Hseed : near x y {| lat := x; lng := y |} = true).
  { unfold near. cbn [lat lng]. destruct Hx as [-> _], Hy as [-> _]. reflexivity. }
  rewrite Hseed. simpl. now apply lowPass_constant.
Qed.

End SmootherFacts.

(** ** Exact arithmetic *)

Lemma exact_fixedPoint (x : Q) : fixedPoint (N:=exact) (Fin x).
Proof.
  split.
  - cbn. apply Qeq_bool_iff. reflexivity.
  - intros [s| | |] Hs; cbn in Hs; try discriminate.
    apply Qeq_bool_iff in Hs. cbn. apply Qeq_bool_iff.
    rewrite Hs. ring.
Qed.

Lemma exact_move (previous raw : Q) :
  neqb (N:=exact)
       (nsub (nadd (Fin previous) (nmul alpha (nsub (Fin raw) (Fin previous))))
             (Fin previous))
       (nmul (ofQ (3 # 10)) (nsub (Fin raw) (Fin previous))) = true.
Proof.
  cbn. apply Qeq_bool_iff. ring.
Qed.

(** ** Binary64 *)

Module FloatFacts.

Lemma finite_cases (x : float) :
  JSFloat.isFinite x = true ->
  (exists s, Prim2SF x = S754_zero s) \/ (exists s m e, Prim2SF x = S754_finite s m e).
Proof.
  unfold JSFloat.isFinite, Prim2SF.
  destruct (is_nan x); [discriminate|].
  destruct (is_infinity x); [discriminate|]. intros _.
  destruct (is_zero x); [left; eauto|].
  destruct (Z.frexp x) as [r ex].
  destruct (shr_fexp _ _ _ _ _) as [mrs e'].
  destruct (shr_m mrs); [left | right | left]; eauto.
Qed.

Lemma SFeqb_finite (s s' : bool) (m m' : positive) (e e' : Z) :
  SFeqb (S754_finite s m e) (S754_finite s' m' e') = true ->
  S754_finite s m e = S754_finite s' m' e'.
Proof.
  unfold SFeqb, SFcompare.
  destruct s, s'; try discriminate;
    destruct (Z.compare e e') eqn:He; try discriminate;
    apply Z.compare_eq in He; subst;
    destruct (Pos.compare_cont Eq m m') eqn:Hm; try discriminate;
    apply Pos.compare_eq in Hm; subst; reflexivity.
Qed.

Lemma SFsub_self (s : bool) (m : positive) (e : Z) :
  SF64sub (S754_finite s m e) (S754_finite s m e) = S754_zero false.
Proof.
  unfold SF64sub, SFsub. rewrite Z.sub_diag. reflexivity.
Qed.

Lemma SFeqb_refl_finite (s : bool) (m : positive) (e : Z) :
  SFeqb (S754_finite s m e) (S754_finite s m e) = true.
Proof.
  unfold SFeqb, SFcompare.
  destruct s; rewrite Z.compare_refl, Pos.compare_cont_refl; reflexivity.
Qed.

Lemma alpha_SF : Prim2SF (alpha (N:=float)) = S754_finite false 5404319552844595 (-54).
Proof. vm_compute. reflexivity. Qed.

(** Every finite double is a fixed point of one step of the filter. *)
Lemma float_fixedPoint (x : float) :
  JSFloat.isFinite x = true -> fixedPoint (N:=float) x.
Proof.
  intro Hfin. unfold fixedPoint. cbn [neqb nadd nmul nsub JSFloat.number].
  split.
  - rewrite FloatAxioms.eqb_spec.
    destruct (finite_cases x Hfin) as [[s ->]|(s & m & e & ->)];
      [reflexivity | apply SFeqb_refl_finite].
  - intros s0 Hs. rewrite FloatAxioms.eqb_spec in *.
    rewrite FloatAxioms.add_spec, FloatAxioms.mul_spec, FloatAxioms.sub_spec, alpha_SF.
    destruct (finite_cases x Hfin) as [[s Hx]|(s & m & e & Hx)]; rewrite Hx in *.
    + destruct (Prim2SF s0) as [s'|s'| |s' m' e']; cbn in Hs;
        try discriminate; try (destruct s'; discriminate).
      destruct s, s'; reflexivity.
    + destruct (Prim2SF s0) as [s'|s'| |s' m' e']; try discriminate;
        try (destruct s; discriminate); try (destruct s, s'; discriminate).
      apply SFeqb_finite in Hs. injection Hs as -> -> ->.
      rewrite SFsub_self. cbn. apply SFeqb_refl_finite.
Qed.

End FloatFacts.

(** Subtracting the previous output back is a further rounded operation:
    in binary64, from the previous output 1 the raw sample 2 gives the
    output [1 + 0.3 * (2 - 1) = 1.3], and [1.3 - 1] is 0.30000000000000004
    whereas [0.3 * (2 - 1)] is 0.29999999999999999. *)
Lemma smoothed_move_is_rounded :
  smoothAll (N:=float) newLocationSmoother [(ofQ 1, ofQ 1); (ofQ 2, ofQ 2)]
  = [ {| lat := ofQ 1; lng := ofQ 1 |}; {| lat := ofQ (13 # 10); lng := ofQ (13 # 10) |} ]
  /\ neqb (N:=float) (nsub (ofQ (13 # 10)) (ofQ 1)) (nmul (ofQ (3 # 10)) (nsub (ofQ 2) (ofQ 1)))
     = false.
Proof. split; vm_compute; reflexivity. Qed.

(** C9 (amended).  From a new smoother, the outputs of successive calls of
    [smooth] are those of the low-pass filter: the first fix unchanged, then
    [previous + 0.3 * (raw - previous)] on each axis, [previous] being the
    previous output, each operation being that of the arithmetic at hand
    (rounded, in binary64).  Feeding a constant pair of finite doubles
    leaves every output equal ([===]) to the constant; so it does in exact
    arithmetic.  In exact arithmetic the difference between the output and
    the previous one is exactly 0.3 of the delta. *)
Theorem smoother_is_low_pass_filter :
  (forall (N : Type) (HN : Number N) (fixes : list (N * N)),
      smoothAll newLocationSmoother fixes = lowPassFilter fixes)
  /\ (forall (x y : float) (n : nat),
         JSFloat.isFinite x = true -> JSFloat.isFinite y = true ->
         forallb (near x y) (smoothAll newLocationSmoother (repeat (x, y) n)) = true)
  /\ (forall (x y : Q) (n : nat),
         forallb (near (N:=exact) (Fin x) (Fin y))
                 (smoothAll newLocationSmoother (repeat (Fin x, Fin y) n)) = true)
  /\ (forall previous raw : Q,
         neqb (N:=exact)
              (nsub (nadd (Fin previous) (nmul alpha (nsub (Fin raw) (Fin previous))))
                    (Fin previous))
              (nmul (ofQ (3 # 10)) (nsub (Fin raw) (Fin previous))) = true).
Proof.
  split; [|split; [|split]].
  - intros. apply smoothAll_lowPassFilter.
  - intros x y n Hx Hy.
    apply constant_input_is_fixed; now apply FloatFacts.float_fixedPoint.
  - intros x y n. apply constant_input_is_fixed; apply exact_fixedPoint.
  - exact exact_move.
Qed.

(** The constant fix (16.3067, 80.4365), three times. *)
Lemma smoother_witness :
  forallb (near (N:=float) (ofQ (163067 # 10000)) (ofQ (804365 # 10000)))
          (smoothAll newLocationSmoother
                     (repeat (ofQ (163067 # 10000), ofQ (804365 # 10000)) 3)) = true.
Proof.
  destruct smoother_is_low_pass_filter as (_ & Hfloat & _).
  apply Hfloat; vm_compute; reflexivity.
Defined.

(* ================================================================== *)
(** * 20. The breadcrumb trail *)
(* ================================================================== *)

Section TrailFacts.

Context {N : Type} `{Number N} `{Sqrt N} `{Trig N}.
Local Open Scope js_scope.

Lemma trailAfterTick_length (currentPos : Coordinate N) (prev : list (Coordinate N)) :
  List.length (trailAfterTick currentPos prev) <= 50.
Proof.
  unfold trailAfterTick. rewrite length_app. simpl.
  pose proof (sliceLast_length 49 prev). lia.
Qed.

Lemma lastOf_nil_iff {A} (prev : list A) : lastOf prev = None <-> prev = [].
Proof.
  unfold lastOf. split.
  - intro Hn. apply nth_error_None in Hn.
    destruct prev; [reflexivity | simpl in Hn; lia].
  - intros ->. reflexivity.
Qed.

(** What the position handler does to the trail. *)
Lemma trailAfterFix_cases (newLoc : Coordinate N) (prev : list (Coordinate N)) :
  (trailAfterFix newLoc prev = prev
   /\ exists last_, lastOf prev = Some last_
                    /\ (haversineDistance last_ newLoc >? ofQ 5) = false)
  \/ (trailAfterFix newLoc prev = sliceLast 49 prev ++ [newLoc]
      /\ (prev = []
          \/ exists last_, lastOf prev = Some last_
                           /\ (haversineDistance last_ newLoc >? ofQ 5) = true)).
Proof.
  unfold trailAfterFix. destruct (lastOf prev) as [last_|] eqn:Hlast.
  - destruct (haversineDistance last_ newLoc >? ofQ 5) eqn:Hd.
    + right. split; [reflexivity|]. right. now exists last_.
    + left. split; [reflexivity|]. now exists last_.
  - right. split; [reflexivity|]. left. now apply lastOf_nil_iff.
Qed.

Lemma trailStep_length (prev : list (Coordinate N)) (e : TrailEvent N) :
  List.length prev <= 50 -> List.length (trailStep prev e) <= 50.
Proof.
  intro Hlen. destruct e as [newLoc|currentPos]; cbn [trailStep].
  - destruct (trailAfterFix_cases newLoc prev) as [[-> _]|[-> _]]; [exact Hlen|].
    apply trailAfterTick_length.
  - apply trailAfterTick_length.
Qed.

Lemma trail_length (events : list (TrailEvent N)) (prev : list (Coordinate N)) :
  List.length prev <= 50 -> List.length (fold_left trailStep events prev) <= 50.
Proof.
  revert prev. induction events as [|e events IH]; intros prev Hlen; simpl.
  - exact Hlen.
  - apply IH. now apply trailStep_length.
Qed.

End TrailFacts.

(** The simulated playback appends a point that is the last retained point
    itself, 0 m away from it. *)
Lemma playback_appends_a_repeated_point :
  lastOf [coordinateOf (N:=float) startPoint] = Some (coordinateOf startPoint)
  /\ trailAfterTick (N:=float) (coordinateOf startPoint) [coordinateOf startPoint]
     = [coordinateOf startPoint; coordinateOf startPoint].
Proof. split; reflexivity. Qed.

(** C8 (amended).  Starting from the empty trail, after any sequence of
    position fixes and playback ticks the trail holds at most 50 points.  The
    position handler appends the new point (to the last 49) only when the
    trail is empty or the point is more than 5 m from the last retained one,
    and otherwise leaves the trail as it is; the playback tick appends the
    current route point unconditionally. *)
Theorem breadcrumb_trail_is_bounded :
  forall (N : Type) (HN : Number N) (HS : Sqrt N) (HT : Trig N)
         (events : list (TrailEvent N)) (prev : list (Coordinate N))
         (p : Coordinate N),
    List.length (fold_left trailStep events []) <= 50
    /\ ((trailAfterFix p prev = prev
         /\ exists last_, lastOf prev = Some last_
                          /\ nltb (ofQ 5) (haversineDistance last_ p) = false)
        \/ (trailAfterFix p prev = sliceLast 49 prev ++ [p]
            /\ (prev = []
                \/ exists last_, lastOf prev = Some last_
                                 /\ nltb (ofQ 5) (haversineDistance last_ p) = true)))
    /\ trailAfterTick p prev = sliceLast 49 prev ++ [p].
Proof.
  intros N HN HS HT events prev p. split; [|split].
  - apply trail_length. simpl. lia.
  - apply trailAfterFix_cases.
  - reflexivity.
Qed.

(* ================================================================== *)
(** * 21. The route provider client *)
(* ================================================================== *)

Section ClientFacts.

Context {N : Type} `{Number N}.
Variable provider : Provider N.

Lemma performFetch_outcome (base : string) (coords : list (Coordinate N))
      (log : list (Request N)) :
  let request := {| req_base := base; req_coords := coords; req_timeout_ms := 5000 |} in
  snd (performFetch provider base coords log) = log ++ [request]
  /\ match succeeded (provider request) with
     | Some data => fst (performFetch provider base coords log) = Value data
     | None => exists e, fst (performFetch provider base coords log) = Thrown e
     end.
Proof.
  unfold performFetch, succeeded. cbv zeta.
  destruct (provider _) as [| |ok status body]; simpl; eauto.
  destruct ok; simpl; eauto.
  destruct body; simpl; eauto.
Qed.

Lemma fetchOSRMRoute_outcome (coordinates : list (Coordinate N)) (log : list (Request N)) :
  let validCoords := filter validCoordinate coordinates in
  let primary := {| req_base := OSRM_BASE_URL; req_coords := validCoords;
                    req_timeout_ms := 5000 |} in
  let backup := {| req_base := OSRM_BACKUP_URL; req_coords := validCoords;
                   req_timeout_ms := 5000 |} in
  fetchOSRMRoute provider coordinates log
  = if (List.length validCoords <? 2)%nat then (Value None, log)
    else
      match succeeded (provider primary) with
      | Some data => (Value data, log ++ [primary])
      | None =>
          (Value (match succeeded (provider backup) with
                  | Some data => data
                  | None => None
                  end),
           (log ++ [primary]) ++ [backup])
      end.
Proof.
  cbv zeta. unfold fetchOSRMRoute.
  destruct (List.length (filter validCoordinate coordinates) <? 2)%nat; [reflexivity|].
  unfold tryCatch.
  destruct (performFetch_outcome OSRM_BASE_URL (filter validCoordinate coordinates) log)
    as [Hlog1 Hval1].
  destruct (performFetch provider OSRM_BASE_URL _ log) as [o1 log1]. simpl in *. subst log1.
  destruct (succeeded (provider _)) as [data|].
  - now subst o1.
  - destruct Hval1 as [e ->].
    destruct (performFetch_outcome OSRM_BACKUP_URL (filter validCoordinate coordinates)
                                   (log ++ [{| req_base := OSRM_BASE_URL;
                                               req_coords := filter validCoordinate coordinates;
                                               req_timeout_ms := 5000 |}]))
      as [Hlog2 Hval2].
    destruct (performFetch provider OSRM_BACKUP_URL _ _) as [o2 log2]. simpl in *. subst log2.
    destruct (succeeded (provider _)) as [data|].
    + now subst o2.
    + destruct Hval2 as [e' ->]. reflexivity.
Qed.

(** The value of the client does not depend on the requests sent before. *)
Lemma fetchOSRMRoute_value (coordinates : list (Coordinate N)) (log log' : list (Request N)) :
  fst (fetchOSRMRoute provider coordinates log)
  = fst (fetchOSRMRoute provider coordinates log').
Proof.
  rewrite !fetchOSRMRoute_outcome.
  destruct (List.length _ <? 2)%nat; [reflexivity|].
  destruct (succeeded _); reflexivity.
Qed.

End ClientFacts.

(** C6.  [fetchOSRMRoute] keeps the coordinates that are neither [NaN] nor
    infinite.  With fewer than 2 of them it returns [null] and sends
    nothing.  Otherwise it sends one request to the primary endpoint, to be
    aborted after 5000 ms; if that request yields a body, the body is
    returned and nothing else is sent; if it fails in any way (abort,
    network error, status that is not ok, body that is not JSON) exactly one
    request is sent to the backup endpoint, with the same coordinates and
    the same delay, and the result is its body, or [null] if it fails too.
    The function returns in every case: it never throws. *)
Theorem provider_client_falls_back_once :
  forall (N : Type) (HN : Number N) (provider : Provider N)
         (coordinates : list (Coordinate N)) (log : list (Request N)),
    let validCoords := filter validCoordinate coordinates in
    let primary := {| req_base := OSRM_BASE_URL; req_coords := validCoords;
                      req_timeout_ms := 5000 |} in
    let backup := {| req_base := OSRM_BACKUP_URL; req_coords := validCoords;
                     req_timeout_ms := 5000 |} in
    fetchOSRMRoute provider coordinates log
    = if (List.length validCoords <? 2)%nat then (Value None, log)
      else
        match succeeded (provider primary) with
        | Some data => (Value data, log ++ [primary])
        | None =>
            (Value (match succeeded (provider backup) with
                    | Some data => data
                    | None => None
                    end),
             (log ++ [primary]) ++ [backup])
        end.
Proof.
  intros. apply fetchOSRMRoute_outcome.
Qed.

(* ================================================================== *)
(** * 22. Coordinates at the boundaries *)
(* ================================================================== *)

(** C7 (what the code does instead).  The map click, with the destination
    tool active, stores a destination of infinite latitude, which
    [fetchOSRMRoute] would not count as a valid coordinate; the validation
    of [calculateRoute] lets it through, so the route query is started with
    it; the position handler likewise accepts an infinite latitude and makes
    it the user location. *)
Theorem boundaries_accept_infinity :
  forall (T : Trig float),
    let armed := setTools tool_destination [] None (initialState (N:=float)) in
    let clicked := handleMapClick PrimFloat.infinity PrimFloat.zero armed in
    let bad := {| lat := PrimFloat.infinity; lng := PrimFloat.zero |} in
    destination clicked = Some bad
    /\ validCoordinate bad = false
    /\ pending (autoCalcEffect clicked clicked)
       = [ {| q_start := DEFAULT_LOCATION; q_end := bad; q_zones := [];
              q_avoidHazards := false; q_isAutoReroute := false |} ]
    /\ userLocation (handleSuccess {| latitude := PrimFloat.infinity;
                                      longitude := PrimFloat.zero |} initialState)
       = bad.
Proof.
  intro T. cbv zeta. repeat split; vm_compute; reflexivity.
Qed.

(* ================================================================== *)
(** * 23. Sorting and joining *)
(* ================================================================== *)

Section SortFacts.

Context {A : Type}.
Variable comparefn : A -> A -> Sign.

Lemma sortInsert_hd (x : A) (sorted : list A) :
  hd_error (sortInsert comparefn x sorted) = Some (challenger comparefn x (hd_error sorted)).
Proof.
  destruct sorted as [|y rest]; [reflexivity|]. simpl.
  destruct (comparefn x y); reflexivity.
Qed.

Lemma sort_hd (x : A) (l : list A) :
  hd_error (sort comparefn (x :: l))
  = Some (challenger comparefn x (hd_error (sort comparefn l))).
Proof. apply sortInsert_hd. Qed.

Lemma sort_nil (l : list A) : sort comparefn l = [] -> l = [].
Proof.
  destruct l as [|x l]; [reflexivity|]. intro Hs.
  pose proof (sort_hd x l) as Hhd. rewrite Hs in Hhd. discriminate.
Qed.

Lemma sort_nil_hd (l : list A) : hd_error (sort comparefn l) = None -> l = [].
Proof.
  intro Hhd. apply sort_nil. destruct (sort comparefn l); [reflexivity | discriminate].
Qed.

Lemma sort_hd_in (l : list A) (e : A) :
  hd_error (sort comparefn l) = Some e -> In e l.
Proof.
  revert e. induction l as [|x l IH]; intros e Hhd; [discriminate|].
  rewrite sort_hd in Hhd. injection Hhd as <-.
  unfold challenger. destruct (hd_error (sort comparefn l)) as [y|] eqn:Hy.
  - destruct (comparefn x y); [now left | now left | right; now apply IH].
  - now left.
Qed.

(** With a comparator that decides a transitive relation [le] on the
    elements at hand, the first element is a least one. *)
Lemma sort_hd_least (le : A -> A -> Prop) (l : list A) :
  (forall a, In a l -> le a a) ->
  (forall a b c, In a l -> In b l -> In c l -> le a b -> le b c -> le a c) ->
  (forall a b, In a l -> In b l ->
               match comparefn a b with Positive => le b a | _ => le a b end) ->
  forall e, hd_error (sort comparefn l) = Some e -> forall e', In e' l -> le e e'.
Proof.
  intros Hrefl Htrans Hcmp.
  induction l as [|x l IH]; intros e Hhd e' He'; [contradiction|].
  assert (IH' : forall y, hd_error (sort comparefn l) = Some y ->
                          forall z, In z l -> le y z).
  { apply IH.
    - intros a Ha. apply Hrefl. now right.
    - intros a b c Ha Hb Hc. apply Htrans; now right.
    - intros a b Ha Hb. apply Hcmp; now right. }
  rewrite sort_hd in Hhd. injection Hhd as <-.
  unfold challenger. destruct (hd_error (sort comparefn l)) as [y|] eqn:Hy.
  - assert (Hyl : In y l) by now apply sort_hd_in.
    pose proof (Hcmp x y (or_introl eq_refl) (or_intror Hyl)) as Hxy.
    destruct (comparefn x y) eqn:Hc.
    + destruct He' as [<-|He']; [apply Hrefl; now left|].
      apply (Htrans x y e'); simpl; auto.
    + destruct He' as [<-|He']; [apply Hrefl; now left|].
      apply (Htrans x y e'); simpl; auto.
    + destruct He' as [<-|He']; [exact Hxy | now apply IH'].
  - apply sort_nil_hd in Hy. subst l. destruct He' as [<-|[]]. apply Hrefl. now left.
Qed.

Lemma sortInsert_permutation (x : A) (sorted : list A) :
  Permutation (x :: sorted) (sortInsert comparefn x sorted).
Proof.
  induction sorted as [|y rest IH]; [reflexivity|]. simpl.
  destruct (comparefn x y); try reflexivity.
  rewrite perm_swap. now constructor.
Qed.

Lemma sort_permutation (l : list A) : Permutation l (sort comparefn l).
Proof.
  induction l as [|x l IH]; [reflexivity|]. simpl.
  rewrite <- sortInsert_permutation. now constructor.
Qed.

(** A comparator that tells a strict weak order is consistent. *)
Lemma consistent_of_order (before : A -> A -> Prop) (l : list A) :
  (forall a, In a l -> ~ before a a) ->
  (forall a b c, In a l -> In b l -> In c l -> before a b -> before b c -> before a c) ->
  (forall a b c, In a l -> In b l -> In c l ->
                 ~ before a b -> ~ before b c -> ~ before a c) ->
  (forall a b, In a l -> In b l ->
               match comparefn a b with
               | Negative => before a b
               | Positive => before b a
               | Zero => ~ before a b /\ ~ before b a
               end) ->
  consistent comparefn l.
Proof.
  intros Hirr Htrans Hneg Hcmp a b c Ha Hb Hc.
  pose proof (Hcmp a a Ha Ha) as Haa. pose proof (Hcmp a b Ha Hb) as Hab.
  pose proof (Hcmp b a Hb Ha) as Hba. pose proof (Hcmp b c Hb Hc) as Hbc.
  pose proof (Hcmp a c Ha Hc) as Hac.
  pose proof (Hirr a Ha) as Ia.
  split; [|split; [|split; [|split]]].
  - destruct (comparefn a a); [contradiction | reflexivity | contradiction].
  - intro E. rewrite E in Hab. destruct Hab as [n1 n2].
    destruct (comparefn b a); [contradiction | reflexivity | contradiction].
  - intros E1 E2. rewrite E1 in Hab. rewrite E2 in Hbc.
    destruct Hab as [n1 n2], Hbc as [n3 n4].
    destruct (comparefn a c); [|reflexivity|].
    + exfalso. exact (Hneg a b c Ha Hb Hc n1 n3 Hac).
    + exfalso. exact (Hneg c b a Hc Hb Ha n4 n2 Hac).
  - intros E1 E2. rewrite E1 in Hab. rewrite E2 in Hbc.
    pose proof (Htrans a b c Ha Hb Hc Hab Hbc) as Lac.
    destruct (comparefn a c); [reflexivity | now destruct Hac |].
    exfalso. exact (Ia (Htrans a c a Ha Hc Ha Lac Hac)).
  - intros E1 E2. rewrite E1 in Hab. rewrite E2 in Hbc.
    pose proof (Htrans c b a Hc Hb Ha Hbc Hab) as Lca.
    destruct (comparefn a c); [| now destruct Hac | reflexivity].
    exfalso. exact (Ia (Htrans a c a Ha Hc Ha Hac Lca)).
Qed.

End SortFacts.

Lemma insertionEngine_conforming : conforming insertionEngine.
Proof.
  intros A comparefn l. split; [apply sort_permutation | reflexivity].
Qed.

(** A conforming engine leaves no element out: the sorted array of a
    non-empty array has a first element. *)
Lemma arraySort_nil (engine : Engine) (A : Type) (comparefn : A -> A -> Sign) (l : list A) :
  conforming engine -> arraySort comparefn l = [] -> l = [].
Proof.
  intros Hengine Hsort. destruct (Hengine A comparefn l) as [Hperm _].
  rewrite Hsort in Hperm. now apply Permutation_nil.
Qed.

Lemma arraySort_In (engine : Engine) (A : Type) (comparefn : A -> A -> Sign) (l : list A)
      (a : A) :
  conforming engine -> In a (arraySort comparefn l) -> In a l.
Proof.
  intros Hengine Hin. destruct (Hengine A comparefn l) as [Hperm _].
  now apply (Permutation_in a (Permutation_sym Hperm)).
Qed.

Section JoinFacts.

Context {L A : Type}.

Lemma setIndex_length {B} (i : nat) (v : B) (l : list B) :
  List.length (setIndex i v l) = List.length l.
Proof.
  revert i. induction l as [|x l IH]; intro i; [reflexivity|].
  destruct i; simpl; [reflexivity | now rewrite IH].
Qed.

Lemma nth_error_setIndex {B} (i : nat) (v : B) (l : list B) (j : nat) :
  nth_error (setIndex i v l) j
  = if (j =? i)%nat && (i <? List.length l)%nat then Some v else nth_error l j.
Proof.
  revert i j. induction l as [|x l IH]; intros i j.
  - simpl. destruct (j =? i)%nat; reflexivity.
  - destruct i, j; simpl; try reflexivity.
    rewrite IH. reflexivity.
Qed.

Lemma allValues_nth (outcomes : list (Outcome A)) (vals : list A) :
  allValues outcomes = Some vals ->
  forall i, nth_error (map (@Value A) vals) i = nth_error outcomes i.
Proof.
  revert vals. induction outcomes as [|o rest IH]; intros vals Hall i.
  - injection Hall as <-. reflexivity.
  - destruct o as [v|e]; [|discriminate]. simpl in Hall.
    destruct (allValues rest) as [vs|]; [|discriminate].
    injection Hall as <-. destruct i; simpl; [reflexivity | now apply IH].
Qed.

Lemma allValues_none (outcomes : list (Outcome A)) :
  allValues outcomes = None -> exists i e, nth_error outcomes i = Some (Thrown e).
Proof.
  induction outcomes as [|o rest IH]; [discriminate|].
  destruct o as [v|e]; simpl.
  - destruct (allValues rest); [discriminate|]. intros _.
    destruct (IH eq_refl) as (i & e & Hi). now exists (S i), e.
  - intros _. now exists 0, e.
Qed.

Lemma startAll_rests (calls : list (Started L A)) (os : list (Outcome A)) :
  Forall2 settlesWith calls os ->
  forall log,
    Forall2 (fun rest o => forall log', fst (rest log') = o) (fst (startAll calls log)) os.
Proof.
  induction 1 as [|call o calls os Hcall Hcalls IH]; intro log; cbn [startAll].
  - constructor.
  - destruct (Hcall log) as (rest & log1 & -> & Hrest).
    specialize (IH log1). destruct (startAll calls log1) as [rests log2].
    cbn [fst] in *. now constructor.
Qed.

Section Resumption.

Variable rests : list (Async L A).
Variable os : list (Outcome A).
Hypothesis rests_settle : Forall2 (fun rest o => forall log, fst (rest log) = o) rests os.

Lemma rest_outcome (i : nat) (rest : Async L A) (log : list L) :
  nth_error rests i = Some rest -> nth_error os i = Some (fst (rest log)).
Proof.
  revert i. induction rests_settle as [|r o rs os' Hr Hrs IH]; intros i Hi.
  - destruct i; discriminate.
  - destruct i as [|i]; cbn in *.
    + injection Hi as <-. now rewrite Hr.
    + now apply IH.
Qed.

Lemma settle_recorded (i : nat) (rest : Async L A) (log : list L) (s : Progress A) :
  nth_error rests i = Some rest ->
  nth_error (outcomes s) i = Some None ->
  recorded os s -> recorded os (settle i (fst (rest log)) s).
Proof.
  intros Hrest Hnone (Hlen & Hagree & Hrej).
  assert (Hi : i < List.length (outcomes s)) by (apply nth_error_Some; congruence).
  assert (Hlt : (i <? List.length (outcomes s))%nat = true) by now apply Nat.ltb_lt.
  unfold recorded, settle. cbn [outcomes rejection].
  split; [now rewrite setIndex_length|]. split.
  - intros j o. rewrite nth_error_setIndex, Hlt, andb_true_r.
    destruct (Nat.eqb_spec j i) as [->|Hji].
    + intros [= <-]. now apply rest_outcome.
    + apply Hagree.
  - split.
    + intros Hnew j e. rewrite nth_error_setIndex, Hlt, andb_true_r.
      destruct (rejection s) eqn:Hr; [discriminate|].
      destruct (Nat.eqb_spec j i) as [->|Hji].
      * destruct (fst (rest log)); [discriminate | discriminate].
      * now apply (proj1 Hrej).
    + intro Hall.
      assert (Hval : forall e, fst (rest log) <> Thrown e).
      { intros e He. apply (Hall i e).
        rewrite nth_error_setIndex, Hlt, Nat.eqb_refl. cbn. now rewrite He. }
      assert (Hold : rejection s = None).
      { apply Hrej. intros j e Hj. apply (Hall j e).
        rewrite nth_error_setIndex, Hlt, andb_true_r.
        destruct (Nat.eqb_spec j i) as [->|Hji]; [congruence | exact Hj]. }
      rewrite Hold. destruct (fst (rest log)) as [v|e]; [reflexivity|].
      now destruct (Hval e).
Qed.

(** Resuming keeps the record true, and leaves no call of [order] (nor any
    call that had settled) unsettled. *)
Lemma resumeAll_recorded (order : list nat) :
  forall (s : Progress A) (log : list L),
    recorded os s ->
    recorded os (fst (resumeAll rests order s log))
    /\ forall j, j < List.length os ->
                 In j order \/ nth_error (outcomes s) j <> Some None ->
                 nth_error (outcomes (fst (resumeAll rests order s log))) j <> Some None.
Proof.
  induction order as [|i later IH]; intros s log Hs; cbn [resumeAll fst].
  - split; [exact Hs|]. intros j _ [[]|Hj]. exact Hj.
  - assert (Hlen : List.length rests = List.length os)
      by (eapply Forall2_length; exact rests_settle).
    destruct (nth_error rests i) as [rest|] eqn:Hrest.
    + destruct (nth_error (outcomes s) i) as [[o|]|] eqn:Hout.
      * destruct (IH s log Hs) as [Hrec Hset]. split; [exact Hrec|].
        intros j Hj [[<-|Hin]|Hold]; apply Hset; auto.
        right. congruence.
      * pose proof (@settle_recorded i rest log s Hrest Hout Hs) as Hs1.
        destruct (rest log) as [o log1] eqn:Hrun. cbn [fst] in Hs1.
        destruct (IH (settle i o s) log1 Hs1) as [Hrec Hset]. split; [exact Hrec|].
        assert (Hi : (i <? List.length (outcomes s))%nat = true).
        { apply Nat.ltb_lt, nth_error_Some. congruence. }
        intros j Hj Hcase. apply Hset; [exact Hj|].
        destruct (Nat.eq_dec j i) as [->|Hji].
        -- right. unfold settle. cbn [outcomes].
           rewrite nth_error_setIndex, Hi, Nat.eqb_refl. discriminate.
        -- destruct Hcase as [[Heq|Hin]|Hold]; [congruence | now left |].
           right. unfold settle. cbn [outcomes].
           rewrite nth_error_setIndex, Hi, andb_true_r.
           destruct (Nat.eqb_spec j i); [contradiction | exact Hold].
      * destruct (IH s log Hs) as [Hrec Hset]. split; [exact Hrec|].
        intros j Hj [[<-|Hin]|Hold]; apply Hset; auto.
        right. congruence.
    + destruct (IH s log Hs) as [Hrec Hset]. split; [exact Hrec|].
      intros j Hj [[<-|Hin]|Hold]; apply Hset; auto.
      exfalso. apply nth_error_None in Hrest. lia.
Qed.

End Resumption.

Lemma all_recorded (os : list (Outcome A)) (s : Progress A) :
  recorded os s ->
  (forall j, j < List.length os -> nth_error (outcomes s) j <> Some None) ->
  outcomes s = map (@Some (Outcome A)) os.
Proof.
  intros (Hlen & Hagree & _) Hall.
  apply nth_error_ext. intro j. rewrite nth_error_map.
  destruct (nth_error (outcomes s) j) as [[o|]|] eqn:Hj.
  - now rewrite (Hagree j o Hj).
  - exfalso. apply (Hall j); [|exact Hj].
    rewrite <- Hlen. apply nth_error_Some. congruence.
  - apply nth_error_None in Hj. rewrite Hlen in Hj.
    apply nth_error_None in Hj. now rewrite Hj.
Qed.

Lemma settled_values (os : list (Outcome A)) (vals : list A) :
  allValues os = Some vals -> settled (map (@Some (Outcome A)) os) = vals.
Proof.
  revert vals. induction os as [|o os IH]; intros vals Hall.
  - injection Hall as <-. reflexivity.
  - destruct o as [v|e]; [|discriminate]. cbn in Hall.
    destruct (allValues os) as [vs|]; [|discriminate]. injection Hall as <-.
    unfold settled in *. cbn. f_equal. now apply IH.
Qed.

Lemma allValues_some (os : list (Outcome A)) (vals : list A) :
  allValues os = Some vals -> forall j e, nth_error os j <> Some (Thrown e).
Proof.
  intros Hall j e Hj. rewrite <- (allValues_nth os Hall j) in Hj.
  rewrite nth_error_map in Hj. destruct (nth_error vals j); discriminate.
Qed.

(** [Promise.all] over calls that settle with [os]: the values, in the
    order of the calls, when all of them are values, and a rejection
    otherwise, whatever the order in which the calls resume. *)
Lemma promiseAll_outcome (calls : list (Started L A)) (os : list (Outcome A))
      (completion : list nat) (log : list L) :
  Forall2 settlesWith calls os ->
  match allValues os with
  | Some vals => fst (promiseAll calls completion log) = Value vals
  | None => exists e, fst (promiseAll calls completion log) = Thrown e
  end.
Proof.
  intro Hcalls. unfold promiseAll.
  pose proof (@startAll_rests calls os Hcalls log) as Hrests.
  assert (Hn : List.length calls = List.length os) by (eapply Forall2_length; exact Hcalls).
  destruct (startAll calls log) as [rests log1]. cbn [fst] in Hrests.
  rewrite Hn.
  set (s0 := {| outcomes := repeat None (List.length os); rejection := None |}).
  assert (Hs0 : recorded os s0).
  { unfold recorded, s0. cbn [outcomes rejection]. split; [apply repeat_length|]. split.
    - intros j o Hj. apply nth_error_In, repeat_spec in Hj. discriminate.
    - split; [|reflexivity]. intros _ j e Hj.
      apply nth_error_In, repeat_spec in Hj. discriminate. }
  destruct (@resumeAll_recorded rests os Hrests (completion ++ seq 0 (List.length os)) s0 log1 Hs0)
    as [Hrec Hset].
  destruct (resumeAll rests _ s0 log1) as [s log2]. cbn [fst] in *.
  assert (Hout : outcomes s = map (@Some (Outcome A)) os).
  { apply all_recorded; [exact Hrec|]. intros j Hj. apply Hset; [exact Hj|].
    left. apply in_or_app. right. apply in_seq. lia. }
  destruct Hrec as (_ & _ & Hrej).
  destruct (allValues os) as [vals|] eqn:Hall.
  - assert (Hnone : rejection s = None).
    { apply Hrej. intros j e Hj. rewrite Hout, nth_error_map in Hj.
      destruct (nth_error os j) as [o|] eqn:Ho; [|discriminate].
      injection Hj as ->. exact (@allValues_some os vals Hall j e Ho). }
    rewrite Hnone, Hout. f_equal. now apply settled_values.
  - destruct (rejection s) as [e|] eqn:Hr; [now exists e|].
    exfalso. destruct (@allValues_none os Hall) as (i & e & Hi).
    apply (proj1 Hrej eq_refl i e). now rewrite Hout, nth_error_map, Hi.
Qed.

End JoinFacts.

(* ================================================================== *)
(** * 24. The route selector *)
(* ================================================================== *)

Section SelectorFacts.

Context {N : Type} `{Number N} `{Sqrt N}.
Variable provider : Provider N.
Local Open Scope js_scope.

Lemma fetchOSRMRoute_fetched (waypoints : list (Coordinate N)) (log : list (Request N)) :
  fst (fetchOSRMRoute provider waypoints log) = Value (fetched provider waypoints).
Proof.
  unfold fetched. rewrite (fetchOSRMRoute_value provider waypoints log []).
  rewrite fetchOSRMRoute_outcome.
  destruct (List.length _ <? 2)%nat; [reflexivity|].
  destruct (succeeded _); reflexivity.
Qed.

Lemma evaluateCandidate_outcome (start end_ : Coordinate N) (floodZones : list (FloodZone N))
      (candidate : DetourCandidate N) (log : list (Request N)) :
  fst (evaluateCandidate provider start end_ floodZones candidate log)
  = candidateOutcome provider start end_ floodZones candidate.
Proof.
  unfold evaluateCandidate, candidateOutcome, bind, liftOutcome.
  pose proof (fetchOSRMRoute_fetched [start; waypoint candidate; end_] log) as Hf.
  destruct (fetchOSRMRoute provider _ log) as [o log1]. simpl in Hf. subst o.
  destruct (transformRouteData _) as [[r|]|e]; reflexivity.
Qed.

(** The two parts of a call, run one after the other, are the call. *)
Lemma performFetch_parts (base : string) (coords : list (Coordinate N))
      (log : list (Request N)) :
  performFetch provider base coords log
  = (fetchAnswer provider base coords, log ++ [fetchRequest base coords]).
Proof.
  unfold performFetch, fetchAnswer, fetchRequest. cbv zeta.
  destruct (provider _) as [| |ok status body]; [reflexivity|reflexivity|].
  destruct ok; cbn [negb]; [|reflexivity].
  destruct body; reflexivity.
Qed.

Lemma fetchOSRMRoute_parts (coordinates : list (Coordinate N)) (log : list (Request N)) :
  (await rest <- fetchOSRMRoute_started provider coordinates ;; rest) log
  = fetchOSRMRoute provider coordinates log.
Proof.
  unfold fetchOSRMRoute_started, fetchOSRMRoute, bind.
  destruct (List.length _ <? 2)%nat; [reflexivity|].
  unfold tryCatch at 1 3, liftOutcome. rewrite performFetch_parts.
  destruct (fetchAnswer _ _ _); reflexivity.
Qed.

Lemma evaluateCandidate_parts (start end_ : Coordinate N) (floodZones : list (FloodZone N))
      (candidate : DetourCandidate N) (log : list (Request N)) :
  (await rest <- evaluateCandidate_started provider start end_ floodZones candidate ;; rest)
    log
  = evaluateCandidate provider start end_ floodZones candidate log.
Proof.
  unfold evaluateCandidate_started, evaluateCandidate.
  pose proof (fetchOSRMRoute_parts [start; waypoint candidate; end_] log) as Hparts.
  unfold bind in *. unfold ret at 1.
  destruct (fetchOSRMRoute_started provider _ log) as [[rest|e] log1].
  - rewrite Hparts. reflexivity.
  - rewrite <- Hparts. reflexivity.
Qed.

Lemma fetchOSRMRoute_settles (coordinates : list (Coordinate N)) :
  settlesWith (fetchOSRMRoute_started provider coordinates)
              (Value (fetched provider coordinates)).
Proof.
  intro log.
  pose proof (fun log' => fetchOSRMRoute_fetched coordinates log') as Hf.
  unfold fetchOSRMRoute_started. unfold fetchOSRMRoute in Hf.
  destruct (List.length _ <? 2)%nat.
  - exists (ret None), log. split; [reflexivity|]. intro log''. apply Hf.
  - eexists _, _. split; [reflexivity|]. intro log''.
    rewrite <- (Hf log''). unfold tryCatch, liftOutcome.
    rewrite !performFetch_parts.
    destruct (fetchAnswer _ OSRM_BASE_URL _); [reflexivity|].
    destruct (fetchAnswer _ OSRM_BACKUP_URL _); reflexivity.
Qed.

Lemma evaluateCandidate_settles (start end_ : Coordinate N) (floodZones : list (FloodZone N))
      (candidate : DetourCandidate N) :
  settlesWith (evaluateCandidate_started provider start end_ floodZones candidate)
              (candidateOutcome provider start end_ floodZones candidate).
Proof.
  intro log.
  destruct (fetchOSRMRoute_settles [start; waypoint candidate; end_] log)
    as (rest & log1 & Hstart & Hrest).
  unfold evaluateCandidate_started, bind at 1. rewrite Hstart.
  eexists _, _. split; [reflexivity|]. intro log''.
  unfold candidateOutcome, bind, liftOutcome.
  specialize (Hrest log''). destruct (rest log'') as [o log2]. simpl in Hrest. subst o.
  destruct (transformRouteData _) as [[r|]|e]; reflexivity.
Qed.

Lemma candidates_settle (start end_ : Coordinate N) (floodZones : list (FloodZone N))
      (candidates : list (DetourCandidate N)) :
  Forall2 settlesWith
          (map (evaluateCandidate_started provider start end_ floodZones) candidates)
          (map (candidateOutcome provider start end_ floodZones) candidates).
Proof.
  induction candidates as [|c candidates IH]; constructor;
    [apply evaluateCandidate_settles | exact IH].
Qed.

Lemma generateDetourWaypoints_length (start end_ : Coordinate N) (hazard : FloodZone N) :
  List.length (generateDetourWaypoints start end_ hazard) = 8.
Proof. reflexivity. Qed.

Lemma filterNonNull_In (A : Type) (results : list (option A)) (a : A) :
  In a (filterNonNull results) <-> In (Some a) results.
Proof.
  unfold filterNonNull. rewrite in_flat_map. split.
  - intros ([x|] & Hx & Ha); [|contradiction].
    destruct Ha as [<-|[]]. exact Hx.
  - intro Ha. exists (Some a). split; [exact Ha | now left].
Qed.

Lemma allValues_fetched (A : Type) (os : list (Outcome A)) (results : list A) :
  Forall2 (fun o r => o = Value r) os results -> allValues os = Some results.
Proof.
  induction 1 as [|o r os results -> _ IH]; [reflexivity|].
  cbn [allValues]. now rewrite IH.
Qed.

Lemma allValues_rejected (A : Type) (os : list (Outcome A)) (e : string) :
  In (Thrown e) os -> allValues os = None.
Proof.
  induction os as [|o os IH]; [contradiction|].
  intros [->|Hin]; [reflexivity|].
  cbn [allValues]. destruct o; [|reflexivity]. now rewrite (IH Hin).
Qed.

Section Selection.

Context {engine : Engine}.

(** What [fetchRoute] settles with, from the outcomes of the direct query
    and of the candidate evaluations. *)
Lemma fetchRoute_outcome (completion : list nat) (start end_ : Coordinate N)
      (floodZones : list (FloodZone N)) (avoidHazards : bool) (log : list (Request N)) :
  fst (fetchRoute provider completion start end_ floodZones avoidHazards log)
  = Value
      match directOutcome provider start end_ with
      | Value (Some d) =>
          if negb avoidHazards then Some d
          else if (calculateRouteHazardScore (coordinates d) floodZones =? 0)%nat then Some d
          else
            match getCombinedHazardZone
                    (filter (doesRouteIntersectFlood (coordinates d)) floodZones) with
            | Some metaZone =>
                match allValues (map (candidateOutcome provider start end_ floodZones)
                                     (generateDetourWaypoints start end_ metaZone)) with
                | Some results =>
                    if (0 <? List.length (filterNonNull results))%nat then
                      match arraySort compareEvaluations (filterNonNull results) with
                      | best :: _ => Some (route best)
                      | [] => None
                      end
                    else Some d
                | None => None
                end
            | None => Some d
            end
      | _ => None
      end.
Proof.
  unfold fetchRoute, directOutcome, tryCatch.
  unfold bind at 1.
  pose proof (fetchOSRMRoute_fetched [start; end_] log) as Hf.
  destruct (fetchOSRMRoute provider [start; end_] log) as [o log1]. simpl in Hf. subst o.
  unfold bind at 1, liftOutcome at 1.
  destruct (transformRouteData (fetched provider [start; end_])) as [[directRoute|]|e];
    [|reflexivity|reflexivity].
  destruct avoidHazards; [|reflexivity]. cbn [negb].
  destruct (calculateRouteHazardScore (coordinates directRoute) floodZones =? 0)%nat;
    [reflexivity|].
  destruct (getCombinedHazardZone _) as [metaZone|]; [|reflexivity].
  pose proof (@promiseAll_outcome _ _ _ _ completion log1
                (candidates_settle start end_ floodZones
                                   (generateDetourWaypoints start end_ metaZone))) as Hall.
  unfold bind.
  destruct (allValues _) as [results|].
  - destruct (promiseAll _ completion log1) as [o log2]. simpl in Hall. subst o.
    destruct (0 <? List.length (filterNonNull results))%nat; [|reflexivity].
    destruct (arraySort compareEvaluations (filterNonNull results)); reflexivity.
  - destruct Hall as [e He].
    destruct (promiseAll _ completion log1) as [o log2]. simpl in He. subst o.
    reflexivity.
Qed.

(** The blocked flag and the route after a whole call of [calculateRoute]. *)
Lemma calculateRoute_result (completion : list nat) (q : RouteQuery N) (st : AppState N) :
  invalidQuery q = false ->
  let st' := calculateRoute provider completion q st in
  let choice :=
    match fst (fetchRoute provider completion (q_start q) (q_end q) (q_zones q)
                          (q_avoidHazards q) []) with
    | Value r => r
    | Thrown _ => None
    end in
  activeRoute st' = choice
  /\ isBlocked st' = match choice with
                     | Some r => isCompromised r (q_zones q)
                     | None => isBlocked st
                     end
  /\ rerouting (navStatus st') = false
  /\ pending st' = pending st.
Proof.
  intros Hvalid. cbv zeta. unfold calculateRoute. rewrite Hvalid.
  unfold calculateRoute_begin. rewrite Hvalid.
  destruct (match fst (fetchRoute _ _ _ _ _ _ _) with Value r => r | Thrown _ => None end)
    as [r|]; unfold calculateRoute_settle.
  - destruct (isCompromised r (q_zones q)), (q_avoidHazards q), (q_isAutoReroute q);
      repeat split; reflexivity.
  - repeat split; reflexivity.
Qed.

End Selection.

End SelectorFacts.

(** ** Ranking *)

Section RankingFacts.

Context {N : Type} `{Number N}.
Hypothesis arithmetic : subtractionOrders N.

Lemma compare_ranks (a b : RouteEvaluation N) :
  knownDistance a -> knownDistance b ->
  match compareEvaluations a b with
  | Negative => rankedBefore a b
  | Positive => rankedBefore b a
  | Zero => ~ rankedBefore a b /\ ~ rankedBefore b a
  end.
Proof.
  unfold knownDistance, compareEvaluations, rankedBefore. intros Ha Hb.
  destruct (arithmetic _ _ _ Ha Hb Ha) as (Hneg & Hpos & _).
  destruct (hazardScore a =? hazardScore b)%nat eqn:Hs; cbn [negb].
  - apply Nat.eqb_eq in Hs. unfold signOf. rewrite Hneg, Hpos.
    destruct (nltb (totalDistance (route a)) (totalDistance (route b))) eqn:E1.
    + right. now split.
    + destruct (nltb (totalDistance (route b)) (totalDistance (route a))) eqn:E2.
      * right. now split.
      * split; intros [Hlt|[_ Hlt]]; solve [lia | discriminate].
  - apply Nat.eqb_neq in Hs.
    destruct (Z.of_nat (hazardScore a) - Z.of_nat (hazardScore b))%Z eqn:Hz;
      cbn [signOfZ]; solve [lia | left; lia].
Qed.

Lemma rankedBefore_irrefl (a : RouteEvaluation N) :
  knownDistance a -> ~ rankedBefore a a.
Proof.
  unfold knownDistance, rankedBefore. intros Ha [Hlt|[_ Hlt]]; [lia|].
  destruct (arithmetic _ _ _ Ha Ha Ha) as (_ & _ & _ & Hirr & _). congruence.
Qed.

Lemma rankedBefore_trans (a b c : RouteEvaluation N) :
  knownDistance a -> knownDistance b -> knownDistance c ->
  rankedBefore a b -> rankedBefore b c -> rankedBefore a c.
Proof.
  unfold knownDistance, rankedBefore. intros Ha Hb Hc.
  destruct (arithmetic _ _ _ Ha Hb Hc) as (_ & _ & _ & _ & Htrans & _).
  intros [H1|[H1 H1']] [H2|[H2 H2']]; try (left; lia).
  right. split; [lia | auto].
Qed.

Lemma rankedBefore_negtrans (a b c : RouteEvaluation N) :
  knownDistance a -> knownDistance b -> knownDistance c ->
  ~ rankedBefore a b -> ~ rankedBefore b c -> ~ rankedBefore a c.
Proof.
  unfold knownDistance, rankedBefore. intros Ha Hb Hc.
  destruct (arithmetic _ _ _ Ha Hb Hc) as (_ & _ & _ & _ & _ & Hneg).
  intros Hab Hbc [Hac|[Hac Hac']].
  - destruct (Nat.lt_ge_cases (hazardScore a) (hazardScore b)) as [Hlt|Hge];
      [apply Hab; now left|].
    apply Hbc. left. lia.
  - destruct (Nat.lt_trichotomy (hazardScore a) (hazardScore b)) as [Hlt|[Heq|Hgt]].
    + apply Hab. now left.
    + destruct (nltb (totalDistance (route a)) (totalDistance (route b))) eqn:E1;
        [apply Hab; right; now split|].
      destruct (nltb (totalDistance (route b)) (totalDistance (route c))) eqn:E2;
        [apply Hbc; right; split; [lia | reflexivity]|].
      rewrite (Hneg eq_refl eq_refl) in Hac'. discriminate.
    + apply Hbc. left. lia.
Qed.

Lemma rankedBefore_asym (a b : RouteEvaluation N) :
  knownDistance a -> knownDistance b -> rankedBefore a b -> ~ rankedBefore b a.
Proof.
  intros Ha Hb Hab Hba.
  exact (rankedBefore_irrefl Ha (rankedBefore_trans Ha Hb Ha Hab Hba)).
Qed.

Lemma atLeastAsGood_ranked (a b : RouteEvaluation N) :
  knownDistance a -> knownDistance b ->
  atLeastAsGood a b <-> ~ rankedBefore b a.
Proof.
  unfold knownDistance, atLeastAsGood, rankedBefore. intros Ha Hb.
  destruct (arithmetic _ _ _ Ha Hb Ha) as (_ & _ & Hle & _). rewrite Hle.
  destruct (nltb (totalDistance (route b)) (totalDistance (route a))); cbn [negb]; split.
  - intros [Hlt|[_ Hf]] [Hlt'|[Heq _]]; solve [lia | discriminate].
  - intro Hn. left.
    destruct (Nat.lt_trichotomy (hazardScore a) (hazardScore b)) as [Hlt|[Heq|Hgt]];
      [exact Hlt | exfalso; apply Hn; right; now split | exfalso; apply Hn; now left].
  - intros [Hlt|[Heq _]] [Hlt'|[_ Hf]]; solve [lia | discriminate].
  - intro Hn.
    destruct (Nat.lt_trichotomy (hazardScore a) (hazardScore b)) as [Hlt|[Heq|Hgt]];
      [now left | right; now split | exfalso; apply Hn; now left].
Qed.

Lemma compareEvaluations_consistent (l : list (RouteEvaluation N)) :
  Forall knownDistance l -> consistent compareEvaluations l.
Proof.
  intro Hknown. rewrite Forall_forall in Hknown.
  apply (@consistent_of_order _ compareEvaluations rankedBefore).
  - intros a Ha. apply rankedBefore_irrefl. auto.
  - intros a b c Ha Hb Hc. apply rankedBefore_trans; auto.
  - intros a b c Ha Hb Hc. apply rankedBefore_negtrans; auto.
  - intros a b Ha Hb. apply compare_ranks; auto.
Qed.

(** On a conforming engine the evaluation sorted first is one of those
    sorted, and no other ranks strictly before it. *)
Lemma first_is_least (engine : Engine) (l : list (RouteEvaluation N))
      (best : RouteEvaluation N) (others : list (RouteEvaluation N)) :
  conforming engine ->
  Forall knownDistance l ->
  arraySort compareEvaluations l = best :: others ->
  In best l /\ forall e, In e l -> atLeastAsGood best e.
Proof.
  intros Hengine Hknown Hsort.
  destruct (Hengine _ compareEvaluations l) as [_ Hprescribed].
  rewrite (Hprescribed (compareEvaluations_consistent Hknown)) in Hsort.
  assert (Hhd : hd_error (sort compareEvaluations l) = Some best) by now rewrite Hsort.
  rewrite Forall_forall in Hknown. split.
  - now apply (sort_hd_in compareEvaluations).
  - apply (@sort_hd_least _ compareEvaluations atLeastAsGood l); auto.
    + intros a Ha. apply atLeastAsGood_ranked; auto. apply rankedBefore_irrefl. auto.
    + intros a b c Ha Hb Hc Hab Hbc.
      apply atLeastAsGood_ranked in Hab, Hbc; auto.
      apply atLeastAsGood_ranked; auto.
      apply (@rankedBefore_negtrans c b a); auto.
    + intros a b Ha Hb. pose proof (@compare_ranks a b (Hknown a Ha) (Hknown b Hb)) as Hc.
      destruct (compareEvaluations a b).
      * apply atLeastAsGood_ranked; auto. apply rankedBefore_asym; auto.
      * apply atLeastAsGood_ranked; auto. now destruct Hc.
      * apply atLeastAsGood_ranked; auto. apply rankedBefore_asym; auto.
Qed.

End RankingFacts.

(** ** Ranking in exact arithmetic *)

Module RankFacts.

Import ExactFacts.

Lemma exact_subtractionOrders : subtractionOrders exact.
Proof.
  intros x y z Hx Hy Hz.
  destruct x as [a| | |], y as [b| | |], z as [c| | |]; try discriminate;
    cbn; repeat split; try reflexivity; try discriminate; try (intros; assumption).
  all: try (unfold Exact.qltb; now rewrite negb_involutive).
  all: try (destruct (qltb_cases (a + - b) 0) as [[-> ?]|[-> ?]],
                     (qltb_cases a b) as [[-> ?]|[-> ?]]; try reflexivity; lra).
  all: try (destruct (qltb_cases 0 (a + - b)) as [[-> ?]|[-> ?]],
                     (qltb_cases b a) as [[-> ?]|[-> ?]]; try reflexivity; lra).
  all: try (destruct (qltb_cases a a) as [[-> ?]|[-> ?]]; [lra | reflexivity]).
  - intros H1 H2. apply qltb_true in H1, H2.
    destruct (qltb_cases a c) as [[-> ?]|[-> ?]]; [reflexivity | lra].
  - intros H1 H2. apply qltb_false in H1, H2.
    destruct (qltb_cases a c) as [[-> ?]|[-> ?]]; [lra | reflexivity].
Qed.

(** The hazard score is non-zero exactly when some zone intersects. *)
Lemma score_zero_iff_clear (route : list (Coordinate Q)) (zones : list (FloodZone Q)) :
  (calculateRouteHazardScore (N:=exact) (map coordinateOf route) (map zoneOf zones) =? 0)%nat
  = negb (existsb (doesRouteIntersectFlood (N:=exact) (map coordinateOf route))
                  (map zoneOf zones)).
Proof.
  rewrite score_exact.
  destruct (existsb _ (map zoneOf zones)) eqn:E; cbn [negb].
  - apply existsb_exists in E as (z' & Hz' & Hint).
    pose proof Hz' as Hz''. apply in_map_iff in Hz'' as (z & <- & Hz).
    rewrite intersects_exact in Hint.
    apply existsb_exists in Hint as (p & Hp & Hin).
    apply Nat.eqb_neq. intro Hzero. apply length_zero_iff_nil in Hzero.
    assert (Hmem : In p (filter (pointInDanger (map (zoneOf (N:=exact)) zones))
                                (map coordinateOf route))).
    { apply filter_In. split; [exact Hp|].
      unfold pointInDanger. apply existsb_exists. now exists (zoneOf z). }
    rewrite Hzero in Hmem. contradiction.
  - apply Nat.eqb_eq. apply length_zero_iff_nil.
    induction route as [|p route IH]; [reflexivity|].
    cbn [map filter].
    assert (Hp : pointInDanger (map (zoneOf (N:=exact)) zones) (coordinateOf p) = false).
    { apply not_true_is_false. intro Hd. unfold pointInDanger in Hd.
      apply existsb_exists in Hd as (z' & Hz' & Hin).
      pose proof Hz' as Hz''. apply in_map_iff in Hz'' as (z & <- & Hz).
      assert (Hx : existsb (doesRouteIntersectFlood (N:=exact) (map coordinateOf (p :: route)))
                           (map zoneOf zones) = true).
      { apply existsb_exists. exists (zoneOf z). split; [exact Hz'|].
        rewrite intersects_exact. apply existsb_exists.
        exists (coordinateOf p). split; [now left | exact Hin]. }
      congruence. }
    rewrite Hp. apply IH.
    apply not_true_is_false. intro Hd.
    apply existsb_exists in Hd as (z' & Hz' & Hint).
    pose proof Hz' as Hz''. apply in_map_iff in Hz'' as (z & <- & Hz).
    rewrite intersects_exact in Hint.
    apply existsb_exists in Hint as (p' & Hp' & Hin).
    assert (Hx : existsb (doesRouteIntersectFlood (N:=exact) (map coordinateOf (p :: route)))
                         (map zoneOf zones) = true).
    { apply existsb_exists. exists (zoneOf z). split; [exact Hz'|].
      rewrite intersects_exact. apply existsb_exists.
      exists p'. split; [now right | exact Hin]. }
    congruence.
Qed.

End RankFacts.

(** ** Ranking in binary64 *)

(** Doubles other than [NaN] are ordered as the integers [keyOf] that count
    their value in units of [2^emin] (the infinities being given the first
    power of two beyond the finite range), and the sign of a difference of
    two such doubles is the sign of the difference of these integers: a
    subtraction rounds to zero only when it is exactly zero. *)
Module FloatOrder.

Local Open Scope Z_scope.

Lemma digits2_pos_bounds (m : positive) :
  2 ^ (Zpos (digits2_pos m) - 1) <= Zpos m < 2 ^ (Zpos (digits2_pos m)).
Proof.
  induction m as [m IH|m IH|]; cbn [digits2_pos].
  - rewrite Pos2Z.inj_succ. replace (Z.succ (Zpos (digits2_pos m)) - 1) with (Zpos (digits2_pos m)) by lia.
    rewrite Z.pow_succ_r by lia.
    assert (2 ^ Zpos (digits2_pos m) = 2 * 2 ^ (Zpos (digits2_pos m) - 1)).
    { rewrite <- Z.pow_succ_r by lia. f_equal. lia. }
    lia.
  - rewrite Pos2Z.inj_succ. replace (Z.succ (Zpos (digits2_pos m)) - 1) with (Zpos (digits2_pos m)) by lia.
    rewrite Z.pow_succ_r by lia.
    assert (2 ^ Zpos (digits2_pos m) = 2 * 2 ^ (Zpos (digits2_pos m) - 1)).
    { rewrite <- Z.pow_succ_r by lia. f_equal. lia. }
    lia.
  - simpl. lia.
Qed.

Lemma shr_1_m (r : shr_record) : 0 <= shr_m r -> shr_m (shr_1 r) = Z.div2 (shr_m r).
Proof.
  destruct r as [m rb sb]. simpl. destruct m as [|[p|p|]|p]; simpl; try reflexivity; lia.
Qed.

Lemma iter_pos_nat {A} (f : A -> A) (p : positive) (x : A) :
  SpecFloat.iter_pos f p x = Nat.iter (Pos.to_nat p) f x.
Proof.
  revert x. induction p as [p IH|p IH|]; intro x; cbn [SpecFloat.iter_pos].
  - rewrite !IH, Pos2Nat.inj_xI.
    replace (S (2 * Pos.to_nat p))%nat with (S (Pos.to_nat p + Pos.to_nat p)) by lia.
    now rewrite Nat.iter_succ_r, Nat.iter_add.
  - rewrite !IH, Pos2Nat.inj_xO.
    replace (2 * Pos.to_nat p)%nat with (Pos.to_nat p + Pos.to_nat p)%nat by lia.
    now rewrite Nat.iter_add.
  - reflexivity.
Qed.

Lemma iter_shr_m (n : nat) (r : shr_record) :
  0 <= shr_m r -> shr_m (Nat.iter n shr_1 r) = shr_m r / 2 ^ Z.of_nat n.
Proof.
  intro Hr. induction n as [|n IH].
  - simpl. now rewrite Z.div_1_r.
  - rewrite Nat.iter_succ, shr_1_m.
    + rewrite IH, Z.div2_div, Nat2Z.inj_succ, Z.pow_succ_r by lia.
      rewrite Z.div_div by lia. f_equal. lia.
    + rewrite IH. apply Z.div_pos; lia.
Qed.

(** Shifting right by fewer bits than the mantissa has leaves it positive. *)
Lemma shr_positive (r : shr_record) (e n : Z) :
  0 < shr_m r -> 2 ^ n <= shr_m r ->
  0 < shr_m (fst (shr r e n)) /\ snd (shr r e n) = e + Z.max n 0.
Proof.
  intros Hpos Hn. unfold shr. destruct n as [|p|p]; simpl fst; simpl snd.
  - split; [exact Hpos | lia].
  - rewrite iter_pos_nat, iter_shr_m by lia.
    rewrite positive_nat_Z. split; [|lia].
    apply Z.div_str_pos. split; [apply Z.pow_pos_nonneg; lia | exact Hn].
  - split; [exact Hpos | lia].
Qed.

Lemma Zdigits2_pos (m : positive) : Zdigits2 (Zpos m) = Zpos (digits2_pos m).
Proof. reflexivity. Qed.

Lemma shr_fexp_positive (m : positive) (e : Z) (l : location) :
  emin <= e ->
  0 < shr_m (fst (shr_fexp prec emax (Zpos m) e l))
  /\ emin <= snd (shr_fexp prec emax (Zpos m) e l).
Proof.
  intro He. unfold shr_fexp.
  set (n := fexp prec emax (Zdigits2 (Zpos m) + e) - e).
  assert (Hm : shr_m (shr_record_of_loc (Zpos m) l) = Zpos m)
    by (destruct l as [|[ | | ]]; reflexivity).
  destruct (@shr_positive (shr_record_of_loc (Zpos m) l) e n) as [H1 H2].
  - rewrite Hm. lia.
  - rewrite Hm. pose proof (@digits2_pos_bounds m) as [Hlo _].
    assert (Hn : n <= Zpos (digits2_pos m) - 1).
    { unfold n, fexp. rewrite Zdigits2_pos. unfold prec, emax, SpecFloat.emin in *. lia. }
    destruct (Z.le_gt_cases 0 n).
    + eapply Z.le_trans; [apply Z.pow_le_mono_r; [lia | exact Hn] | exact Hlo].
    + rewrite Z.pow_neg_r by lia. lia.
  - split; [exact H1 | rewrite H2; lia].
Qed.

Lemma round_nearest_even_positive (m : Z) (l : location) :
  0 < m -> 0 < round_nearest_even m l.
Proof.
  intro Hm. unfold round_nearest_even.
  destruct l as [|[ | | ]]; try lia. destruct (Z.even m); lia.
Qed.

(** Rounding a non-zero integer at an exponent not below [emin] never
    gives zero and keeps the sign. *)
Lemma binary_round_aux_sign (s : bool) (m : positive) (e : Z) (l : location) :
  emin <= e ->
  (exists m' e', binary_round_aux prec emax s (Zpos m) e l = S754_finite s m' e')
  \/ binary_round_aux prec emax s (Zpos m) e l = S754_infinity s.
Proof.
  intro He. unfold binary_round_aux.
  destruct (@shr_fexp_positive m e l He) as [H1 H2].
  destruct (shr_fexp prec emax (Zpos m) e l) as [mrs' e']. simpl in H1, H2.
  pose proof (@round_nearest_even_positive (shr_m mrs') (loc_of_shr_record mrs') H1) as H3.
  destruct (round_nearest_even (shr_m mrs') (loc_of_shr_record mrs')) as [|m2|m2]; try lia.
  destruct (@shr_fexp_positive m2 e' loc_Exact H2) as [H4 H5].
  destruct (shr_fexp prec emax (Zpos m2) e' loc_Exact) as [mrs'' e'']. simpl in H4, H5.
  destruct (shr_m mrs'') as [|m3|m3]; try lia.
  destruct (e'' <=? emax - prec); [left; eauto | right; reflexivity].
Qed.

Lemma binary_round_sign (s : bool) (m : positive) (e : Z) :
  emin <= e ->
  (exists m' e', binary_round prec emax s m e = S754_finite s m' e')
  \/ binary_round prec emax s m e = S754_infinity s.
Proof.
  intro He. unfold binary_round.
  destruct (shl_align m e (fexp prec emax (Zpos (digits2_pos m) + e))) as [mz ez] eqn:Hal.
  apply binary_round_aux_sign.
  unfold shl_align in Hal.
  destruct (fexp prec emax (Zpos (digits2_pos m) + e) - e) eqn:Hd;
    injection Hal as <- <-; try exact He.
  unfold fexp. lia.
Qed.

(** ** Order *)

Lemma iter_xO (m d : positive) : Zpos (Pos.iter xO m d) = Zpos m * 2 ^ Zpos d.
Proof.
  induction d as [|d IH] using Pos.peano_ind.
  - simpl. lia.
  - rewrite Pos.iter_succ, Pos2Z.inj_xO, IH, Pos2Z.inj_succ, Z.pow_succ_r by lia. lia.
Qed.

Lemma shl_align_value (mx : positive) (ex ez : Z) :
  ez <= ex -> Zpos (fst (shl_align mx ex ez)) = Zpos mx * 2 ^ (ex - ez).
Proof.
  intro Hle. unfold shl_align. destruct (ez - ex) as [|d|d] eqn:Hd; simpl fst.
  - replace (ex - ez) with 0 by lia. lia.
  - lia.
  - rewrite iter_xO. f_equal. f_equal. lia.
Qed.

Lemma valid_finite (s : bool) (m : positive) (e : Z) :
  valid_binary (S754_finite s m e) = true ->
  emin <= e /\ Zpos (digits2_pos m) <= prec /\ (emin < e -> Zpos (digits2_pos m) = prec).
Proof.
  unfold SpecFloat.valid_binary, bounded, canonical_mantissa, fexp.
  intro Hv. apply andb_true_iff in Hv as [Hc _]. apply Z.eqb_eq in Hc. lia.
Qed.

Lemma compare_scale (a b c : Z) : 0 < c -> (a * c ?= b * c) = (a ?= b).
Proof.
  intro Hc. destruct (Z.compare_spec a b) as [H|H|H].
  - subst. apply Z.compare_refl.
  - apply Z.compare_lt_iff. nia.
  - apply Z.compare_gt_iff. nia.
Qed.

Lemma magnitude_compare (m1 m2 : positive) (e1 e2 : Z) :
  valid_binary (S754_finite false m1 e1) = true ->
  valid_binary (S754_finite false m2 e2) = true ->
  (Zpos m1 * 2 ^ (e1 - emin) ?= Zpos m2 * 2 ^ (e2 - emin))
  = match e1 ?= e2 with
    | Lt => Lt
    | Gt => Gt
    | Eq => Pos.compare_cont Eq m1 m2
    end.
Proof.
  intros H1 H2.
  apply valid_finite in H1 as (He1 & Hd1 & Hn1).
  apply valid_finite in H2 as (He2 & Hd2 & Hn2).
  pose proof (@digits2_pos_bounds m1) as [Hlo1 Hhi1].
  pose proof (@digits2_pos_bounds m2) as [Hlo2 Hhi2].
  assert (Hpow : forall d, Zpos d <= prec -> 2 ^ Zpos d <= 2 ^ prec)
    by (intros; apply Z.pow_le_mono_r; lia).
  assert (Hp : 2 ^ prec = 2 * 2 ^ (prec - 1))
    by (rewrite <- Z.pow_succ_r by (unfold prec; lia); f_equal; lia).
  destruct (e1 ?= e2) eqn:He.
  - apply Z.compare_eq in He. subst e2.
    assert (0 < 2 ^ (e1 - emin)) by (apply Z.pow_pos_nonneg; lia).
    rewrite compare_scale by lia. reflexivity.
  - apply -> Z.compare_lt_iff in He. apply Z.compare_lt_iff.
    rewrite (Hn2 ltac:(lia)) in Hlo2.
    replace (e2 - emin) with ((e2 - e1) + (e1 - emin)) by lia.
    rewrite Z.pow_add_r by lia.
    assert (0 < 2 ^ (e1 - emin)) by (apply Z.pow_pos_nonneg; lia).
    assert (2 ^ 1 <= 2 ^ (e2 - e1)) by (apply Z.pow_le_mono_r; lia).
    specialize (Hpow _ Hd1). change (2 ^ 1) with 2 in *.
    assert (Z.pos m1 < Z.pos m2 * 2 ^ (e2 - e1)) by nia.
    rewrite Z.mul_assoc. apply Z.mul_lt_mono_pos_r; assumption.
  - apply -> Z.compare_gt_iff in He. apply Z.compare_gt_iff.
    rewrite (Hn1 ltac:(lia)) in Hlo1.
    replace (e1 - emin) with ((e1 - e2) + (e2 - emin)) by lia.
    rewrite Z.pow_add_r by lia.
    assert (0 < 2 ^ (e2 - emin)) by (apply Z.pow_pos_nonneg; lia).
    assert (2 ^ 1 <= 2 ^ (e1 - e2)) by (apply Z.pow_le_mono_r; lia).
    specialize (Hpow _ Hd2). change (2 ^ 1) with 2 in *.
    assert (Z.pos m2 < Z.pos m1 * 2 ^ (e1 - e2)) by nia.
    rewrite Z.mul_assoc. apply Z.mul_lt_mono_pos_r; assumption.
Qed.

Lemma valid_sign (s s' : bool) (m : positive) (e : Z) :
  valid_binary (S754_finite s m e) = valid_binary (S754_finite s' m e).
Proof. reflexivity. Qed.

Lemma SFcompare_key (x y : spec_float) :
  valid_binary x = true -> valid_binary y = true ->
  finite_or_zero x = true -> finite_or_zero y = true ->
  SFcompare x y = Some (key x ?= key y).
Proof.
  intros Hx Hy Fx Fy.
  destruct x as [sx|sx| |sx mx ex], y as [sy|sy| |sy my ey]; try discriminate.
  - reflexivity.
  - assert (0 < Zpos my * 2 ^ (ey - emin)).
    { apply valid_finite in Hy as (He & _). apply Z.mul_pos_pos; [lia|].
      apply Z.pow_pos_nonneg; lia. }
    unfold SFcompare, key. destruct sy; cbn [cond_Zopp]; f_equal; symmetry;
      [apply Z.compare_gt_iff | apply Z.compare_lt_iff]; lia.
  - assert (0 < Zpos mx * 2 ^ (ex - emin)).
    { apply valid_finite in Hx as (He & _). apply Z.mul_pos_pos; [lia|].
      apply Z.pow_pos_nonneg; lia. }
    unfold SFcompare, key. destruct sx; cbn [cond_Zopp]; f_equal; symmetry;
      [apply Z.compare_lt_iff | apply Z.compare_gt_iff]; lia.
  - rewrite (@valid_sign sx false) in Hx. rewrite (@valid_sign sy false) in Hy.
    pose proof (@magnitude_compare mx my ex ey Hx Hy) as Hmag.
    assert (0 < Zpos mx * 2 ^ (ex - emin)).
    { apply valid_finite in Hx as (He & _). apply Z.mul_pos_pos; [lia|].
      apply Z.pow_pos_nonneg; lia. }
    assert (0 < Zpos my * 2 ^ (ey - emin)).
    { apply valid_finite in Hy as (He & _). apply Z.mul_pos_pos; [lia|].
      apply Z.pow_pos_nonneg; lia. }
    unfold SFcompare, key. f_equal.
    destruct sx, sy; cbn [cond_Zopp].
    + rewrite Z.compare_opp, (Z.compare_antisym (Zpos mx * 2 ^ (ex - emin))), Hmag.
      destruct (ex ?= ey); reflexivity.
    + symmetry. apply Z.compare_lt_iff. lia.
    + symmetry. apply Z.compare_gt_iff. lia.
    + rewrite Hmag. reflexivity.
Qed.

(** The sign of a difference of finite doubles is that of the exact
    difference: the subtraction does not underflow to zero. *)
Lemma SFsub_key (x y : spec_float) :
  valid_binary x = true -> valid_binary y = true ->
  finite_or_zero x = true -> finite_or_zero y = true ->
  SFcompare (SF64sub x y) (S754_zero false) = Some (key x ?= key y).
Proof.
  intros Hx Hy Fx Fy.
  destruct x as [sx|sx| |sx mx ex], y as [sy|sy| |sy my ey]; try discriminate.
  - destruct sx, sy; reflexivity.
  - change (SF64sub (S754_zero sx) (S754_finite sy my ey)) with (S754_finite (negb sy) my ey).
    rewrite <- (@SFcompare_key (S754_zero sx) (S754_finite sy my ey)) by auto.
    destruct sy; reflexivity.
  - change (SF64sub (S754_finite sx mx ex) (S754_zero sy)) with (S754_finite sx mx ex).
    rewrite <- (@SFcompare_key (S754_finite sx mx ex) (S754_zero sy)) by auto.
    destruct sx; reflexivity.
  - pose proof (@valid_finite _ _ _ Hx) as (Hex & _).
    pose proof (@valid_finite _ _ _ Hy) as (Hey & _).
    unfold SF64sub, SFsub.
    set (ez := Z.min ex ey).
    rewrite !shl_align_value by (unfold ez; lia).
    set (d := cond_Zopp sx (Zpos mx * 2 ^ (ex - ez)) - cond_Zopp sy (Zpos my * 2 ^ (ey - ez))).
    assert (Hscale : key (S754_finite sx mx ex) - key (S754_finite sy my ey)
                     = d * 2 ^ (ez - emin)).
    { unfold key, d.
      replace (ex - emin) with ((ex - ez) + (ez - emin)) by lia.
      replace (ey - emin) with ((ey - ez) + (ez - emin)) by lia.
      rewrite !Z.pow_add_r by (unfold ez; lia).
      destruct sx, sy; cbn [cond_Zopp]; ring. }
    assert (Hc : 0 < 2 ^ (ez - emin)) by (apply Z.pow_pos_nonneg; unfold ez; lia).
    assert (Hsign : (key (S754_finite sx mx ex) ?= key (S754_finite sy my ey)) = (d ?= 0)).
    { rewrite <- (@compare_scale d 0 _ Hc), <- Hscale.
      destruct (Z.compare_spec (key (S754_finite sx mx ex)) (key (S754_finite sy my ey)));
        symmetry; [apply Z.compare_eq_iff | apply Z.compare_lt_iff | apply Z.compare_gt_iff]; lia. }
    rewrite Hsign. unfold binary_normalize.
    destruct d as [|p|p].
    + reflexivity.
    + destruct (@binary_round_sign false p ez ltac:(unfold ez; lia)) as [(m' & e' & ->)| ->];
        reflexivity.
    + destruct (@binary_round_sign true p ez ltac:(unfold ez; lia)) as [(m' & e' & ->)| ->];
        reflexivity.
Qed.

Lemma ordered_cases (x : spec_float) :
  ordered x = true -> finite_or_zero x = true \/ exists s, x = S754_infinity s.
Proof. destruct x; try discriminate; eauto. Qed.

Lemma top_positive : 0 < top.
Proof. apply Z.pow_pos_nonneg; [lia | now vm_compute]. Qed.

Lemma key_range (x : spec_float) :
  valid_binary x = true -> finite_or_zero x = true -> - top < key x < top.
Proof.
  pose proof top_positive as Ht.
  destruct x as [s|s| |s m e]; try discriminate; intros Hv _; cbn [key]; [lia|].
  pose proof (@valid_finite s m e Hv) as (He & Hd & _).
  unfold SpecFloat.valid_binary, bounded in Hv.
  apply andb_true_iff in Hv as [_ Hb]. apply Z.leb_le in Hb.
  pose proof (@digits2_pos_bounds m) as [_ Hhi].
  assert (Hm : Zpos m < 2 ^ prec).
  { eapply Z.lt_le_trans; [exact Hhi|]. apply Z.pow_le_mono_r; lia. }
  assert (Hp : 2 ^ (e - emin) <= 2 ^ (emax - prec - emin))
    by (apply Z.pow_le_mono_r; lia).
  assert (Hpos : 0 < 2 ^ (e - emin)) by (apply Z.pow_pos_nonneg; lia).
  assert (Htop : top = 2 ^ prec * 2 ^ (emax - prec - emin)).
  { unfold top. rewrite <- Z.pow_add_r by (try lia; now vm_compute).
    f_equal; lia. }
  assert (Zpos m * 2 ^ (e - emin) < top) by (rewrite Htop; nia).
  destruct s; cbn [cond_Zopp]; lia.
Qed.

Lemma SFltb_key (x y : spec_float) :
  valid_binary x = true -> valid_binary y = true ->
  ordered x = true -> ordered y = true ->
  SFltb x y = (key x <? key y).
Proof.
  intros Vx Vy Ox Oy. pose proof top_positive as Ht.
  destruct (ordered_cases x Ox) as [Fx|[sx ->]], (ordered_cases y Oy) as [Fy|[sy ->]].
  - unfold SFltb. rewrite (@SFcompare_key x y Vx Vy Fx Fy). reflexivity.
  - pose proof (@key_range x Vx Fx).
    destruct x as [s|s| |s m e]; try discriminate;
      destruct sy; unfold SFltb, key at 2; cbn [SFcompare cond_Zopp];
      symmetry; try (apply Z.ltb_lt; lia); apply Z.ltb_ge; lia.
  - pose proof (@key_range y Vy Fy).
    destruct y as [s|s| |s m e]; try discriminate;
      destruct sx; unfold SFltb, key at 1; cbn [SFcompare cond_Zopp];
      symmetry; try (apply Z.ltb_lt; lia); apply Z.ltb_ge; lia.
  - destruct sx, sy; unfold SFltb, key; cbn [SFcompare cond_Zopp];
      symmetry; try (apply Z.ltb_lt; lia); apply Z.ltb_ge; lia.
Qed.

Lemma SFleb_key (x y : spec_float) :
  valid_binary x = true -> valid_binary y = true ->
  ordered x = true -> ordered y = true ->
  SFleb x y = (key x <=? key y).
Proof.
  intros Vx Vy Ox Oy. pose proof top_positive as Ht.
  destruct (ordered_cases x Ox) as [Fx|[sx ->]], (ordered_cases y Oy) as [Fy|[sy ->]].
  - unfold SFleb. rewrite (@SFcompare_key x y Vx Vy Fx Fy). unfold Z.leb.
    destruct (key x ?= key y); reflexivity.
  - pose proof (@key_range x Vx Fx).
    destruct x as [s|s| |s m e]; try discriminate;
      destruct sy; unfold SFleb, key at 2; cbn [SFcompare cond_Zopp];
      symmetry; try (apply Z.leb_le; lia); apply Z.leb_gt; lia.
  - pose proof (@key_range y Vy Fy).
    destruct y as [s|s| |s m e]; try discriminate;
      destruct sx; unfold SFleb, key at 1; cbn [SFcompare cond_Zopp];
      symmetry; try (apply Z.leb_le; lia); apply Z.leb_gt; lia.
  - destruct sx, sy; unfold SFleb, key; cbn [SFcompare cond_Zopp];
      symmetry; try (apply Z.leb_le; lia); apply Z.leb_gt; lia.
Qed.

Lemma SFcompare_zero (r : spec_float) :
  SFcompare (S754_zero false) r
  = option_map CompOpp (SFcompare r (S754_zero false)).
Proof. destruct r as [s|s| |s m e]; try destruct s; reflexivity. Qed.

(** A difference is negative exactly when the first operand is the
    smaller one; [Infinity - Infinity] is [NaN], which is not negative. *)
Lemma SFsub_negative (x y : spec_float) :
  valid_binary x = true -> valid_binary y = true ->
  ordered x = true -> ordered y = true ->
  SFltb (SF64sub x y) (S754_zero false) = (key x <? key y).
Proof.
  intros Vx Vy Ox Oy. pose proof top_positive as Ht.
  destruct (ordered_cases x Ox) as [Fx|[sx ->]], (ordered_cases y Oy) as [Fy|[sy ->]].
  - unfold SFltb. rewrite (@SFsub_key x y Vx Vy Fx Fy). reflexivity.
  - pose proof (@key_range x Vx Fx).
    destruct x as [s|s| |s m e]; try discriminate;
      destruct sy; unfold key at 2; cbn [cond_Zopp];
      symmetry; try (apply Z.ltb_lt; lia); apply Z.ltb_ge; lia.
  - pose proof (@key_range y Vy Fy).
    destruct y as [s|s| |s m e]; try discriminate;
      destruct sx; unfold key at 1; cbn [cond_Zopp];
      symmetry; try (apply Z.ltb_lt; lia); apply Z.ltb_ge; lia.
  - destruct sx, sy; unfold key; cbn [cond_Zopp];
      symmetry; try (apply Z.ltb_lt; lia); apply Z.ltb_ge; lia.
Qed.

Lemma SFsub_positive (x y : spec_float) :
  valid_binary x = true -> valid_binary y = true ->
  ordered x = true -> ordered y = true ->
  SFltb (S754_zero false) (SF64sub x y) = (key y <? key x).
Proof.
  intros Vx Vy Ox Oy. pose proof top_positive as Ht.
  destruct (ordered_cases x Ox) as [Fx|[sx ->]], (ordered_cases y Oy) as [Fy|[sy ->]].
  - unfold SFltb. rewrite SFcompare_zero, (@SFsub_key x y Vx Vy Fx Fy).
    unfold Z.ltb. rewrite (Z.compare_antisym (key x)).
    cbn [option_map]. destruct (key x ?= key y); reflexivity.
  - pose proof (@key_range x Vx Fx).
    destruct x as [s|s| |s m e]; try discriminate;
      destruct sy; unfold key at 1; cbn [cond_Zopp];
      symmetry; try (apply Z.ltb_lt; lia); apply Z.ltb_ge; lia.
  - pose proof (@key_range y Vy Fy).
    destruct y as [s|s| |s m e]; try discriminate;
      destruct sx; unfold key at 2; cbn [cond_Zopp];
      symmetry; try (apply Z.ltb_lt; lia); apply Z.ltb_ge; lia.
  - destruct sx, sy; unfold key; cbn [cond_Zopp];
      symmetry; try (apply Z.ltb_lt; lia); apply Z.ltb_ge; lia.
Qed.

Lemma number_spec (x : float) :
  PrimFloat.is_nan x = false ->
  valid_binary (Prim2SF x) = true /\ ordered (Prim2SF x) = true.
Proof.
  intro Hnan. split; [apply FloatAxioms.Prim2SF_valid|].
  unfold Prim2SF. rewrite Hnan.
  destruct (is_zero x); [reflexivity|].
  destruct (is_infinity x); [reflexivity|].
  destruct (Z.frexp x) as [r ex].
  destruct (shr_fexp _ _ _ _ _) as [mrs e'].
  destruct (shr_m mrs); reflexivity.
Qed.

Lemma ltb_key (x y : float) :
  PrimFloat.is_nan x = false -> PrimFloat.is_nan y = false ->
  PrimFloat.ltb x y = (keyOf x <? keyOf y).
Proof.
  intros Hx Hy. destruct (number_spec x Hx) as [Vx Ox], (number_spec y Hy) as [Vy Oy].
  rewrite FloatAxioms.ltb_spec. now apply SFltb_key.
Qed.

Lemma leb_key (x y : float) :
  PrimFloat.is_nan x = false -> PrimFloat.is_nan y = false ->
  PrimFloat.leb x y = (keyOf x <=? keyOf y).
Proof.
  intros Hx Hy. destruct (number_spec x Hx) as [Vx Ox], (number_spec y Hy) as [Vy Oy].
  rewrite FloatAxioms.leb_spec. now apply SFleb_key.
Qed.

Lemma sub_negative (x y : float) :
  PrimFloat.is_nan x = false -> PrimFloat.is_nan y = false ->
  PrimFloat.ltb (PrimFloat.sub x y) PrimFloat.zero = (keyOf x <? keyOf y).
Proof.
  intros Hx Hy. destruct (number_spec x Hx) as [Vx Ox], (number_spec y Hy) as [Vy Oy].
  rewrite FloatAxioms.ltb_spec, FloatAxioms.sub_spec.
  change (Prim2SF PrimFloat.zero) with (S754_zero false). now apply SFsub_negative.
Qed.

Lemma sub_positive (x y : float) :
  PrimFloat.is_nan x = false -> PrimFloat.is_nan y = false ->
  PrimFloat.ltb PrimFloat.zero (PrimFloat.sub x y) = (keyOf y <? keyOf x).
Proof.
  intros Hx Hy. destruct (number_spec x Hx) as [Vx Ox], (number_spec y Hy) as [Vy Oy].
  rewrite FloatAxioms.ltb_spec, FloatAxioms.sub_spec.
  change (Prim2SF PrimFloat.zero) with (S754_zero false). now apply SFsub_positive.
Qed.

Lemma zero_literal : ofQ (N:=float) 0 = PrimFloat.zero.
Proof. vm_compute. reflexivity. Qed.

Lemma float_subtractionOrders : subtractionOrders float.
Proof.
  intros x y z. cbn [nIsNaN nltb nsub nleb JSFloat.number]. unfold JSFloat.isNaN.
  intros Hx Hy Hz. rewrite zero_literal.
  rewrite (sub_negative _ _ Hx Hy), (sub_positive _ _ Hx Hy).
  rewrite (ltb_key _ _ Hx Hy), (ltb_key _ _ Hy Hx), (ltb_key _ _ Hx Hx),
          (ltb_key _ _ Hy Hz), (ltb_key _ _ Hx Hz), (leb_key _ _ Hx Hy).
  repeat split.
  - apply Z.leb_antisym.
  - apply Z.ltb_irrefl.
  - intros H1 H2. apply Z.ltb_lt in H1, H2. apply Z.ltb_lt. lia.
  - intros H1 H2. apply Z.ltb_ge in H1, H2. apply Z.ltb_ge. lia.
Qed.

End FloatOrder.

(** ** The route [fetchRoute] returns when detours are evaluated *)

Section ChoiceFacts.

Context {N : Type} `{Number N} `{Sqrt N}.
Variable engine : Engine.
Variable provider : Provider N.

Lemma fetchRoute_independent (completion completion' : list nat) (start end_ : Coordinate N)
      (floodZones : list (FloodZone N)) (avoidHazards : bool)
      (log log' : list (Request N)) :
  fst (fetchRoute provider completion start end_ floodZones avoidHazards log)
  = fst (fetchRoute provider completion' start end_ floodZones avoidHazards log').
Proof. now rewrite !fetchRoute_outcome. Qed.

Lemma outcomes_fetched (start end_ : Coordinate N) (floodZones : list (FloodZone N))
      (candidates : list (DetourCandidate N))
      (results : list (option (RouteEvaluation N))) :
  Forall2 (fun c r => candidateOutcome provider start end_ floodZones c = Value r)
          candidates results ->
  allValues (map (candidateOutcome provider start end_ floodZones) candidates)
  = Some results.
Proof.
  intro Hres. apply allValues_fetched.
  induction Hres; constructor; assumption.
Qed.

Lemma outcomes_results (start end_ : Coordinate N) (floodZones : list (FloodZone N))
      (candidates : list (DetourCandidate N))
      (results : list (option (RouteEvaluation N))) :
  allValues (map (candidateOutcome provider start end_ floodZones) candidates)
  = Some results ->
  Forall2 (fun c r => candidateOutcome provider start end_ floodZones c = Value r)
          candidates results.
Proof.
  revert results. induction candidates as [|c candidates IH]; intros results Hall.
  - injection Hall as <-. constructor.
  - cbn [map allValues] in Hall.
    destruct (candidateOutcome provider start end_ floodZones c) as [r|e] eqn:Hc;
      [|discriminate].
    destruct (allValues _) as [rs|]; [|discriminate].
    injection Hall as <-. constructor; [exact Hc | now apply IH].
Qed.

Section DetourChoice.

Variables (completion : list nat) (start end_ : Coordinate N)
          (floodZones : list (FloodZone N)) (log : list (Request N))
          (d : RouteData N) (metaZone : FloodZone N).

Hypothesis direct : directOutcome provider start end_ = Value (Some d).
Hypothesis crossing : calculateRouteHazardScore (coordinates d) floodZones <> 0.
Hypothesis combined :
  getCombinedHazardZone (filter (doesRouteIntersectFlood (coordinates d)) floodZones)
  = Some metaZone.

(** One evaluation that throws, and [fetchRoute] returns [null]. *)
Lemma fetchRoute_rejected (candidate : DetourCandidate N) (e : string) :
  In candidate (generateDetourWaypoints start end_ metaZone) ->
  candidateOutcome provider start end_ floodZones candidate = Thrown e ->
  fst (fetchRoute provider completion start end_ floodZones true log) = Value None.
Proof.
  intros Hin Hthrown. rewrite fetchRoute_outcome, direct. cbn [negb].
  apply Nat.eqb_neq in crossing. rewrite crossing, combined.
  rewrite (@allValues_rejected _ _ e); [reflexivity|].
  rewrite <- Hthrown. now apply in_map.
Qed.

(** No evaluation throws: the route is that of a least evaluation among
    those fetched, or the direct one when none was. *)
Lemma fetchRoute_least (results : list (option (RouteEvaluation N))) :
  conforming engine ->
  subtractionOrders N ->
  Forall2 (fun c r => candidateOutcome provider start end_ floodZones c = Value r)
          (generateDetourWaypoints start end_ metaZone) results ->
  (forall e, In (Some e) results -> knownDistance e) ->
  (exists best,
      In (Some best) results
      /\ (forall e, In (Some e) results -> atLeastAsGood best e)
      /\ fst (fetchRoute provider completion start end_ floodZones true log)
         = Value (Some (route best)))
  \/ ((forall e, ~ In (Some e) results)
      /\ fst (fetchRoute provider completion start end_ floodZones true log)
         = Value (Some d)).
Proof.
  intros Hengine Harith Hres Hknown. rewrite fetchRoute_outcome, direct. cbn [negb].
  apply Nat.eqb_neq in crossing. rewrite crossing, combined.
  pose proof Hres as Hall. apply outcomes_fetched in Hall. rewrite Hall.
  destruct (filterNonNull results) as [|ev evs] eqn:Hvalid.
  - right. split; [|reflexivity].
    intros e He. apply filterNonNull_In in He. now rewrite Hvalid in He.
  - left. cbn [List.length Nat.ltb Nat.leb].
    destruct (arraySort compareEvaluations (ev :: evs)) as [|best others] eqn:Hsort;
      [apply (@arraySort_nil engine _ compareEvaluations _ Hengine) in Hsort; discriminate|].
    assert (Hfetched : Forall knownDistance (ev :: evs)).
    { apply Forall_forall. intros e He. apply Hknown.
      apply filterNonNull_In. now rewrite Hvalid. }
    destruct (@first_is_least _ _ Harith engine _ _ _ Hengine Hfetched Hsort)
      as [Hin Hleast].
    exists best. rewrite <- Hvalid in Hin, Hleast. split; [|split].
    + now apply filterNonNull_In.
    + intros e He. apply Hleast. now apply filterNonNull_In.
    + reflexivity.
Qed.

End DetourChoice.

Lemma transformRouteData_legless (response : OSRMResponse N) (r : OSRMRoute N)
      (rs : list (OSRMRoute N)) :
  routes response = r :: rs -> legs r = [] ->
  exists e, transformRouteData (Some response) = Thrown e.
Proof.
  intros Hroutes Hlegs. unfold transformRouteData. rewrite Hroutes, Hlegs. eauto.
Qed.

Lemma getCombinedHazardZone_none (zones : list (FloodZone N)) :
  getCombinedHazardZone zones = None <-> zones = [].
Proof.
  split.
  - destruct zones; [reflexivity | discriminate].
  - intros ->. reflexivity.
Qed.

Lemma isCompromised_filter (r : RouteData N) (zones : list (FloodZone N)) :
  isCompromised r zones
  = negb (match filter (doesRouteIntersectFlood (coordinates r)) zones with
          | [] => true
          | _ => false
          end).
Proof.
  unfold isCompromised. induction zones as [|z zones IH]; [reflexivity|].
  simpl. destruct (doesRouteIntersectFlood (coordinates r) z); [reflexivity | exact IH].
Qed.

End ChoiceFacts.

(** ** The stated properties *)

(** C2 (code bug).  The route [fetchRoute] settles with does not depend on
    the order in which the answers arrive, nor on what was sent before.
    When the direct route has a non-zero hazard score and detours are
    evaluated around the combined hazard: if each of the eight evaluations
    settles with an evaluation or with [null], then, on an engine whose
    [sort] conforms to ECMAScript and for total distances other than [NaN],
    the route returned is that of an evaluation that was fetched and that
    ranks at least as high as every evaluation fetched (a lower hazard
    score, or the same score and a total distance that is not larger), and
    it is the direct route when none was fetched; but if the answer for one
    detour holds a route without legs, [fetchRoute] returns [null], whatever
    the evaluations fetched for the other detours. *)
Theorem selection_is_least_unless_a_detour_has_no_legs :
  forall (N : Type) (HN : Number N) (HS : Sqrt N) (engine : Engine) (provider : Provider N)
         (start end_ : Coordinate N) (floodZones : list (FloodZone N)),
    (forall (completion completion' : list nat) (avoidHazards : bool)
            (log log' : list (Request N)),
        fst (fetchRoute provider completion start end_ floodZones avoidHazards log)
        = fst (fetchRoute provider completion' start end_ floodZones avoidHazards log'))
    /\ forall (d : RouteData N) (metaZone : FloodZone N),
        directOutcome provider start end_ = Value (Some d) ->
        calculateRouteHazardScore (coordinates d) floodZones <> 0 ->
        getCombinedHazardZone
          (filter (doesRouteIntersectFlood (coordinates d)) floodZones) = Some metaZone ->
        (forall (completion : list nat) (log : list (Request N))
                (results : list (option (RouteEvaluation N))),
            conforming engine ->
            subtractionOrders N ->
            Forall2 (fun c r => candidateOutcome provider start end_ floodZones c = Value r)
                    (generateDetourWaypoints start end_ metaZone) results ->
            (forall e, In (Some e) results -> knownDistance e) ->
            (exists best,
                In (Some best) results
                /\ (forall e, In (Some e) results -> atLeastAsGood best e)
                /\ fst (fetchRoute provider completion start end_ floodZones true log)
                   = Value (Some (route best)))
            \/ ((forall e, ~ In (Some e) results)
                /\ fst (fetchRoute provider completion start end_ floodZones true log)
                   = Value (Some d)))
        /\ (forall (completion : list nat) (log : list (Request N))
                   (candidate : DetourCandidate N) (response : OSRMResponse N)
                   (r : OSRMRoute N) (rs : list (OSRMRoute N)),
               In candidate (generateDetourWaypoints start end_ metaZone) ->
               fetched provider [start; waypoint candidate; end_] = Some response ->
               routes response = r :: rs ->
               legs r = [] ->
               fst (fetchRoute provider completion start end_ floodZones true log)
               = Value None).
Proof.
  intros N HN HS engine provider start end_ floodZones. split.
  - intros. apply fetchRoute_independent.
  - intros d metaZone Hdirect Hscore Hmeta. split.
    + intros completion log results Hengine Harith Hres Hknown.
      now apply (@fetchRoute_least _ _ _ engine provider completion start end_ floodZones
                                   log d metaZone).
    + intros completion log candidate response r rs Hin Hfetched Hroutes Hlegs.
      destruct (transformRouteData_legless response Hroutes Hlegs) as [e He].
      apply (@fetchRoute_rejected _ _ _ engine provider completion start end_ floodZones
                                  log d metaZone Hdirect Hscore Hmeta candidate e Hin).
      unfold candidateOutcome. now rewrite Hfetched, He.
Qed.

(** The sample query against [leglessProvider], on the engine that sorts by
    insertion: seven of the eight detours are fetched, each with a route of
    hazard score 0, the answer for the eighth holds a route without legs,
    and [fetchRoute] returns [null]. *)
Lemma legless_detour_witness :
  let start := q_start (N:=float) sampleQuery in
  let end_ := q_end (N:=float) sampleQuery in
  let zones := q_zones (N:=float) sampleQuery in
  fst (fetchRoute (engine:=insertionEngine) leglessProvider (seq 0 8) start end_ zones
                  true [])
  = Value None
  /\ List.length
       (filter (fun o => match o with
                         | Value (Some e) => (hazardScore e =? 0)%nat
                         | _ => false
                         end)
               (map (candidateOutcome leglessProvider start end_ zones)
                    (generateDetourWaypoints start end_ sampleHazard)))
     = 7.
Proof.
  cbv zeta. split; [|vm_compute; reflexivity].
  pose (candidate := nth 3 (generateDetourWaypoints (q_start (N:=float) sampleQuery)
                                                    (q_end sampleQuery) sampleHazard)
                         {| cand_type := "none"; waypoint := q_start sampleQuery |}).
  pose (legless := {| geometry_coordinates := @nil (float * float);
                      distance := ofQ 2600; duration := ofQ 260;
                      route_bbox := None; legs := [] |}).
  assert (Hscore : calculateRouteHazardScore
                     (coordinates (routeDataOf (N:=float) [startPoint; midPoint; endPoint] 2000))
                     (q_zones sampleQuery) <> 0)
    by (vm_compute; discriminate).
  assert (Hmeta : getCombinedHazardZone
                    (filter (doesRouteIntersectFlood
                               (coordinates (routeDataOf (N:=float)
                                                         [startPoint; midPoint; endPoint] 2000)))
                            (q_zones sampleQuery))
                  = Some sampleHazard)
    by (vm_compute; reflexivity).
  assert (Hin : In candidate (generateDetourWaypoints (q_start (N:=float) sampleQuery)
                                                      (q_end sampleQuery) sampleHazard)).
  { apply nth_In. cbn [List.length generateDetourWaypoints app]. lia. }
  assert (Hfetched : fetched leglessProvider
                             [q_start (N:=float) sampleQuery; waypoint candidate;
                              q_end sampleQuery]
                     = Some {| routes := [legless] |})
    by (vm_compute; reflexivity).
  assert (Hdirect : directOutcome (N:=float) leglessProvider (q_start sampleQuery)
                                  (q_end sampleQuery)
                    = Value (Some (routeDataOf [startPoint; midPoint; endPoint] 2000)))
    by (vm_compute; reflexivity).
  exact (proj2 (proj2 (@selection_is_least_unless_a_detour_has_no_legs
                         float _ _ insertionEngine leglessProvider
                         (q_start (N:=float) sampleQuery) (q_end sampleQuery)
                         (q_zones sampleQuery))
                      (routeDataOf [startPoint; midPoint; endPoint] 2000) sampleHazard
                      Hdirect Hscore Hmeta)
               (seq 0 8) [] candidate {| routes := [legless] |} legless []
               Hin Hfetched eq_refl eq_refl).
Defined.

(** With [stubbornProvider] the direct route has hazard score 1, and
    [calculateRoute] ends with a detour of hazard score 2 as the route: not
    a lower score, and not the direct route. *)
Lemma detour_no_better_than_direct :
  let st' := calculateRoute (N:=float) (engine:=insertionEngine) stubbornProvider (seq 0 8)
                            sampleQuery initialState in
  let direct := routeDataOf [startPoint; midPoint; endPoint] 2000 in
  let detour := routeDataOf [startPoint; midPoint; midPoint2; endPoint] 2600 in
  directOutcome stubbornProvider (q_start sampleQuery) (q_end sampleQuery)
  = Value (Some direct)
  /\ activeRoute st' = Some detour
  /\ calculateRouteHazardScore (coordinates direct) (q_zones sampleQuery) = 1
  /\ calculateRouteHazardScore (coordinates detour) (q_zones sampleQuery) = 2
  /\ List.length (coordinates detour) <> List.length (coordinates direct)
  /\ isBlocked st' = true.
Proof.
  cbv zeta. repeat split; try (vm_compute; reflexivity).
  vm_compute. discriminate.
Qed.

(** C1 (amended).  Let the direct route be fetched with a non-zero hazard
    score and let [calculateRoute] run with [avoidHazards = true], on an
    engine whose [sort] conforms to ECMAScript.  If some zone intersects the
    direct route, eight detours are evaluated; when each evaluation settles
    with an evaluation or with [null], the total distances fetched being
    numbers, the route becomes that of an evaluation that was fetched and
    that ranks at least as high as every evaluation fetched (a lower hazard
    score, or the same score and a total distance that is not larger),
    whatever its score compared to the direct route's, and [blocked] tells
    whether that route intersects a zone; when no detour was fetched the
    route is the direct one and [blocked] is true.  If no zone intersects
    the direct route, the route is the direct one and [blocked] is false.
    In exact arithmetic the hazard score of a route is non-zero exactly when
    some zone intersects it, so that last case does not arise there. *)
Theorem plan_route_ranked_detour_or_direct :
  (forall (N : Type) (HN : Number N) (HS : Sqrt N) (engine : Engine) (provider : Provider N)
          (completion : list nat) (q : RouteQuery N) (st : AppState N) (d : RouteData N),
      conforming engine ->
      subtractionOrders N ->
      invalidQuery q = false ->
      q_avoidHazards q = true ->
      directOutcome provider (q_start q) (q_end q) = Value (Some d) ->
      calculateRouteHazardScore (coordinates d) (q_zones q) <> 0 ->
      let st' := calculateRoute provider completion q st in
      match getCombinedHazardZone
              (filter (doesRouteIntersectFlood (coordinates d)) (q_zones q)) with
      | None => activeRoute st' = Some d /\ isBlocked st' = false
      | Some metaZone =>
          forall results : list (option (RouteEvaluation N)),
            Forall2 (fun c r =>
                       candidateOutcome provider (q_start q) (q_end q) (q_zones q) c
                       = Value r)
                    (generateDetourWaypoints (q_start q) (q_end q) metaZone) results ->
            (forall e, In (Some e) results -> knownDistance e) ->
            (exists best,
                In (Some best) results
                /\ (forall e, In (Some e) results -> atLeastAsGood best e)
                /\ activeRoute st' = Some (route best)
                /\ isBlocked st' = isCompromised (route best) (q_zones q))
            \/ ((forall e, ~ In (Some e) results)
                /\ activeRoute st' = Some d
                /\ isBlocked st' = true)
      end)
  /\ (forall (route : list (Coordinate Q)) (zones : list (FloodZone Q)),
         (calculateRouteHazardScore (N:=exact) (map coordinateOf route) (map zoneOf zones)
          =? 0)%nat
         = negb (existsb (doesRouteIntersectFlood (N:=exact) (map coordinateOf route))
                         (map zoneOf zones))).
Proof.
  split; [|exact RankFacts.score_zero_iff_clear].
  intros N HN HS engine provider completion q st d Hengine Harith Hvalid Havoid Hdirect
         Hscore.
  cbv zeta.
  destruct (@calculateRoute_result _ _ _ provider engine completion q st Hvalid)
    as (Hroute & Hblocked & _).
  rewrite Havoid in Hroute, Hblocked.
  pose proof (isCompromised_filter d (q_zones q)) as Hcomp.
  destruct (getCombinedHazardZone _) as [metaZone|] eqn:Hmeta.
  - intros results Hres Hknown.
    destruct (@fetchRoute_least _ _ _ engine provider completion (q_start q) (q_end q)
                                (q_zones q) [] d metaZone Hdirect Hscore Hmeta results
                                Hengine Harith Hres Hknown)
      as [(best & Hin & Hleast & Hfetch)|(Hnone & Hfetch)];
      rewrite Hfetch in Hroute, Hblocked.
    + left. exists best. auto.
    + right. repeat split; auto. rewrite Hblocked, Hcomp.
      destruct (filter _ (q_zones q)); [discriminate | reflexivity].
  - rewrite fetchRoute_outcome, Hdirect in Hroute, Hblocked. cbn [negb] in Hroute, Hblocked.
    apply Nat.eqb_neq in Hscore. rewrite Hscore, Hmeta in Hroute, Hblocked.
    split; [exact Hroute|]. rewrite Hblocked, Hcomp.
    apply getCombinedHazardZone_none in Hmeta. now rewrite Hmeta.
Qed.

(** The sample query against [stubbornProvider], on the engine that sorts by
    insertion. *)
Lemma plan_route_witness :
  let st' := calculateRoute (N:=float) (engine:=insertionEngine) stubbornProvider (seq 0 8)
                            sampleQuery initialState in
  (calculateRouteHazardScore
     (coordinates (routeDataOf (N:=float) [startPoint; midPoint; endPoint] 2000))
     (q_zones sampleQuery) <> 0)
  /\ activeRoute st' = Some (routeDataOf [startPoint; midPoint; midPoint2; endPoint] 2600)
  /\ isBlocked st' = true.
Proof.
  cbv zeta.
  assert (Hscore : calculateRouteHazardScore
                     (coordinates (routeDataOf (N:=float) [startPoint; midPoint; endPoint] 2000))
                     (q_zones sampleQuery) <> 0)
    by (vm_compute; discriminate).
  split; [exact Hscore|].
  pose proof (proj1 plan_route_ranked_detour_or_direct float _ _ insertionEngine
                    stubbornProvider (seq 0 8) sampleQuery initialState
                    (routeDataOf [startPoint; midPoint; endPoint] 2000)
                    insertionEngine_conforming FloatOrder.float_subtractionOrders
                    eq_refl eq_refl eq_refl Hscore) as W.
  cbv zeta in W.
  assert (Hmeta : getCombinedHazardZone
                    (filter (doesRouteIntersectFlood
                               (coordinates (routeDataOf (N:=float)
                                                         [startPoint; midPoint; endPoint] 2000)))
                            (q_zones sampleQuery))
                  = Some sampleHazard)
    by (vm_compute; reflexivity).
  rewrite Hmeta in W.
  pose (results :=
          match allValues (map (candidateOutcome (N:=float) stubbornProvider
                                                 (q_start sampleQuery) (q_end sampleQuery)
                                                 (q_zones sampleQuery))
                               (generateDetourWaypoints (q_start sampleQuery)
                                                        (q_end sampleQuery) sampleHazard)) with
          | Some rs => rs
          | None => []
          end).
  assert (Hall : allValues (map (candidateOutcome (N:=float) stubbornProvider
                                                  (q_start sampleQuery) (q_end sampleQuery)
                                                  (q_zones sampleQuery))
                                (generateDetourWaypoints (q_start sampleQuery)
                                                         (q_end sampleQuery) sampleHazard))
                 = Some results)
    by (vm_compute; reflexivity).
  apply outcomes_results in Hall.
  assert (Hknown : forall e, In (Some e) results -> knownDistance e).
  { intros e He. vm_compute in He.
    repeat (destruct He as [He|He]; [injection He as <-; reflexivity|]).
    destruct He. }
  destruct (W results Hall Hknown) as [(best & Hin & _ & Hroute & Hblocked)|(Hnone & _)].
  - rewrite Hroute, Hblocked. vm_compute in Hin.
    repeat (destruct Hin as [Hin|Hin];
            [injection Hin as <-; split; vm_compute; reflexivity|]).
    destruct Hin.
  - exfalso.
    assert (Hex : exists e, In (Some e) results)
      by (vm_compute; eexists; left; reflexivity).
    destruct Hex as [e He]. exact (Hnone e He).
Defined.

(** The same on every conforming engine: each of the eight detours is
    fetched with that route, so that the order of the sorted evaluations
    does not matter. *)
Lemma stubborn_detour_on_every_engine (engine : Engine) :
  conforming engine ->
  let st' := calculateRoute (N:=float) (engine:=engine) stubbornProvider (seq 0 8)
                            sampleQuery initialState in
  activeRoute st' = Some (routeDataOf [startPoint; midPoint; midPoint2; endPoint] 2600)
  /\ isBlocked st' = true.
Proof.
  intro Hengine. cbv zeta.
  assert (Hvalid : invalidQuery (N:=float) sampleQuery = false) by (vm_compute; reflexivity).
  destruct (@calculateRoute_result float _ _ stubbornProvider engine (seq 0 8) sampleQuery
                                   initialState Hvalid)
    as (Hroute & Hblocked & _).
  assert (Hscore : calculateRouteHazardScore
                     (coordinates (routeDataOf (N:=float) [startPoint; midPoint; endPoint] 2000))
                     (q_zones sampleQuery) <> 0)
    by (vm_compute; discriminate).
  assert (Hmeta : getCombinedHazardZone
                    (filter (doesRouteIntersectFlood
                               (coordinates (routeDataOf (N:=float)
                                                         [startPoint; midPoint; endPoint] 2000)))
                            (q_zones sampleQuery))
                  = Some sampleHazard)
    by (vm_compute; reflexivity).
  assert (Hdirect : directOutcome (N:=float) stubbornProvider (q_start sampleQuery)
                                  (q_end sampleQuery)
                    = Value (Some (routeDataOf [startPoint; midPoint; endPoint] 2000)))
    by (vm_compute; reflexivity).
  pose (results :=
          match allValues (map (candidateOutcome (N:=float) stubbornProvider
                                                 (q_start sampleQuery) (q_end sampleQuery)
                                                 (q_zones sampleQuery))
                               (generateDetourWaypoints (q_start sampleQuery)
                                                        (q_end sampleQuery) sampleHazard)) with
          | Some rs => rs
          | None => []
          end).
  assert (Hall : allValues (map (candidateOutcome (N:=float) stubbornProvider
                                                  (q_start sampleQuery) (q_end sampleQuery)
                                                  (q_zones sampleQuery))
                                (generateDetourWaypoints (q_start sampleQuery)
                                                         (q_end sampleQuery) sampleHazard))
                 = Some results)
    by (vm_compute; reflexivity).
  apply outcomes_results in Hall.
  assert (Hknown : forall e, In (Some e) results -> knownDistance e).
  { intros e He. vm_compute in He.
    repeat (destruct He as [He|He]; [injection He as <-; reflexivity|]).
    destruct He. }
  destruct (@fetchRoute_least _ _ _ engine stubbornProvider (seq 0 8)
                              (q_start sampleQuery) (q_end sampleQuery)
                              (q_zones sampleQuery) [] _ sampleHazard Hdirect Hscore Hmeta
                              results Hengine FloatOrder.float_subtractionOrders Hall Hknown)
    as [(best & Hin & _ & Hfetch)|(Hnone & _)].
  - change (q_avoidHazards (N:=float) sampleQuery) with true in Hroute, Hblocked.
    rewrite Hfetch in Hroute, Hblocked. rewrite Hroute, Hblocked. vm_compute in Hin.
    repeat (destruct Hin as [Hin|Hin];
            [injection Hin as <-; split; vm_compute; reflexivity|]).
    destruct Hin.
  - exfalso.
    assert (Hex : exists e, In (Some e) results)
      by (vm_compute; eexists; left; reflexivity).
    destruct Hex as [e He]. exact (Hnone e He).
Qed.


(* ================================================================== *)
(** * 25. The rerouting flag *)
(* ================================================================== *)

Section FlagFacts.

Context {N : Type} `{Number N} `{Sqrt N}.

Lemma begin_cases (q : RouteQuery N) (st : AppState N) :
  (invalidQuery q = true /\ calculateRoute_begin q st = st)
  \/ (invalidQuery q = false
      /\ rerouting (navStatus (calculateRoute_begin q st)) = true
      /\ isNavigating (navStatus (calculateRoute_begin q st)) = isNavigating (navStatus st)
      /\ pending (calculateRoute_begin q st) = pending st ++ [q]).
Proof.
  unfold calculateRoute_begin. destruct (invalidQuery q); [left | right]; auto.
Qed.

Lemma settle_flags (q : RouteQuery N) (routeData : option (RouteData N))
      (rest : list (RouteQuery N)) (st : AppState N) :
  rerouting (navStatus (calculateRoute_settle q routeData rest st)) = false
  /\ isNavigating (navStatus (calculateRoute_settle q routeData rest st))
     = isNavigating (navStatus st)
  /\ pending (calculateRoute_settle q routeData rest st) = rest.
Proof.
  unfold calculateRoute_settle. destruct routeData as [r|]; [|repeat split].
  destruct (isCompromised r (q_zones q)), (q_avoidHazards q), (q_isAutoReroute q);
    repeat split.
Qed.

Lemma hazardCheck_suppressed (snap st : AppState N) :
  rerouting (navStatus snap) = true -> hazardCheckEffect snap st = st.
Proof.
  intro Hflag. unfold hazardCheckEffect. rewrite Hflag.
  destruct (activeRoute snap); [|reflexivity].
  now rewrite andb_false_r.
Qed.

(** The effect either does nothing or starts one evaluation, and it starts
    one only from a navigating render whose flag is clear. *)
Lemma hazardCheck_cases (snap st : AppState N) :
  hazardCheckEffect snap st = st
  \/ (isNavigating (navStatus snap) = true /\ rerouting (navStatus snap) = false
      /\ exists q, hazardCheckEffect snap st = calculateRoute_begin q st).
Proof.
  unfold hazardCheckEffect.
  destruct (activeRoute snap) as [r|]; [|now left].
  destruct (isNavigating (navStatus snap)); [|now left].
  destruct (0 <? List.length (floodZones snap))%nat; [|now left].
  destruct (rerouting (navStatus snap)); [now left|]. cbn [negb andb].
  destruct (isCompromised r (floodZones snap)); [|now left].
  destruct (destination snap) as [dest|]; [|now left].
  right. repeat split. eexists. reflexivity.
Qed.

Lemma hazardCheck_singleFlight (snap : AppState N) :
  singleFlight snap -> singleFlight (hazardCheckEffect snap snap).
Proof.
  intros [Hlen Hflag].
  destruct (hazardCheck_cases snap snap) as [->|(Hnav & Hre & q & ->)]; [now split|].
  assert (Hnone : pending snap = []).
  { destruct (pending snap) as [|q0 rest] eqn:Hp; [reflexivity|].
    destruct Hflag as [Hf|Hf]; [discriminate | congruence | congruence]. }
  destruct (begin_cases q snap) as [[_ ->]|(_ & Hr & _ & Hp)]; [now split|].
  unfold singleFlight. rewrite Hp, Hr, Hnone. simpl. split; [lia | now left].
Qed.

Lemma stopSimulation_flags (st : AppState N) :
  rerouting (navStatus (stopSimulation st)) = false
  /\ isNavigating (navStatus (stopSimulation st)) = false
  /\ pending (stopSimulation st) = pending st.
Proof. repeat split. Qed.

Lemma abortNavigation_flags (st : AppState N) :
  rerouting (navStatus (abortNavigation st)) = false
  /\ isNavigating (navStatus (abortNavigation st)) = false
  /\ pending (abortNavigation st) = pending st.
Proof. repeat split. Qed.

Lemma completeNavigation_flags (st : AppState N) :
  rerouting (navStatus (completeNavigation st)) = false
  /\ isNavigating (navStatus (completeNavigation st)) = false
  /\ pending (completeNavigation st) = pending st.
Proof. repeat split. Qed.

Lemma routeSettled_singleFlight (routeData : option (RouteData N)) (st : AppState N) :
  singleFlight st -> singleFlight (routeSettled routeData st).
Proof.
  intros [Hlen Hflag]. unfold routeSettled.
  destruct (pending st) as [|q rest] eqn:Hp; [split; [rewrite Hp; simpl; lia | now rewrite Hp]|].
  apply hazardCheck_singleFlight.
  destruct (settle_flags q routeData rest st) as (Hr & Hn & Hrest).
  unfold singleFlight. rewrite Hrest.
  destruct rest as [|q' rest']; [|simpl in Hlen; lia].
  split; [simpl; lia | congruence].
Qed.

Section WithPositions.

Context `{Trig N}.

Lemma handleSuccess_flags (coords : GeolocationCoordinates N) (st : AppState N) :
  pending (handleSuccess coords st) = pending st
  /\ ((rerouting (navStatus (handleSuccess coords st)) = rerouting (navStatus st)
       /\ isNavigating (navStatus (handleSuccess coords st)) = isNavigating (navStatus st))
      \/ isNavigating (navStatus (handleSuccess coords st)) = false).
Proof.
  unfold handleSuccess.
  destruct (isSimulating st); [split; auto|].
  destruct (nIsNaN (latitude coords) || nIsNaN (longitude coords)); [split; auto|].
  destruct (smooth _ _ _) as [smoothed smoother].
  destruct (isNavigating (navStatus st)) eqn:Hnav.
  - destruct (destination st) as [dest|].
    + destruct (nltb _ _).
      * split; [reflexivity | right; reflexivity].
      * split; [reflexivity | left; split; [reflexivity | simpl; congruence]].
    + split; [reflexivity | left; split; [reflexivity | simpl; congruence]].
  - split; [reflexivity | right; simpl; congruence].
Qed.

Lemma positionFix_singleFlight (coords : GeolocationCoordinates N) (st : AppState N) :
  singleFlight st -> singleFlight (positionFix coords st).
Proof.
  intros [Hlen Hflag]. unfold positionFix.
  destruct (isSimulating st || nIsNaN (latitude coords) || nIsNaN (longitude coords));
    [now split|].
  apply hazardCheck_singleFlight.
  destruct (handleSuccess_flags coords st) as [Hp Hcases].
  unfold singleFlight. rewrite Hp. split; [exact Hlen|].
  intro Hne. destruct Hcases as [[Hr Hn]|Hn]; [|now right].
  rewrite Hr, Hn. now apply Hflag.
Qed.

Lemma monitorStep_singleFlight (st : AppState N) (e : MonitorEvent N) :
  singleFlight st -> singleFlight (monitorStep st e).
Proof.
  intro Hinv. destruct e as [coords|routeData|]; cbn [monitorStep].
  - now apply positionFix_singleFlight.
  - now apply routeSettled_singleFlight.
  - destruct Hinv as [Hlen _].
    destruct (abortNavigation_flags st) as (_ & Hn & Hp).
    unfold singleFlight. rewrite Hp. split; [exact Hlen | intros _; now right].
Qed.

Lemma monitor_singleFlight (events : list (MonitorEvent N)) (st : AppState N) :
  singleFlight st -> singleFlight (fold_left monitorStep events st).
Proof.
  revert st. induction events as [|e events IH]; intros st Hinv; simpl.
  - exact Hinv.
  - apply IH. now apply monitorStep_singleFlight.
Qed.

End WithPositions.

End FlagFacts.

Section TwoEffects.

Context {N : Type} `{Number N} `{Sqrt N}.

Lemma appended_nonempty (A : Type) (l : list A) (a : A) :
  (0 <? List.length (l ++ [a]))%nat = true.
Proof. apply Nat.ltb_lt. rewrite length_app. simpl. lia. Qed.

(** Appending a hazard that lands on the route, from a navigating render
    whose flag is clear: both effects start the same query. *)
Lemma addFloodZone_pending (zone : FloodZone N) (st : AppState N) (r : RouteData N)
      (dest : Coordinate N) :
  activeRoute st = Some r ->
  destination st = Some dest ->
  isNavigating (navStatus st) = true ->
  rerouting (navStatus st) = false ->
  isCompromised r (floodZones st ++ [zone]) = true ->
  let q := {| q_start := userLocation st; q_end := dest;
              q_zones := floodZones st ++ [zone];
              q_avoidHazards := true; q_isAutoReroute := true |} in
  invalidQuery q = false ->
  let snap := setFloodZones (fun prev => prev ++ [zone]) st in
  addFloodZone zone st = calculateRoute_begin q (calculateRoute_begin q snap).
Proof.
  intros Hroute Hdest Hnav Hflag Hcomp q Hvalid snap.
  unfold addFloodZone. fold snap.
  assert (Hcheck : hazardCheckEffect snap snap = calculateRoute_begin q snap).
  { unfold hazardCheckEffect.
    change (activeRoute snap) with (activeRoute st).
    change (navStatus snap) with (navStatus st).
    change (floodZones snap) with (floodZones st ++ [zone]).
    change (destination snap) with (destination st).
    change (userLocation snap) with (userLocation st).
    rewrite Hroute, Hnav, Hflag, appended_nonempty, Hcomp, Hdest. reflexivity. }
  rewrite Hcheck. unfold autoCalcEffect.
  change (floodZones snap) with (floodZones st ++ [zone]).
  change (destination snap) with (destination st).
  change (userLocation snap) with (userLocation st).
  rewrite Hdest, appended_nonempty. reflexivity.
Qed.

End TwoEffects.

(** C5 (code bug).  While the session navigates with the rerouting flag
    clear and nothing in flight, a hazard that intersects the active route
    is appended to the hazard set.  The hazard check and the automatic
    recalculation both run on that render, the second without looking at
    the flag, and each starts an evaluation of the same query: two
    evaluations are in flight.  When the first settles, with no route or
    with a route that keeps clear of the hazards, the flag is cleared while
    the second is still in flight. *)
Theorem hazard_on_route_starts_two_evaluations :
  forall (N : Type) (HN : Number N) (HS : Sqrt N) (zone : FloodZone N) (st : AppState N)
         (r : RouteData N) (dest : Coordinate N),
    activeRoute st = Some r ->
    destination st = Some dest ->
    isNavigating (navStatus st) = true ->
    rerouting (navStatus st) = false ->
    pending st = [] ->
    isCompromised r (floodZones st ++ [zone]) = true ->
    invalidQuery {| q_start := userLocation st; q_end := dest;
                    q_zones := floodZones st ++ [zone];
                    q_avoidHazards := true; q_isAutoReroute := true |} = false ->
    let q := {| q_start := userLocation st; q_end := dest;
                q_zones := floodZones st ++ [zone];
                q_avoidHazards := true; q_isAutoReroute := true |} in
    let st' := addFloodZone zone st in
    pending st' = [q; q]
    /\ rerouting (navStatus st') = true
    /\ forall routeData : option (RouteData N),
        match routeData with
        | Some r' => isCompromised r' (floodZones st ++ [zone]) = false
        | None => True
        end ->
        pending (routeSettled routeData st') = [q]
        /\ rerouting (navStatus (routeSettled routeData st')) = false.
Proof.
  intros N HN HS zone st r dest Hroute Hdest Hnav Hflag Hpending Hcomp Hvalid q st'.
  change (invalidQuery q = false) in Hvalid.
  assert (Hst' : st' = calculateRoute_begin
                         q (calculateRoute_begin
                              q (setFloodZones (fun prev => prev ++ [zone]) st)))
    by now apply (addFloodZone_pending zone st Hroute Hdest Hnav Hflag Hcomp Hvalid).
  assert (Hp : pending st' = [q; q]).
  { rewrite Hst'. unfold calculateRoute_begin. rewrite Hvalid. cbn. now rewrite Hpending. }
  split; [exact Hp|]. split.
  - rewrite Hst'. unfold calculateRoute_begin. rewrite Hvalid. reflexivity.
  - intros routeData Hclear. unfold routeSettled. rewrite Hp.
    destruct (settle_flags q routeData [q] st') as (Hr & Hn & Hrest).
    assert (Hsame : hazardCheckEffect (calculateRoute_settle q routeData [q] st')
                                      (calculateRoute_settle q routeData [q] st')
                    = calculateRoute_settle q routeData [q] st').
    { unfold hazardCheckEffect.
      assert (Hr' : activeRoute (calculateRoute_settle q routeData [q] st') = routeData).
      { unfold calculateRoute_settle. destruct routeData as [r'|]; [|reflexivity].
        destruct (isCompromised r' (q_zones q)), (q_avoidHazards q), (q_isAutoReroute q);
          reflexivity. }
      assert (Hz : floodZones (calculateRoute_settle q routeData [q] st')
                   = floodZones st ++ [zone]).
      { unfold calculateRoute_settle. rewrite Hst'. unfold calculateRoute_begin.
        rewrite Hvalid. destruct routeData as [r'|]; [|reflexivity].
        destruct (isCompromised r' (q_zones q)), (q_avoidHazards q), (q_isAutoReroute q);
          reflexivity. }
      rewrite Hr'. destruct routeData as [r'|]; [|reflexivity].
      rewrite Hz, Hclear.
      destruct (_ && _ && _); reflexivity. }
    rewrite Hsame. now split.
Qed.

(** The sample session, navigating along the direct sample route, when the
    square hazard is added. *)
Lemma hazard_on_route_witness :
  let st := addFloodZone (N:=float) (zoneOf (qzone square)) navigatingState in
  List.length (pending st) = 2
  /\ rerouting (navStatus st) = true
  /\ List.length (pending (routeSettled None st)) = 1
  /\ rerouting (navStatus (routeSettled None st)) = false.
Proof.
  cbv zeta.
  assert (Hcomp : isCompromised (N:=float)
                                (routeDataOf [startPoint; midPoint; endPoint] 2000)
                                (floodZones navigatingState ++ [zoneOf (qzone square)])
                  = true)
    by (vm_compute; reflexivity).
  assert (Hvalid : invalidQuery (N:=float)
                                {| q_start := userLocation navigatingState;
                                   q_end := coordinateOf endPoint;
                                   q_zones := floodZones navigatingState
                                                ++ [zoneOf (qzone square)];
                                   q_avoidHazards := true; q_isAutoReroute := true |}
                   = false)
    by (vm_compute; reflexivity).
  destruct (@hazard_on_route_starts_two_evaluations
              float _ _ (zoneOf (qzone square)) navigatingState
              (routeDataOf [startPoint; midPoint; endPoint] 2000) (coordinateOf endPoint)
              eq_refl eq_refl eq_refl eq_refl eq_refl Hcomp Hvalid)
    as (Hp & Hflag & Hsettle).
  destruct (Hsettle None I) as [Hp' Hflag'].
  rewrite Hp, Hp'. repeat split; assumption.
Defined.

(** The flag and the monitor.  The hazard check starts nothing from a
    render whose rerouting flag is set.  [calculateRoute] rejects a query
    with a [NaN] coordinate without touching the state; otherwise it sets
    the flag and one more evaluation is in flight.  The flag is cleared when
    an evaluation settles, and by abort, stop and arrival.  From a state
    with nothing in flight, position fixes, settlements and aborts keep at
    most one evaluation in flight. *)
Lemma rerouting_flag_gates_the_monitor :
  forall (N : Type) (HN : Number N) (HS : Sqrt N) (HT : Trig N)
         (snap st : AppState N) (q : RouteQuery N) (routeData : option (RouteData N))
         (rest : list (RouteQuery N)) (events : list (MonitorEvent N)),
    (if rerouting (navStatus snap)
     then hazardCheckEffect snap st = st
     else hazardCheckEffect snap st = st
          \/ exists q', hazardCheckEffect snap st = calculateRoute_begin q' st)
    /\ (if invalidQuery q
        then calculateRoute_begin q st = st
        else rerouting (navStatus (calculateRoute_begin q st)) = true
             /\ pending (calculateRoute_begin q st) = pending st ++ [q])
    /\ rerouting (navStatus (calculateRoute_settle q routeData rest st)) = false
    /\ rerouting (navStatus (abortNavigation st)) = false
    /\ rerouting (navStatus (stopSimulation st)) = false
    /\ rerouting (navStatus (completeNavigation st)) = false
    /\ pending (abortNavigation st) = pending st
    /\ singleFlight (fold_left monitorStep events (quiescent st)).
Proof.
  intros N HN HS HT snap st q routeData rest events.
  split; [|split; [|split; [|split; [|split; [|split; [|split]]]]]].
  - destruct (rerouting (navStatus snap)) eqn:Hflag.
    + now apply hazardCheck_suppressed.
    + destruct (hazardCheck_cases snap st) as [Hsame|(_ & _ & Hq)]; auto.
  - destruct (begin_cases q st) as [[-> Hb]|(-> & Hr & _ & Hp)]; auto.
  - apply settle_flags.
  - reflexivity.
  - reflexivity.
  - reflexivity.
  - reflexivity.
  - apply monitor_singleFlight. unfold singleFlight, quiescent. simpl.
    split; [lia | congruence].
Qed.

(* ================================================================== *)
(** * 26. Polygons: rotation, closure and orientation *)
(* ================================================================== *)

Section PolygonFacts.

Context {N : Type} `{Number N}.
Local Open Scope js_scope.

Lemma last_append {A} (a b : list A) (d : A) : last (a ++ b) d = last b (last a d).
Proof.
  revert d. induction a as [|x a IH]; intro d; [reflexivity|].
  change ((x :: a) ++ b) with (x :: (a ++ b)). now rewrite !last_cons, IH.
Qed.

(** The loop over [a ++ b] is the loop over [a] followed by the loop over
    [b], entered with the last vertex of [a]. *)
Lemma rayCast_app (x y : N) (a b : list (Coordinate N)) (vj : Coordinate N) (inside : bool) :
  rayCast x y vj (a ++ b) inside = rayCast x y (last a vj) b (rayCast x y vj a inside).
Proof.
  revert vj inside. induction a as [|vi a IH]; intros vj inside; [reflexivity|].
  cbn [app rayCast]. rewrite IH, last_cons. reflexivity.
Qed.

Lemma rayCast_flip (x y : N) (vs : list (Coordinate N)) (vj : Coordinate N) (inside : bool) :
  rayCast x y vj vs inside = xorb inside (rayCast x y vj vs false).
Proof.
  revert vj inside. induction vs as [|vi vs IH]; intros vj inside.
  - simpl. now rewrite xorb_false_r.
  - cbn [rayCast]. rewrite IH. rewrite (IH vi (if intersect x y vi vj then negb false else false)).
    destruct (intersect x y vi vj), inside, (rayCast x y vi vs false); reflexivity.
Qed.

(** A polygon cut in two chains: each chain is entered from the last
    vertex of the other. *)
Lemma isPointInPolygon_app (p : Coordinate N) (a b : list (Coordinate N)) :
  a <> [] -> b <> [] ->
  isPointInPolygon p (a ++ b)
  = xorb (rayCast (lng p) (lat p) (last b p) a false)
         (rayCast (lng p) (lat p) (last a p) b false).
Proof.
  intros Ha Hb. destruct a as [|a0 a]; [contradiction|].
  unfold isPointInPolygon. cbn [app].
  change (a0 :: a ++ b) with ((a0 :: a) ++ b).
  rewrite rayCast_app, rayCast_flip, last_append.
  rewrite (@last_default _ b (last (a0 :: a) a0) p Hb).
  rewrite (@last_default _ (a0 :: a) (last b p) p Ha). reflexivity.
Qed.

(** Rotating the list of vertices swaps the two chains. *)
Lemma isPointInPolygon_rotate (p : Coordinate N) (a b : list (Coordinate N)) :
  isPointInPolygon p (a ++ b) = isPointInPolygon p (b ++ a).
Proof.
  destruct a as [|a0 a]; [now rewrite app_nil_r|].
  destruct b as [|b0 b]; [now rewrite app_nil_r|].
  rewrite !isPointInPolygon_app by discriminate. apply xorb_comm.
Qed.

(** The edge from the repeated vertex to itself is never crossed. *)
Lemma isPointInPolygon_closed (p v0 : Coordinate N) (rest : list (Coordinate N)) :
  isPointInPolygon p ((v0 :: rest) ++ [v0]) = isPointInPolygon p (v0 :: rest).
Proof.
  rewrite isPointInPolygon_app by discriminate.
  rewrite (@last_default _ (v0 :: rest) p v0) by discriminate.
  change (last [v0] p) with v0.
  unfold isPointInPolygon.
  set (vj := last (v0 :: rest) v0). cbn [rayCast].
  rewrite intersect_same.
  rewrite (rayCast_flip _ _ rest v0 (if intersect _ _ v0 vj then _ else _)).
  destruct (intersect (lng p) (lat p) v0 vj),
           (rayCast (lng p) (lat p) v0 rest false); reflexivity.
Qed.

End PolygonFacts.

(** X1.  The answer of [isPointInPolygon] does not depend on the vertex the
    polygon's list starts with, in any arithmetic. *)
Theorem polygon_rotation_invariant :
  forall (N : Type) (HN : Number N) (p : Coordinate N) (a b : list (Coordinate N)),
    isPointInPolygon p (a ++ b) = isPointInPolygon p (b ++ a).
Proof.
  intros N HN p a b. apply isPointInPolygon_rotate.
Qed.

(** X2.  A ring given closed, its first vertex repeated at the end, is
    tested as the open ring, in any arithmetic. *)
Theorem closed_ring_is_open_ring :
  forall (N : Type) (HN : Number N) (p v0 : Coordinate N) (rest : list (Coordinate N)),
    isPointInPolygon p ((v0 :: rest) ++ [v0]) = isPointInPolygon p (v0 :: rest).
Proof.
  intros N HN p v0 rest. apply isPointInPolygon_closed.
Qed.

Section ReversalFacts.

Context {N : Type} `{Number N}.
Variable P : Coordinate N -> Prop.
Variables x y : N.
Hypothesis intersect_sym :
  forall a b, P a -> P b -> intersect x y a b = intersect x y b a.

(** Walking a chain backwards crosses the same edges. *)
Lemma rayCast_reverse (vs : list (Coordinate N)) (vj : Coordinate N) :
  P vj -> Forall P vs ->
  rayCast x y vj vs false
  = rayCast x y (last vs vj) (rev (removelast (vj :: vs))) false.
Proof.
  revert vj. induction vs as [|v1 rest IH]; intros vj Hvj Hvs; [reflexivity|].
  inversion Hvs as [|? ? Hv1 Hrest]; subst.
  cbn [rayCast]. rewrite rayCast_flip, (IH v1 Hv1 Hrest).
  change (removelast (vj :: v1 :: rest)) with (vj :: removelast (v1 :: rest)).
  cbn [rev]. rewrite rayCast_app, last_cons. cbn [rayCast].
  set (back := rev (removelast (v1 :: rest))).
  assert (Hlast : last back (last rest v1) = v1).
  { unfold back. destruct rest as [|v2 rest']; [reflexivity|].
    change (removelast (v1 :: v2 :: rest')) with (v1 :: removelast (v2 :: rest')).
    cbn [rev]. apply last_last. }
  rewrite Hlast, (intersect_sym Hvj Hv1).
  destruct (intersect x y v1 vj), (rayCast x y (last rest v1) back false); reflexivity.
Qed.

Lemma polygon_reverse (p : Coordinate N) (vs : list (Coordinate N)) :
  lng p = x -> lat p = y -> Forall P vs ->
  isPointInPolygon p (rev vs) = isPointInPolygon p vs.
Proof.
  intros Hx Hy Hvs. destruct vs as [|v0 rest]; [reflexivity|].
  assert (Hne : v0 :: rest <> []) by discriminate.
  remember (v0 :: rest) as vs eqn:Hvs0.
  set (l := last vs v0).
  set (back := rev (removelast vs)).
  assert (Hl : P l).
  { rewrite Forall_forall in Hvs. apply Hvs. now apply last_in. }
  assert (Hsplit : vs = removelast vs ++ [l]) by now apply app_removelast_last.
  assert (Hrev : rev vs = [l] ++ back).
  { rewrite Hsplit at 1. now rewrite rev_app_distr. }
  assert (Hopen : isPointInPolygon p vs = rayCast x y l vs false).
  { rewrite Hvs0. unfold isPointInPolygon. rewrite <- Hvs0, Hx, Hy. reflexivity. }
  assert (Hback : isPointInPolygon p (back ++ [l]) = rayCast x y l (back ++ [l]) false).
  { unfold isPointInPolygon.
    destruct (back ++ [l]) as [|w ws] eqn:Hw; [destruct back; discriminate|].
    rewrite <- Hw, last_last, Hx, Hy. reflexivity. }
  rewrite Hrev, isPointInPolygon_rotate, Hback, Hopen.
  rewrite (rayCast_reverse Hl Hvs).
  rewrite (@last_default _ vs l v0 Hne). fold l.
  rewrite Hvs0. change (removelast (l :: v0 :: rest)) with (l :: removelast (v0 :: rest)).
  rewrite <- Hvs0. reflexivity.
Qed.

End ReversalFacts.

Lemma intersect_sym_exact (x y : Q) (a b : Coordinate Q) :
  intersect (N:=exact) (Fin x) (Fin y) (coordinateOf a) (coordinateOf b)
  = intersect (N:=exact) (Fin x) (Fin y) (coordinateOf b) (coordinateOf a).
Proof.
  rewrite !ExactFacts.intersect_exact.
  assert (Hs : straddles y (lat a) (lat b) = straddles y (lat b) (lat a))
    by apply xorb_comm.
  rewrite <- Hs. destruct (straddles y (lat a) (lat b)) eqn:E; [|reflexivity].
  cbn [andb]. apply ExactFacts.qltb_compat; [reflexivity|].
  apply ExactFacts.crossing_sym. now apply ExactFacts.straddles_apart in E.
Qed.

(** X3.  In exact arithmetic the answer of [isPointInPolygon] does not depend
    on the orientation of the polygon: the vertices may be listed in the
    opposite order. *)
Theorem polygon_orientation_invariant :
  forall (p : Coordinate Q) (vs : list (Coordinate Q)),
    isPointInPolygon (N:=exact) (coordinateOf p) (map coordinateOf (rev vs))
    = isPointInPolygon (N:=exact) (coordinateOf p) (map coordinateOf vs).
Proof.
  intros p vs. rewrite map_rev.
  apply (@polygon_reverse exact _ (fun v => exists q, v = coordinateOf q)
                          (Fin (lng p)) (Fin (lat p))).
  - intros a b [qa ->] [qb ->]. apply intersect_sym_exact.
  - reflexivity.
  - reflexivity.
  - apply Forall_forall. intros v Hv. apply in_map_iff in Hv as (q & <- & _). now exists q.
Qed.

(* ================================================================== *)
(** * 27. Bounding rectangles *)
(* ================================================================== *)

Section CombinedBounds.

Context {N : Type} `{Number N}.

Lemma fold_extend_concat (zones : list (FloodZone N)) (b : Bounds) :
  fold_left (fun b z => fold_left extend (polygon z) b) zones b
  = fold_left extend (List.concat (map (@polygon N) zones)) b.
Proof.
  revert b. induction zones as [|z zones IH]; intro b; [reflexivity|].
  cbn [fold_left map List.concat]. rewrite fold_left_app. apply IH.
Qed.

End CombinedBounds.

Module ExactBounds.

Import Exact ExactFacts.
Local Open Scope Q_scope.

Lemma extend_Fin (a b c d : Q) (v : Coordinate Q) :
  exists a' b' c' d',
    extend (qbounds a b c d) (coordinateOf v) = qbounds a' b' c' d'
    /\ (a' = a \/ a' = lat v) /\ (b' = b \/ b' = lat v)
    /\ (c' = c \/ c' = lng v) /\ (d' = d \/ d' = lng v)
    /\ a' <= a /\ a' <= lat v /\ b <= b' /\ lat v <= b'
    /\ c' <= c /\ c' <= lng v /\ d <= d' /\ lng v <= d'.
Proof.
  unfold extend, qbounds. cbn.
  destruct (qltb_cases (lat v) a) as [[-> H1]|[-> H1]],
           (qltb_cases b (lat v)) as [[-> H2]|[-> H2]],
           (qltb_cases (lng v) c) as [[-> H3]|[-> H3]],
           (qltb_cases d (lng v)) as [[-> H4]|[-> H4]];
    eexists _, _, _, _; (split; [reflexivity|]);
    repeat split; auto; try lra.
Qed.

Lemma fold_extend_Fin (vs : list (Coordinate Q)) (a b c d : Q) :
  exists a' b' c' d',
    fold_left extend (map coordinateOf vs) (qbounds a b c d) = qbounds a' b' c' d'
    /\ a' <= a /\ b <= b' /\ c' <= c /\ d <= d'
    /\ (forall v, In v vs -> a' <= lat v <= b' /\ c' <= lng v <= d')
    /\ (a' = a \/ exists v, In v vs /\ a' = lat v)
    /\ (b' = b \/ exists v, In v vs /\ b' = lat v)
    /\ (c' = c \/ exists v, In v vs /\ c' = lng v)
    /\ (d' = d \/ exists v, In v vs /\ d' = lng v).
Proof.
  revert a b c d. induction vs as [|v vs IH]; intros a b c d.
  - exists a, b, c, d. repeat split; try lra; try contradiction; now left.
  - cbn [map fold_left].
    destruct (extend_Fin a b c d v)
      as (a1 & b1 & c1 & d1 & -> & Ea & Eb & Ec & Ed & H1 & H2 & H3 & H4 & H5 & H6 & H7 & H8).
    destruct (IH a1 b1 c1 d1)
      as (a' & b' & c' & d' & -> & Ha & Hb & Hc & Hd & Hall & Aa & Ab & Ac & Ad).
    exists a', b', c', d'. split; [reflexivity|].
    split; [lra|]. split; [lra|]. split; [lra|]. split; [lra|].
    split.
    { intros w [<-|Hw]; [lra | now apply Hall]. }
    repeat split.
    + destruct Aa as [->|(w & Hw & ->)]; [|right; exists w; simpl; auto].
      destruct Ea as [->| ->]; [now left | right; exists v; simpl; auto].
    + destruct Ab as [->|(w & Hw & ->)]; [|right; exists w; simpl; auto].
      destruct Eb as [->| ->]; [now left | right; exists v; simpl; auto].
    + destruct Ac as [->|(w & Hw & ->)]; [|right; exists w; simpl; auto].
      destruct Ec as [->| ->]; [now left | right; exists v; simpl; auto].
    + destruct Ad as [->|(w & Hw & ->)]; [|right; exists w; simpl; auto].
      destruct Ed as [->| ->]; [now left | right; exists v; simpl; auto].
Qed.

(** From the initial bounds [(Infinity, -Infinity, Infinity, -Infinity)]:
    the bounding box of the vertices, each side attained. *)
Lemma combined_bounds (v0 : Coordinate Q) (vs : list (Coordinate Q)) :
  exists a b c d,
    fold_left extend (map coordinateOf (v0 :: vs))
              {| minLat := nInfinity; maxLat := nneg nInfinity;
                 minLng := nInfinity; maxLng := nneg nInfinity |}
    = qbounds a b c d
    /\ (forall v, In v (v0 :: vs) -> a <= lat v <= b /\ c <= lng v <= d)
    /\ (exists v, In v (v0 :: vs) /\ a = lat v)
    /\ (exists v, In v (v0 :: vs) /\ b = lat v)
    /\ (exists v, In v (v0 :: vs) /\ c = lng v)
    /\ (exists v, In v (v0 :: vs) /\ d = lng v).
Proof.
  cbn [map fold_left].
  change (extend {| minLat := nInfinity; maxLat := nneg nInfinity;
                    minLng := nInfinity; maxLng := nneg nInfinity |}
                 (coordinateOf v0))
    with (qbounds (lat v0) (lat v0) (lng v0) (lng v0)).
  destruct (fold_extend_Fin vs (lat v0) (lat v0) (lng v0) (lng v0))
    as (a & b & c & d & -> & Ha & Hb & Hc & Hd & Hall & Aa & Ab & Ac & Ad).
  exists a, b, c, d. split; [reflexivity|]. split.
  { intros w [<-|Hw]; [lra | now apply Hall]. }
  repeat split.
  - destruct Aa as [->|(w & Hw & ->)]; [exists v0 | exists w]; simpl; auto.
  - destruct Ab as [->|(w & Hw & ->)]; [exists v0 | exists w]; simpl; auto.
  - destruct Ac as [->|(w & Hw & ->)]; [exists v0 | exists w]; simpl; auto.
  - destruct Ad as [->|(w & Hw & ->)]; [exists v0 | exists w]; simpl; auto.
Qed.

(** The ray-casting test on a rectangle: the bottom and left sides belong
    to it, the top and right sides do not. *)
Lemma rectangle_inside (a b c d : Q) (p : Coordinate Q) :
  a <= b -> c <= d ->
  isPointInPolygon (N:=exact) (coordinateOf p) (rectangle (qbounds a b c d))
  = (Qle_bool a (lat p) && qltb (lat p) b) && (Qle_bool c (lng p) && qltb (lng p) d).
Proof.
  intros Hab Hcd.
  change (rectangle (qbounds a b c d))
    with (map (coordinateOf (N:=exact)) [qpoint b c; qpoint b d; qpoint a d; qpoint a c]).
  unfold isPointInPolygon. cbn [map last rayCast].
  change (lng (coordinateOf (N:=exact) p)) with (Fin (lng p)).
  change (lat (coordinateOf (N:=exact) p)) with (Fin (lat p)).
  rewrite !intersect_exact. unfold straddles. cbn [lat lng qpoint].
  assert (Hc : crossing (lat p) (qpoint b c) (qpoint a c) == c)
    by (unfold crossing; cbn [lat lng qpoint]; unfold Qdiv; ring).
  assert (Hd : crossing (lat p) (qpoint a d) (qpoint b d) == d)
    by (unfold crossing; cbn [lat lng qpoint]; unfold Qdiv; ring).
  rewrite (qltb_compat (Qeq_refl (lng p)) Hc), (qltb_compat (Qeq_refl (lng p)) Hd).
  rewrite !xorb_nilpotent. cbn [andb negb].
  destruct (qltb_cases (lat p) b) as [[-> H1]|[-> H1]],
           (qltb_cases (lat p) a) as [[-> H2]|[-> H2]],
           (qltb_cases (lng p) c) as [[-> H3]|[-> H3]],
           (qltb_cases (lng p) d) as [[-> H4]|[-> H4]];
    cbn [xorb andb negb];
    destruct (Qle_bool a (lat p)) eqn:E1, (Qle_bool c (lng p)) eqn:E2;
    try reflexivity;
    try (apply Qle_bool_iff in E1); try (apply Qle_bool_iff in E2);
    try lra;
    try (exfalso; assert (Qle_bool a (lat p) = true) by (apply Qle_bool_iff; lra); congruence);
    try (exfalso; assert (Qle_bool c (lng p) = true) by (apply Qle_bool_iff; lra); congruence).
Qed.

End ExactBounds.

Lemma concat_polygons (zones : list (FloodZone Q)) :
  List.concat (map (@polygon exact) (map zoneOf zones))
  = map coordinateOf (List.concat (map (@polygon Q) zones)).
Proof.
  induction zones as [|z zones IH]; [reflexivity|].
  cbn [map List.concat]. now rewrite map_app, IH.
Qed.

(** X4.  In exact arithmetic, for zones that have a vertex between them,
    [getCombinedHazardZone] returns the bounding rectangle of all their
    vertices, each side passing through a vertex, centred on its middle;
    [isPointInPolygon] holds of that rectangle's points except those of its
    top and right sides. *)
Theorem combined_hazard_is_bounding_rectangle :
  forall (S : Sqrt exact) (zones : list (FloodZone Q)) (z0 : FloodZone Q)
         (v0 : Coordinate Q),
    In z0 zones -> In v0 (polygon z0) ->
    exists (a b c d : Q) (m : FloodZone exact),
      getCombinedHazardZone (map zoneOf zones) = Some m
      /\ polygon m = rectangle (qbounds a b c d)
      /\ center m = coordinateOf (qpoint ((a + b) / 2) ((c + d) / 2))
      /\ (forall z v, In z zones -> In v (polygon z) ->
                      (a <= lat v <= b /\ c <= lng v <= d)%Q)
      /\ (exists z v, In z zones /\ In v (polygon z) /\ a = lat v)
      /\ (exists z v, In z zones /\ In v (polygon z) /\ b = lat v)
      /\ (exists z v, In z zones /\ In v (polygon z) /\ c = lng v)
      /\ (exists z v, In z zones /\ In v (polygon z) /\ d = lng v)
      /\ (forall p : Coordinate Q,
             isPointInPolygon (N:=exact) (coordinateOf p) (polygon m)
             = (Qle_bool a (lat p) && Exact.qltb (lat p) b)
               && (Qle_bool c (lng p) && Exact.qltb (lng p) d)).
Proof.
  intros S zones z0 v0 Hz0 Hv0.
  assert (Hmem : forall v, In v (List.concat (map (@polygon Q) zones))
                           <-> exists z, In z zones /\ In v (polygon z)).
  { intro v. rewrite in_concat. split.
    - intros (l & Hl & Hv). apply in_map_iff in Hl as (z & <- & Hz). now exists z.
    - intros (z & Hz & Hv). exists (polygon z). split; [now apply in_map|exact Hv]. }
  destruct (List.concat (map (@polygon Q) zones)) as [|w ws] eqn:Hall.
  { exfalso. apply (proj2 (Hmem v0)). now exists z0. }
  destruct (ExactBounds.combined_bounds w ws)
    as (a & b & c & d & Hfold & Hin & (va & Hva & Ea) & (vb & Hvb & Eb)
        & (vc & Hvc & Ec) & (vd & Hvd & Ed)).
  assert (Hab : (a <= b)%Q) by (destruct (Hin w (or_introl eq_refl)); lra).
  assert (Hcd : (c <= d)%Q) by (destruct (Hin w (or_introl eq_refl)); lra).
  unfold getCombinedHazardZone.
  destruct (map zoneOf zones) as [|z1 zs1] eqn:Hmap.
  { destruct zones; [contradiction | discriminate]. }
  rewrite <- Hmap, fold_extend_concat, concat_polygons, Hall, Hfold.
  eexists a, b, c, d, _. split; [reflexivity|].
  cbn [polygon center minLat maxLat minLng maxLng qbounds].
  split; [reflexivity|]. split; [reflexivity|].
  split. { intros z v Hz Hv. apply Hin, Hmem. now exists z. }
  split. { apply Hmem in Hva as (z & Hz & Hv). now exists z, va. }
  split. { apply Hmem in Hvb as (z & Hz & Hv). now exists z, vb. }
  split. { apply Hmem in Hvc as (z & Hz & Hv). now exists z, vc. }
  split. { apply Hmem in Hvd as (z & Hz & Hv). now exists z, vd. }
  intro p. now apply (ExactBounds.rectangle_inside (a:=a) (b:=b) (c:=c) (d:=d)).
Qed.

(** The square hazard alone, with a [Math.sqrt] that returns its argument. *)
Lemma combined_hazard_witness :
  exists (a b c d : Q) (m : FloodZone exact),
    @getCombinedHazardZone exact _ {| Msqrt := fun x => x |} (map zoneOf [qzone square])
    = Some m
    /\ polygon m = rectangle (qbounds a b c d).
Proof.
  destruct (@combined_hazard_is_bounding_rectangle
              {| Msqrt := fun x => x |} [qzone square] (qzone square)
              (qpoint (163087 # 10000) (804439 # 10000))
              (or_introl eq_refl) (or_introl eq_refl))
    as (a & b & c & d & m & Hm & Hpolygon & _).
  exists a, b, c, d, m. split; assumption.
Defined.

Section OrderedBounds.

Context {N : Type} `{Number N}.
Local Open Scope js_scope.

Variable ok : N -> Prop.
Variable le : N -> N -> Prop.
Hypothesis le_refl : forall x, ok x -> le x x.
Hypothesis le_trans : forall x y z, le x y -> le y z -> le x z.
Hypothesis lt_le : forall x y, ok x -> ok y -> (x <? y) = true -> le x y.
Hypothesis ge_le : forall x y, ok x -> ok y -> (x <? y) = false -> le y x.

Lemma extend_covers (b : Bounds) (p : Coordinate N) :
  okBounds ok b -> okPoint ok p ->
  okBounds ok (extend b p) /\ covers le (extend b p) p /\ widens le b (extend b p).
Proof.
  intros (B1 & B2 & B3 & B4) (P1 & P2). unfold extend, okBounds, covers, widens.
  cbn [minLat maxLat minLng maxLng].
  destruct (lat p <? minLat b) eqn:E1, (lat p >? maxLat b) eqn:E2,
           (lng p <? minLng b) eqn:E3, (lng p >? maxLng b) eqn:E4;
    repeat split; auto.
Qed.

Lemma fold_extend_covers (vs : list (Coordinate N)) (b : Bounds) :
  okBounds ok b -> Forall (okPoint ok) vs ->
  okBounds ok (fold_left extend vs b)
  /\ widens le b (fold_left extend vs b)
  /\ forall p, In p vs -> covers le (fold_left extend vs b) p.
Proof.
  revert b. induction vs as [|v vs IH]; intros b Hb Hvs.
  - cbn. destruct Hb as (B1 & B2 & B3 & B4).
    repeat split; auto; contradiction.
  - inversion Hvs as [|? ? Hv Hrest]; subst. cbn [fold_left].
    destruct (extend_covers Hb Hv) as (Hb1 & Hc1 & Hw1).
    destruct (IH _ Hb1 Hrest) as (Hb2 & Hw2 & Hc2).
    split; [exact Hb2|]. split.
    + destruct Hw1 as (W1 & W2 & W3 & W4), Hw2 as (V1 & V2 & V3 & V4).
      repeat split; eapply le_trans; eauto.
    + intros p [<-|Hp]; [|now apply Hc2].
      destruct Hc1 as (C1 & C2 & C3 & C4), Hw2 as (V1 & V2 & V3 & V4).
      repeat split; eapply le_trans; eauto.
Qed.

End OrderedBounds.

(** X5.  In binary64, for a non-empty list of zones none of whose vertices
    has a [NaN] coordinate, [getCombinedHazardZone] returns a zone whose
    polygon is a rectangle [TL; TR; BR; BL] within whose bounds every vertex
    of every zone lies: the bounds are found by comparisons only, so
    rounding plays no part. *)
Theorem combined_hazard_covers_every_vertex :
  forall (zones : list (FloodZone float)),
    zones <> [] ->
    (forall z v, In z zones -> In v (polygon z) ->
                 nIsNaN (lat v) = false /\ nIsNaN (lng v) = false) ->
    exists (m : FloodZone float) (b : Bounds),
      getCombinedHazardZone zones = Some m
      /\ polygon m = rectangle b
      /\ forall z v, In z zones -> In v (polygon z) ->
                     nleb (minLat b) (lat v) = true /\ nleb (lat v) (maxLat b) = true
                     /\ nleb (minLng b) (lng v) = true /\ nleb (lng v) (maxLng b) = true.
Proof.
  intros zones Hne Hnum.
  set (ok := fun x : float => PrimFloat.is_nan x = false).
  set (le := fun x y : float => (keyOf x <= keyOf y)%Z).
  set (init := {| minLat := nInfinity; maxLat := nneg nInfinity;
                  minLng := nInfinity; maxLng := nneg nInfinity |} : Bounds (N:=float)).
  assert (Hinit : okBounds ok init) by (repeat split; vm_compute; reflexivity).
  assert (Hvs : Forall (okPoint ok) (List.concat (map (@polygon float) zones))).
  { apply Forall_forall. intros v Hv. apply in_concat in Hv as (l & Hl & Hv).
    apply in_map_iff in Hl as (z & <- & Hz). exact (Hnum z v Hz Hv). }
  destruct (@fold_extend_covers float _ ok le) with
    (vs := List.concat (map (@polygon float) zones)) (b := init)
    as (Hok & _ & Hcov); auto.
  - intros x Hx. unfold le. lia.
  - intros x y z. unfold le. lia.
  - intros x y Hx Hy Hlt. unfold le.
    change (x <? y)%js with (PrimFloat.ltb x y) in Hlt.
    rewrite (FloatOrder.ltb_key _ _ Hx Hy) in Hlt. apply Z.ltb_lt in Hlt. lia.
  - intros x y Hx Hy Hlt. unfold le.
    change (x <? y)%js with (PrimFloat.ltb x y) in Hlt.
    rewrite (FloatOrder.ltb_key _ _ Hx Hy) in Hlt. apply Z.ltb_ge in Hlt. lia.
  - unfold getCombinedHazardZone. destruct zones as [|z0 zones']; [contradiction|].
    set (zones := z0 :: zones') in *.
    eexists _, (fold_left extend (List.concat (map (@polygon float) zones)) init).
    split; [reflexivity|]. cbn [polygon]. rewrite fold_extend_concat. fold init.
    split; [reflexivity|].
    intros z v Hz Hv.
    assert (Hin : In v (List.concat (map (@polygon float) zones))).
    { apply in_concat. exists (polygon z). split; [now apply in_map | exact Hv]. }
    destruct (Hcov v Hin) as (C1 & C2 & C3 & C4).
    destruct Hok as (B1 & B2 & B3 & B4).
    destruct (Hnum z v Hz Hv) as [P1 P2].
    cbn [nleb JSFloat.number].
    rewrite !FloatOrder.leb_key by assumption.
    repeat split; apply Z.leb_le; assumption.
Qed.

(** The square hazard alone, in binary64. *)
Lemma combined_hazard_float_witness :
  exists (m : FloodZone float) (b : Bounds),
    getCombinedHazardZone [zoneOf (qzone square)] = Some m
    /\ polygon m = rectangle b.
Proof.
  destruct (@combined_hazard_covers_every_vertex [zoneOf (N:=float) (qzone square)])
    as (m & b & Hm & Hpolygon & _).
  - discriminate.
  - intros z v [<-|[]] Hv. cbn [polygon zoneOf square map] in Hv.
    repeat (destruct Hv as [<-|Hv]; [split; vm_compute; reflexivity|]).
    contradiction.
  - exists m, b. split; assumption.
Defined.

(** X6.  In exact arithmetic, for a polygon with a vertex and an expansion
    factor [f >= 1], the four corners [getExpandedBoundingBoxCorners]
    returns are those of a rectangle [TL; TR; BR; BL] with the centre of
    the polygon's bounding box, [f] times its height and width, and every
    vertex of the polygon within it. *)
Theorem expanded_corners_enclose_the_polygon :
  forall (z : FloodZone Q) (v0 : Coordinate Q) (f : Q),
    In v0 (polygon z) -> (1 <= f)%Q ->
    exists a b c d lo_lat hi_lat lo_lng hi_lng : Q,
      boundsOf (N:=exact) (polygon (zoneOf z)) = qbounds a b c d
      /\ getExpandedBoundingBoxCorners (zoneOf z) (Fin f)
         = rectangle (qbounds lo_lat hi_lat lo_lng hi_lng)
      /\ (hi_lat - lo_lat == f * (b - a) /\ hi_lng - lo_lng == f * (d - c))%Q
      /\ (lo_lat + hi_lat == a + b /\ lo_lng + hi_lng == c + d)%Q
      /\ (forall v, In v (polygon z) ->
                    (lo_lat <= a <= lat v /\ lat v <= b <= hi_lat
                     /\ lo_lng <= c <= lng v /\ lng v <= d <= hi_lng)%Q).
Proof.
  intros z v0 f Hv0 Hf.
  destruct (ExactFacts.box_bounds (ExactFacts.inBox_self v0 (polygon z) Hv0))
    as (a & b & c & d & Hb & Hlat0 & Hlng0).
  assert (Hall : forall v, In v (polygon z) ->
                           (a <= lat v <= b /\ c <= lng v <= d)%Q).
  { intros v Hv.
    destruct (ExactFacts.box_bounds (ExactFacts.inBox_self v (polygon z) Hv))
      as (a' & b' & c' & d' & Hb' & Hlat & Hlng).
    rewrite Hb in Hb'. injection Hb' as <- <- <- <-. tauto. }
  exists a, b, c, d.
  unfold getExpandedBoundingBoxCorners. cbn [polygon zoneOf]. rewrite Hb.
  cbn.
  eexists _, _, _, _. split; [reflexivity|]. split; [reflexivity|].
  assert (Hk : (0 <= (b + - a) * (f + - (1)) / 2)%Q).
  { apply Qle_shift_div_l; [reflexivity|]. rewrite Qmult_0_l.
    apply Qmult_le_0_compat; lra. }
  assert (Hl : (0 <= (d + - c) * (f + - (1)) / 2)%Q).
  { apply Qle_shift_div_l; [reflexivity|]. rewrite Qmult_0_l.
    apply Qmult_le_0_compat; lra. }
  split; [split; field|]. split; [split; field|].
  intros v Hv. destruct (Hall v Hv) as [H1 H2].
  set (k := ((b + - a) * (f + - (1)) / 2)%Q) in *.
  set (l := ((d + - c) * (f + - (1)) / 2)%Q) in *.
  clearbody k l. repeat split; lra.
Qed.

(** The square hazard, expanded by 1.3 as [generateDetourWaypoints] does. *)
Lemma expanded_corners_witness :
  exists lo_lat hi_lat lo_lng hi_lng : Q,
    getExpandedBoundingBoxCorners (zoneOf (N:=exact) (qzone square)) (Fin (13 # 10))
    = rectangle (qbounds lo_lat hi_lat lo_lng hi_lng).
Proof.
  destruct (@expanded_corners_enclose_the_polygon
              (qzone square) (qpoint (163087 # 10000) (804439 # 10000)) (13 # 10)
              (or_introl eq_refl))
    as (a & b & c & d & lo_lat & hi_lat & lo_lng & hi_lng & _ & Hcorners & _).
  - discriminate.
  - exists lo_lat, hi_lat, lo_lng, hi_lng. exact Hcorners.
Defined.

(* ================================================================== *)
(** * 28. Detour offsets *)
(* ================================================================== *)

Lemma sub_self_finite (x : float) :
  JSFloat.isFinite x = true -> PrimFloat.sub x x = PrimFloat.zero.
Proof.
  intro Hfin.
  rewrite <- (FloatAxioms.SF2Prim_Prim2SF (PrimFloat.sub x x)), FloatAxioms.sub_spec.
  destruct (FloatFacts.finite_cases x Hfin) as [[s ->]|(s & m & e & ->)].
  - destruct s; reflexivity.
  - rewrite FloatFacts.SFsub_self. reflexivity.
Qed.

(** X7.  In binary64, when the start and the end of the trip are the same
    finite point, [calculateOffsetPoint] returns the centre it was given,
    whatever the multiplier and the radius: the four perpendicular
    candidates of [generateDetourWaypoints] are then the hazard's centre. *)
Theorem offset_of_a_null_trip_is_the_centre :
  forall (start center_ : Coordinate float) (multiplier radiusMeters : float)
         (hazard : FloodZone float),
    JSFloat.isFinite (lat start) = true -> JSFloat.isFinite (lng start) = true ->
    calculateOffsetPoint start start center_ multiplier radiusMeters = center_
    /\ map (@waypoint float) (firstn 4 (generateDetourWaypoints start start hazard))
       = [center hazard; center hazard; center hazard; center hazard].
Proof.
  intros start center_ multiplier radiusMeters hazard Hlat Hlng.
  assert (Hoff : forall c m r, calculateOffsetPoint start start c m r = c).
  { intros c m r. unfold calculateOffsetPoint.
    cbn [nsub nmul nadd neqb ofQ JSFloat.number Msqrt JSFloat.sqrt].
    rewrite (sub_self_finite _ Hlat), (sub_self_finite _ Hlng). reflexivity. }
  split; [apply Hoff|].
  unfold generateDetourWaypoints. cbn [app firstn map waypoint].
  now rewrite !Hoff.
Qed.

(** A trip from the sample start to itself. *)
Lemma null_trip_witness :
  calculateOffsetPoint (N:=float) (coordinateOf startPoint) (coordinateOf startPoint)
                       (coordinateOf midPoint) (ofQ (3 # 2)) (ofQ 500)
  = coordinateOf midPoint.
Proof.
  apply (@offset_of_a_null_trip_is_the_centre
           (coordinateOf startPoint) (coordinateOf midPoint) (ofQ (3 # 2)) (ofQ 500)
           (zoneOf (qzone square)));
    vm_compute; reflexivity.
Defined.

(** X8.  In exact arithmetic, whatever non-zero length [len] [Math.sqrt]
    returns for the trip, the point [calculateOffsetPoint] returns is
    displaced from the centre at a right angle to the trip, and the
    opposite multiplier gives its mirror image through the centre; when
    [len] is the exact length of the trip, the displacement is
    [radiusMeters / 111111 * multiplier] degrees long. *)
Theorem offset_is_perpendicular_and_mirrored :
  forall (S : Sqrt exact) (start end_ center_ : Coordinate Q) (multiplier radiusMeters len : Q),
    let dx := (lng end_ - lng start)%Q in
    let dy := (lat end_ - lat start)%Q in
    Msqrt (Fin (dx * dx + dy * dy)) = Fin len ->
    ~ (len == 0)%Q ->
    exists w w' : Coordinate Q,
      calculateOffsetPoint (coordinateOf start) (coordinateOf end_) (coordinateOf center_)
                           (Fin multiplier) (Fin radiusMeters) = coordinateOf w
      /\ calculateOffsetPoint (coordinateOf start) (coordinateOf end_) (coordinateOf center_)
                              (nneg (Fin multiplier)) (Fin radiusMeters) = coordinateOf w'
      /\ ((lat w - lat center_) * dy + (lng w - lng center_) * dx == 0)%Q
      /\ (lat w + lat w' == 2 * lat center_ /\ lng w + lng w' == 2 * lng center_)%Q
      /\ ((len * len == dx * dx + dy * dy)%Q ->
          ((lat w - lat center_) * (lat w - lat center_)
           + (lng w - lng center_) * (lng w - lng center_)
           == (radiusMeters / 111111 * multiplier) * (radiusMeters / 111111 * multiplier))%Q).
Proof.
  intros S start end_ center_ multiplier radiusMeters len dx dy Hsqrt Hlen.
  assert (Hne : Qeq_bool len 0 = false).
  { destruct (Qeq_bool len 0) eqn:E; [|reflexivity].
    apply Qeq_bool_iff in E. contradiction. }
  unfold calculateOffsetPoint.
  cbn [lat lng coordinateOf].
  repeat match goal with
         | |- context [@Msqrt exact S ?a] =>
             progress change a with (Fin (dx * dx + dy * dy))
         end.
  rewrite Hsqrt.
  cbn [neqb ndiv nneg ofQ nadd nmul nsub Exact.number Exact.eqb Exact.div Exact.neg
       Exact.mul Exact.add Exact.sub].
  rewrite !Hne. change (Qeq_bool 111111 0) with false.
  cbn [neqb ndiv nneg ofQ nadd nmul nsub Exact.number Exact.eqb Exact.div Exact.neg
       Exact.mul Exact.add Exact.sub].
  exists {| lat := lat center_ + dx / len * (radiusMeters / 111111 * multiplier);
            lng := lng center_ + - dy / len * (radiusMeters / 111111 * multiplier) |}%Q,
         {| lat := lat center_ + dx / len * (radiusMeters / 111111 * - multiplier);
            lng := lng center_ + - dy / len * (radiusMeters / 111111 * - multiplier) |}%Q.
  split; [reflexivity|]. split; [reflexivity|].
  cbn [lat lng].
  split; [field; exact Hlen|].
  split; [split; field; exact Hlen|].
  intro Hexact.
  set (o := (radiusMeters / 111111 * multiplier)%Q).
  transitivity (o * o * ((dx * dx + dy * dy) / (len * len)))%Q.
  - field. exact Hlen.
  - rewrite <- Hexact. field. exact Hlen.
Qed.

(** A trip 3 degrees east and 4 degrees north, of length 5. *)
Lemma offset_witness :
  exists w w' : Coordinate Q,
    @calculateOffsetPoint exact _ {| Msqrt := fun _ => Fin 5 |}
                          (coordinateOf (qpoint 0 0)) (coordinateOf (qpoint 4 3))
                          (coordinateOf midPoint) (Fin (3 # 2)) (Fin 500) = coordinateOf w
    /\ ((lat w - lat midPoint) * 4 + (lng w - lng midPoint) * 3 == 0)%Q
    /\ (lat w + lat w' == 2 * lat midPoint)%Q.
Proof.
  destruct (@offset_is_perpendicular_and_mirrored
              {| Msqrt := fun _ => Fin 5 |} (qpoint 0 0) (qpoint 4 3) midPoint
              (3 # 2) 500 5 eq_refl)
    as (w & w' & Hw & _ & Hperp & [Hmirror _] & _).
  - discriminate.
  - exists w, w'. split; [exact Hw|]. split; [|exact Hmirror].
    rewrite <- Hperp. cbn [lat lng qpoint]. ring.
Defined.

(* ================================================================== *)
(** * 29. Detours around the combined hazard *)
(* ================================================================== *)

Module DetourFacts.

Import Exact ExactFacts.
Local Open Scope Q_scope.

Lemma square_le (x h : Q) : - h <= x <= h -> x * x <= h * h.
Proof. intros [H1 H2]. nra. Qed.

(** A displacement [(u, v)] of squared length [o * o * L / (l * l)] does
    not fit in half the rectangle when [o] is three quarters of an
    approximate diagonal [s] and [l] an approximate length. *)
Lemma too_far_to_be_inside (h k L l s o p q u v : Q) :
  0 <= h -> 0 <= k ->
  0 < L -> l * l <= (5 # 4) * L ->
  (3 # 4) * (4 * h * h + 4 * k * k) <= s * s ->
  (9 # 16) * (s * s) <= o * o ->
  (p * p + q * q) * (l * l) == L ->
  u == p * o -> v == q * o ->
  - h <= u < h -> - k <= v < k -> False.
Proof.
  intros Hh Hk HL Hl Hs Ho Hpq Hu Hv Hu' Hv'.
  assert (Hu2 : u * u <= h * h) by (apply square_le; lra).
  assert (Hv2 : v * v <= k * k) by (apply square_le; lra).
  assert (Hsum : (u * u + v * v) * (l * l) == L * (o * o)).
  { rewrite Hu, Hv. rewrite <- Hpq. ring. }
  assert (Hll : 0 <= l * l) by nra.
  assert (H1 : L * (o * o) <= (h * h + k * k) * ((5 # 4) * L)).
  { rewrite <- Hsum.
    apply Qle_trans with ((h * h + k * k) * (l * l)).
    - apply Qmult_le_compat_r; [lra | exact Hll].
    - assert (0 <= h * h + k * k) by nra. nra. }
  assert (H2 : o * o <= (5 # 4) * (h * h + k * k)) by nra.
  assert (H3 : h * h + k * k <= 0) by lra.
  assert (Hh0 : h * h <= 0) by nra.
  assert (h == 0) by nra.
  lra.
Qed.

(** The combined zone of zones that have a vertex between them. *)
Lemma combined_zone_exact (S : Sqrt exact) (zones : list (FloodZone Q))
      (z0 : FloodZone Q) (v0 : Coordinate Q) :
  In z0 zones -> In v0 (polygon z0) ->
  exists a b c d : Q,
    a <= b /\ c <= d
    /\ getCombinedHazardZone (map zoneOf zones)
       = Some {| id := "combined-hazard";
                 name := "Combined Hazard Zone";
                 polygon := rectangle (qbounds a b c d);
                 center := coordinateOf (qpoint ((a + b) / 2) ((c + d) / 2));
                 radius := max (mul (div (Msqrt (Fin ((b + - a) * (b + - a)
                                                      + (d + - c) * (d + - c))))
                                         (Fin 2))
                                    (Fin 111111))
                               (Fin 500);
                 type := manual_polygon |}.
Proof.
  intros Hz0 Hv0.
  assert (Hmem : forall v, In v (List.concat (map (@polygon Q) zones))
                           <-> exists z, In z zones /\ In v (polygon z)).
  { intro v. rewrite in_concat. split.
    - intros (l & Hl & Hv). apply in_map_iff in Hl as (z & <- & Hz). now exists z.
    - intros (z & Hz & Hv). exists (polygon z). split; [now apply in_map|exact Hv]. }
  destruct (List.concat (map (@polygon Q) zones)) as [|w ws] eqn:Hall.
  { exfalso. apply (proj2 (Hmem v0)). now exists z0. }
  destruct (ExactBounds.combined_bounds w ws) as (a & b & c & d & Hfold & Hin & _).
  exists a, b, c, d.
  split; [destruct (Hin w (or_introl eq_refl)); lra|].
  split; [destruct (Hin w (or_introl eq_refl)); lra|].
  unfold getCombinedHazardZone.
  destruct (map zoneOf zones) as [|z1 zs1] eqn:Hmap.
  { destruct zones; [contradiction | discriminate]. }
  rewrite <- Hmap, fold_extend_concat, concat_polygons, Hall, Hfold.
  reflexivity.
Qed.

(** The radius of the combined zone, for a diagonal [s]. *)
Lemma combined_radius (s : Q) :
  exists r : Q,
    max (mul (div (Fin s) (Fin 2)) (Fin 111111)) (Fin 500) = Fin r
    /\ s * (1 # 2) * 111111 <= r /\ 500 <= r.
Proof.
  cbn [div mul]. change (Qeq_bool 2 0) with false. cbn [mul].
  unfold max. cbn [isNaN orb ltb].
  destruct (qltb_cases (s / 2 * 111111) 500) as [[-> H]|[-> H]].
  - exists 500. split; [reflexivity|]. split; [|lra].
    assert (E : s * (1 # 2) * 111111 == s / 2 * 111111) by field.
    rewrite E. now apply Qlt_le_weak.
  - exists (s / 2 * 111111). split; [reflexivity|]. split; [|exact H].
    assert (E : s * (1 # 2) * 111111 == s / 2 * 111111) by field. rewrite E. lra.
Qed.

(** The point [calculateOffsetPoint] returns for a length [len]. *)
Lemma offset_exact (S : Sqrt exact) (start end_ center_ : Coordinate Q)
      (multiplier radiusMeters len : Q) :
  Msqrt (Fin ((lng end_ - lng start) * (lng end_ - lng start)
              + (lat end_ - lat start) * (lat end_ - lat start))) = Fin len ->
  ~ len == 0 ->
  calculateOffsetPoint (coordinateOf start) (coordinateOf end_) (coordinateOf center_)
                       (Fin multiplier) (Fin radiusMeters)
  = coordinateOf
      (qpoint (lat center_
               + (lng end_ - lng start) / len * (radiusMeters / 111111 * multiplier))
              (lng center_
               + - (lat end_ - lat start) / len * (radiusMeters / 111111 * multiplier))).
Proof.
  intros Hsqrt Hlen.
  assert (Hne : Qeq_bool len 0 = false).
  { destruct (Qeq_bool len 0) eqn:E; [|reflexivity].
    apply Qeq_bool_iff in E. contradiction. }
  unfold calculateOffsetPoint.
  cbn [lat lng coordinateOf].
  repeat match goal with
         | |- context [@Msqrt exact S ?a] =>
             progress change a with (Fin ((lng end_ - lng start) * (lng end_ - lng start)
                                          + (lat end_ - lat start) * (lat end_ - lat start)))
         end.
  rewrite Hsqrt.
  cbn [neqb ndiv nneg ofQ nadd nmul nsub Exact.number Exact.eqb Exact.div Exact.neg
       Exact.mul Exact.add Exact.sub].
  rewrite !Hne. change (Qeq_bool 111111 0) with false.
  cbn [neqb ndiv nneg ofQ nadd nmul nsub Exact.number Exact.eqb Exact.div Exact.neg
       Exact.mul Exact.add Exact.sub].
  reflexivity.
Qed.

End DetourFacts.

(** X26.  In exact arithmetic, with a [Math.sqrt] good to a quarter in the
    square, for a trip whose start and end differ and zones that have a
    vertex between them, none of the eight detour waypoints generated
    around the combined hazard is inside the combined hazard's rectangle:
    the perpendicular offsets are too long to stay in it, the corners are
    those of a rectangle no smaller. *)
Theorem detours_lie_outside_the_combined_hazard :
  forall (S : Sqrt exact) (zones : list (FloodZone Q)) (z0 : FloodZone Q)
         (v0 start end_ : Coordinate Q),
    In z0 zones -> In v0 (polygon z0) ->
    roughSqrt S ->
    ~ (lat start == lat end_ /\ lng start == lng end_)%Q ->
    exists m : FloodZone exact,
      getCombinedHazardZone (map zoneOf zones) = Some m
      /\ Forall (fun candidate => isPointInPolygon (waypoint candidate) (polygon m) = false)
                (generateDetourWaypoints (coordinateOf start) (coordinateOf end_) m).
Proof.
  intros S zones z0 v0 start end_ Hz0 Hv0 Hsqrt Htrip.
  destruct (DetourFacts.combined_zone_exact S zones z0 v0 Hz0 Hv0)
    as (a & b & c & d & Hab & Hcd & Hm).
  eexists. split; [exact Hm|]. clear Hm.
  set (D := ((b + - a) * (b + - a) + (d + - c) * (d + - c))%Q).
  destruct (Hsqrt D) as (s & Hs & Hs0 & Hs1 & _); [unfold D; nra|].
  rewrite Hs.
  destruct (DetourFacts.combined_radius s) as (r & -> & Hr & Hr500).
  set (L := ((lng end_ - lng start) * (lng end_ - lng start)
             + (lat end_ - lat start) * (lat end_ - lat start))%Q).
  assert (HL : (0 < L)%Q).
  { unfold L.
    set (x := (lng end_ - lng start)%Q). set (y := (lat end_ - lat start)%Q).
    assert (Hx : (0 <= x * x)%Q) by nra.
    assert (Hy : (0 <= y * y)%Q) by nra.
    destruct (Q_dec y 0) as [[H1|H1]|E1];
      [assert (0 < y * y)%Q by nra; lra | assert (0 < y * y)%Q by nra; lra |].
    destruct (Q_dec x 0) as [[H2|H2]|E2];
      [assert (0 < x * x)%Q by nra; lra | assert (0 < x * x)%Q by nra; lra |].
    exfalso. apply Htrip. unfold x, y in *. split; lra. }
  destruct (Hsqrt L) as (l & Hl & Hl0 & Hl1 & Hl2); [lra|].
  assert (Hlne : ~ (l == 0)%Q) by (intro E; rewrite E in Hl1; lra).
  unfold generateDetourWaypoints. cbn [center radius polygon].
  assert (Hoff : forall mult : Q,
             ((9 # 4) <= mult * mult)%Q ->
             isPointInPolygon
               (calculateOffsetPoint (coordinateOf start) (coordinateOf end_)
                  (coordinateOf (qpoint ((a + b) / 2) ((c + d) / 2))) (Fin mult) (Fin r))
               (rectangle (qbounds a b c d)) = false).
  { intros mult Hmult.
    rewrite (DetourFacts.offset_exact S start end_ (qpoint ((a + b) / 2) ((c + d) / 2))
               mult r Hl Hlne).
    rewrite ExactBounds.rectangle_inside by assumption.
    cbn [lat lng qpoint].
    set (p := ((lng end_ - lng start) / l)%Q).
    set (q := (- (lat end_ - lat start) / l)%Q).
    set (o := (r / 111111 * mult)%Q).
    destruct (Qle_bool a _) eqn:E1; [|reflexivity].
    destruct (ExactFacts.qltb_cases ((a + b) / 2 + p * o) b) as [[-> E2]|[-> _]];
      [|reflexivity].
    destruct (Qle_bool c _) eqn:E3; [|reflexivity].
    destruct (ExactFacts.qltb_cases ((c + d) / 2 + q * o) d) as [[-> E4]|[-> _]];
      [|reflexivity].
    exfalso. apply Qle_bool_iff in E1, E3.
    assert (Ec1 : ((a + b) / 2 == (a + b) * (1 # 2))%Q) by field.
    assert (Ec2 : ((c + d) / 2 == (c + d) * (1 # 2))%Q) by field.
    rewrite Ec1 in E1, E2. rewrite Ec2 in E3, E4.
    apply (@DetourFacts.too_far_to_be_inside
             ((b - a) * (1 # 2)) ((d - c) * (1 # 2)) L l s o p q (p * o) (q * o))%Q.
    all: try lra.
    - assert (E : (4 * ((b - a) * (1 # 2)) * ((b - a) * (1 # 2))
                   + 4 * ((d - c) * (1 # 2)) * ((d - c) * (1 # 2)) == D)%Q)
        by (unfold D; ring).
      rewrite E. exact Hs1.
    - assert (Hrd : (s * (1 # 2) <= r / 111111)%Q)
        by (apply Qle_shift_div_l; [reflexivity | exact Hr]).
      unfold o. set (rd := (r / 111111)%Q) in *. clearbody rd.
      assert (HX : (s * s * (1 # 4) <= rd * rd)%Q) by nra.
      assert (Hss : (0 <= s * s)%Q) by nra.
      assert (E : (rd * mult * (rd * mult) == (rd * rd) * (mult * mult))%Q) by ring.
      rewrite E. set (X := (rd * rd)%Q) in *. set (Y := (mult * mult)%Q) in *.
      set (Z := (s * s)%Q) in *. clearbody X Y Z. nra.
    - unfold p, q, L. field. exact Hlne. }
  assert (Hbox : exists a' b' c' d' : Q,
             boundsOf (N:=exact) (rectangle (qbounds a b c d)) = qbounds a' b' c' d'
             /\ (a' <= a /\ b <= b' /\ c' <= c /\ d <= d')%Q).
  { change (rectangle (qbounds a b c d))
      with (map (coordinateOf (N:=exact)) [qpoint b c; qpoint b d; qpoint a d; qpoint a c]).
    destruct (ExactFacts.box_bounds
                (ExactFacts.inBox_self (qpoint b c)
                   [qpoint b c; qpoint b d; qpoint a d; qpoint a c] (or_introl eq_refl)))
      as (a' & b' & c' & d' & Hb & H1 & H2).
    destruct (ExactFacts.box_bounds
                (ExactFacts.inBox_self (qpoint a d)
                   [qpoint b c; qpoint b d; qpoint a d; qpoint a c]
                   (or_intror (or_intror (or_introl eq_refl)))))
      as (a2 & b2 & c2 & d2 & Hb2 & H3 & H4).
    rewrite Hb in Hb2. injection Hb2 as <- <- <- <-.
    cbn [lat lng qpoint] in *.
    exists a', b', c', d'. split; [exact Hb|]. lra. }
  destruct Hbox as (a' & b' & c' & d' & Hb & Ha' & Hb' & Hc' & Hd').
  unfold getExpandedBoundingBoxCorners. cbn [polygon]. rewrite Hb.
  cbn [minLat maxLat minLng maxLng qbounds].
  cbn [neqb ndiv nneg ofQ nadd nmul nsub Exact.number Exact.eqb Exact.div Exact.neg
       Exact.mul Exact.add Exact.sub].
  change (Qeq_bool 2 0) with false.
  cbn [combine map app Exact.neg].
  set (m1 := ((b' + - a') * ((13 # 10) + - (1)) / 2)%Q).
  set (m2 := ((d' + - c') * ((13 # 10) + - (1)) / 2)%Q).
  assert (Hm1 : (0 <= m1)%Q).
  { apply Qle_shift_div_l; [reflexivity|]. rewrite Qmult_0_l.
    apply Qmult_le_0_compat; [lra | discriminate]. }
  assert (Hm2 : (0 <= m2)%Q).
  { apply Qle_shift_div_l; [reflexivity|]. rewrite Qmult_0_l.
    apply Qmult_le_0_compat; [lra | discriminate]. }
  assert (Hm1' : (m1 == 0 -> b' == a')%Q).
  { intro E. unfold m1 in E.
    assert (E' : ((b' + - a') * ((13 # 10) + - (1)) / 2 == (b' - a') * (3 # 20))%Q) by field.
    rewrite E' in E. lra. }
  clearbody m1 m2.
  assert (Hcorner : forall x y : Q,
             (b <= x \/ x < a \/ d <= y)%Q ->
             isPointInPolygon (N:=exact) {| lat := Fin x; lng := Fin y |}
                              (rectangle (qbounds a b c d)) = false).
  { intros x y Hout.
    change {| lat := Fin x; lng := Fin y |} with (coordinateOf (N:=exact) (qpoint x y)).
    rewrite ExactBounds.rectangle_inside by assumption. cbn [lat lng qpoint].
    destruct (Qle_bool a x) eqn:E1; [|reflexivity].
    destruct (ExactFacts.qltb_cases x b) as [[-> E2]|[-> _]]; [|reflexivity].
    destruct (Qle_bool c y) eqn:E3; [|reflexivity].
    destruct (ExactFacts.qltb_cases y d) as [[-> E4]|[-> _]]; [|reflexivity].
    apply Qle_bool_iff in E1, E3. exfalso. lra. }
  repeat constructor; cbn [waypoint].
  - apply Hoff. unfold Qle. simpl. lia.
  - apply Hoff. unfold Qle. simpl. lia.
  - apply Hoff. unfold Qle. simpl. lia.
  - apply Hoff. unfold Qle. simpl. lia.
  - apply Hcorner. left. lra.
  - apply Hcorner. left. lra.
  - apply Hcorner. right. right. lra.
  - apply Hcorner.
    destruct (Qlt_le_dec (a' + - m1) a) as [Hlt|Hge]; [right; left; exact Hlt|].
    left. assert (E : (m1 == 0)%Q) by lra. specialize (Hm1' E). lra.
Qed.

(** [approxSqrt] is good to a quarter in the square. *)
Lemma approxSqrt_rough : roughSqrt approxMath.
Proof.
  intros [n d] Hx. unfold Qle in Hx. cbn in Hx. rewrite Z.mul_1_r in Hx.
  cbn [Msqrt approxMath approxSqrt].
  assert (Hneg : Exact.qltb (n # d) 0 = false).
  { apply ExactFacts.qltb_false. unfold Qle. cbn. lia. }
  rewrite Hneg. cbn [Qnum Qden].
  set (K := (n * Zpos d)%Z).
  assert (HK : (0 <= K)%Z) by (unfold K; lia).
  replace (64 * n * Zpos d)%Z with (64 * K)%Z by (unfold K; ring).
  pose proof (Z.sqrt_spec (64 * K) ltac:(lia)) as [Hlo Hhi].
  pose proof (Z.sqrt_nonneg (64 * K)) as Hr.
  set (r := Z.sqrt (64 * K)) in *. clearbody r.
  unfold Z.succ in Hhi.
  assert (H48 : (48 * K <= r * r)%Z).
  { destruct (Z.eq_dec K 0) as [E|HK0]; [nia|].
    assert (r <= 8 * K)%Z by nia. nia. }
  eexists. split; [reflexivity|].
  unfold Qle, Qmult. cbn [Qnum Qden].
  rewrite !Pos2Z.inj_mul.
  set (D := Zpos d) in *. assert (HD : (0 < D)%Z) by (unfold D; lia).
  unfold K in *. clearbody D.
  repeat split; nia.
Qed.

(** The sample trip around the square hazard. *)
Lemma detours_witness :
  exists m : FloodZone exact,
    @getCombinedHazardZone exact _ approxMath (map zoneOf [qzone square]) = Some m
    /\ Forall (fun candidate => isPointInPolygon (waypoint candidate) (polygon m) = false)
              (@generateDetourWaypoints exact _ approxMath
                 (coordinateOf startPoint) (coordinateOf endPoint) m).
Proof.
  apply (@detours_lie_outside_the_combined_hazard
           approxMath [qzone square] (qzone square)
           (qpoint (163087 # 10000) (804439 # 10000)) startPoint endPoint
           (or_introl eq_refl) (or_introl eq_refl) approxSqrt_rough).
  intros [_ H]. discriminate H.
Defined.

(* ================================================================== *)
(** * 30. Speed and bearing *)
(* ================================================================== *)

(** [%] on doubles, on a few values. *)
Example remainder_of_doubles :
  floatRem 540 360 = 180%float
  /\ floatRem (-5.5) 2 = (-1.5)%float
  /\ floatRem 5.5 (-2) = 1.5%float
  /\ PrimFloat.is_nan (floatRem 3 0) = true.
Proof. repeat split; vm_compute; reflexivity. Qed.

(** X9.  In exact arithmetic, for a finite distance [d] (meters) and time
    [t] (milliseconds): when [t <= 0] the speed is 0; otherwise it is
    [3600 * d / t] km/h, hence not negative when [d] is not. *)
Theorem speed_is_kilometres_per_hour :
  forall d t : Q,
    ((t <= 0)%Q -> calculateSpeed (Fin d) (Fin t) = Fin 0)
    /\ ((0 < t)%Q ->
        exists s : Q, calculateSpeed (Fin d) (Fin t) = Fin s
                      /\ (s == 3600 * d / t)%Q
                      /\ ((0 <= d)%Q -> (0 <= s)%Q)).
Proof.
  intros d t. unfold calculateSpeed.
  cbn [nleb ndiv nmul ofQ Exact.number Exact.leb Exact.div Exact.mul].
  change (Qeq_bool 1000 0) with false. cbv iota. split.
  - intro Ht. apply Qle_bool_iff in Ht. rewrite Ht. reflexivity.
  - intro Ht.
    assert (Hle : Qle_bool t 0 = false).
    { destruct (Qle_bool t 0) eqn:E; [|reflexivity]. apply Qle_bool_iff in E. lra. }
    assert (Hz : Qeq_bool (t / 1000) 0 = false).
    { destruct (Qeq_bool (t / 1000) 0) eqn:E; [|reflexivity].
      apply Qeq_bool_iff in E. exfalso.
      assert (Ht0 : (t == t / 1000 * 1000)%Q) by (field; discriminate).
      rewrite E in Ht0. lra. }
    rewrite Hle, Hz.
    exists (d / (t / 1000) * (36 # 10))%Q. split; [reflexivity|].
    assert (Hs : (d / (t / 1000) * (36 # 10) == 3600 * d / t)%Q)
      by (field; lra).
    split; [exact Hs|].
    intro Hd. rewrite Hs. apply Qle_shift_div_l; [exact Ht|]. rewrite Qmult_0_l.
    apply Qmult_le_0_compat; [discriminate | exact Hd].
Qed.

Lemma exactRem_range (a b : Q) :
  (0 <= a)%Q -> (0 < b)%Q ->
  exists r : Q, exactRem (Fin a) (Fin b) = Fin r /\ (0 <= r < b)%Q.
Proof.
  intros Ha Hb. unfold exactRem.
  assert (Hz : Qeq_bool b 0 = false).
  { destruct (Qeq_bool b 0) eqn:E; [|reflexivity]. apply Qeq_bool_iff in E. lra. }
  rewrite Hz. eexists. split; [reflexivity|].
  assert (Hq : (0 <= a / b)%Q).
  { apply Qle_shift_div_l; [exact Hb|]. lra. }
  unfold qtrunc.
  destruct (ExactFacts.qltb_cases (a / b) 0) as [[-> Hneg]|[-> _]]; [lra|].
  pose proof (Qfloor_le (a / b)) as Hlo.
  pose proof (Qlt_floor (a / b)) as Hhi.
  rewrite inject_Z_plus in Hhi. change (inject_Z 1) with 1%Q in Hhi.
  set (k := inject_Z (Qfloor (a / b))) in *. clearbody k.
  assert (Hab : (a == b * (a / b))%Q) by (field; lra).
  set (q := (a / b)%Q) in *. clearbody q.
  split.
  - assert (b * k <= b * q)%Q by (apply Qmult_le_l; assumption). lra.
  - assert (b * q < b * (k + 1))%Q by (apply Qmult_lt_l; assumption). lra.
Qed.

(** X10.  In exact arithmetic and for finite coordinates, with [Math.PI] a
    positive rational, [Math.sin] and [Math.cos] finite on finite arguments
    and [Math.atan2] returning, on finite arguments, an angle between
    [-Math.PI] and [Math.PI], the bearing [calculateBearing] returns is at
    least 0 and less than 360. *)
Theorem bearing_is_a_compass_angle :
  forall (T : Trig exact) (pi : Q) (start end_ : Coordinate Q),
    MPI = Fin pi -> (0 < pi)%Q ->
    (forall x : Q, exists s : Q, Msin (Fin x) = Fin s) ->
    (forall x : Q, exists c : Q, Mcos (Fin x) = Fin c) ->
    (forall y x : Q, exists t : Q, Matan2 (Fin y) (Fin x) = Fin t /\ (- pi <= t <= pi)%Q) ->
    exists brng : Q,
      calculateBearing (coordinateOf start) (coordinateOf end_) = Fin brng
      /\ (0 <= brng < 360)%Q.
Proof.
  intros T pi start end_ Hpi Hpos Hsin Hcos Hatan. unfold calculateBearing.
  rewrite Hpi.
  assert (Hz : Qeq_bool pi 0 = false).
  { destruct (Qeq_bool pi 0) eqn:E; [|reflexivity]. apply Qeq_bool_iff in E. lra. }
  cbn [coordinateOf lat lng nmul ndiv nsub ofQ Exact.number Exact.mul Exact.div
       Exact.sub Exact.add Exact.neg].
  change (Qeq_bool 180 0) with false. cbv iota.
  repeat (cbn [Exact.mul Exact.sub Exact.add Exact.neg];
          match goal with
          | |- context [Msin (Fin ?x)] => destruct (Hsin x) as [? ->]
          | |- context [Mcos (Fin ?x)] => destruct (Hcos x) as [? ->]
          end).
  cbn [Exact.mul Exact.sub Exact.add Exact.neg].
  match goal with
  | |- context [Matan2 (Fin ?y) (Fin ?x)] => destruct (Hatan y x) as (t & -> & Ht)
  end.
  cbn [nmul ndiv nadd ofQ Exact.number Exact.mul Exact.div Exact.add nrem exact_rem].
  rewrite Hz. cbv iota.
  apply exactRem_range; [|reflexivity].
  assert (Hdeg : (- (180) <= t * 180 / pi)%Q).
  { apply Qle_shift_div_l; [exact Hpos|]. lra. }
  lra.
Qed.

(** With [Math.PI] taken as 355/113 and functions that return 0 on finite
    arguments, and [NaN] on the others. *)
Lemma bearing_witness :
  exists brng : Q,
    @calculateBearing exact _ _
                      {| MPI := Fin (355 # 113);
                         Msin := fun x => match x with Fin _ => Fin 0 | _ => NaN end;
                         Mcos := fun x => match x with Fin _ => Fin 0 | _ => NaN end;
                         Matan2 := fun y x => match y, x with
                                              | Fin _, Fin _ => Fin 0
                                              | _, _ => NaN
                                              end |}
                      (coordinateOf startPoint) (coordinateOf endPoint) = Fin brng
    /\ (0 <= brng < 360)%Q.
Proof.
  apply (@bearing_is_a_compass_angle
           {| MPI := Fin (355 # 113);
              Msin := fun x => match x with Fin _ => Fin 0 | _ => NaN end;
              Mcos := fun x => match x with Fin _ => Fin 0 | _ => NaN end;
              Matan2 := fun y x => match y, x with
                                   | Fin _, Fin _ => Fin 0
                                   | _, _ => NaN
                                   end |}
           (355 # 113) startPoint endPoint eq_refl).
  - reflexivity.
  - intro x. exists 0%Q. reflexivity.
  - intro x. exists 0%Q. reflexivity.
  - intros y x. exists 0%Q. split; [reflexivity|]. split; discriminate.
Defined.

(* ================================================================== *)
(** * 31. The smoother: convergence and range *)
(* ================================================================== *)

Lemma smooth_constant (c e : Q) (n : nat) :
  forall a b : Q,
  exists qa qb : Q,
    last (smoothAll {| lastLat := Some (Fin a); lastLng := Some (Fin b) |}
                    (repeat (Fin c, Fin e) n))
         {| lat := Fin a; lng := Fin b |}
    = {| lat := Fin qa; lng := Fin qb |}
    /\ (qa == c + (7 # 10) ^ Z.of_nat n * (a - c))%Q
    /\ (qb == e + (7 # 10) ^ Z.of_nat n * (b - e))%Q.
Proof.
  induction n as [|n IH]; intros a b.
  - exists a, b. split; [reflexivity|]. cbn. split; ring.
  - cbn [repeat smoothAll smooth lastLat lastLng]. rewrite last_cons.
    cbn [lat lng alpha nadd nmul nsub ofQ Exact.number Exact.add Exact.mul Exact.sub
         Exact.neg].
    destruct (IH (a + (3 # 10) * (c + - a))%Q (b + (3 # 10) * (e + - b))%Q)
      as (qa & qb & -> & Ha & Hb).
    exists qa, qb. split; [reflexivity|].
    rewrite Nat2Z.inj_succ, <- Z.add_1_r.
    rewrite Qpower_plus by discriminate.
    change ((7 # 10) ^ 1)%Q with (7 # 10)%Q.
    rewrite Ha, Hb. split; ring.
Qed.

(** X11.  In exact arithmetic the smoother never overshoots: each output
    lies between the previous output and the raw sample.  After a first fix
    [(x0, y0)], feeding the constant [(c, e)] [n] times leaves the output at
    [c + 0.7^n * (x0 - c)] (and likewise for the longitude): the distance to
    the constant shrinks by the factor 0.7 at every call. *)
Theorem smoother_converges_geometrically :
  (forall previousLat previousLng rawLat rawLng : Q,
      exists qa qb : Q,
        fst (smooth {| lastLat := Some (Fin previousLat); lastLng := Some (Fin previousLng) |}
                    (Fin rawLat) (Fin rawLng))
        = {| lat := Fin qa; lng := Fin qb |}
        /\ (Qmin previousLat rawLat <= qa <= Qmax previousLat rawLat)%Q
        /\ (Qmin previousLng rawLng <= qb <= Qmax previousLng rawLng)%Q)
  /\ (forall (x0 y0 c e : Q) (n : nat),
         exists qa qb : Q,
           last (smoothAll newLocationSmoother ((Fin x0, Fin y0) :: repeat (Fin c, Fin e) n))
                {| lat := Fin x0; lng := Fin y0 |}
           = {| lat := Fin qa; lng := Fin qb |}
           /\ (qa == c + (7 # 10) ^ Z.of_nat n * (x0 - c))%Q
           /\ (qb == e + (7 # 10) ^ Z.of_nat n * (y0 - e))%Q).
Proof.
  split.
  - intros a b x y. eexists _, _. split; [reflexivity|].
    split.
    + destruct (Q.min_spec a x) as [[H1 ->]|[H1 ->]],
               (Q.max_spec a x) as [[H2 ->]|[H2 ->]]; lra.
    + destruct (Q.min_spec b y) as [[H1 ->]|[H1 ->]],
               (Q.max_spec b y) as [[H2 ->]|[H2 ->]]; lra.
  - intros x0 y0 c e n.
    cbn [smoothAll smooth newLocationSmoother lastLat lastLng]. rewrite last_cons.
    apply smooth_constant.
Qed.

Lemma lowPass_within (lo_lat hi_lat lo_lng hi_lng : Q) (fixes : list (Q * Q)) :
  Forall (fun f => (lo_lat <= fst f <= hi_lat /\ lo_lng <= snd f <= hi_lng)%Q) fixes ->
  forall a b : Q,
    (lo_lat <= a <= hi_lat)%Q -> (lo_lng <= b <= hi_lng)%Q ->
    Forall (fun out : Coordinate exact =>
              exists c : Coordinate Q,
                out = coordinateOf c
                /\ (lo_lat <= lat c <= hi_lat /\ lo_lng <= lng c <= hi_lng)%Q)
           (smoothAll {| lastLat := Some (Fin a); lastLng := Some (Fin b) |}
                      (map (fun f => (Fin (fst f), Fin (snd f))) fixes)).
Proof.
  induction 1 as [|[x y] rest [Hx Hy] Hrest IH]; intros a b Ha Hb; [constructor|].
  cbn [fst snd] in Hx, Hy.
  cbn [map fst snd smoothAll smooth lastLat lastLng].
  cbn [lat lng alpha nadd nmul nsub ofQ Exact.number Exact.add Exact.mul Exact.sub
       Exact.neg].
  constructor.
  - exists (qpoint (a + (3 # 10) * (x + - a)) (b + (3 # 10) * (y + - b))).
    split; [reflexivity|]. cbn [lat lng qpoint]. lra.
  - apply IH; lra.
Qed.

(** X25.  In exact arithmetic the smoothed track never leaves the box of
    the raw fixes: when every raw fix lies within given bounds of latitude
    and longitude, so does every position a new smoother returns for
    them. *)
Theorem smoothed_track_stays_within_the_fixes :
  forall (lo_lat hi_lat lo_lng hi_lng : Q) (fixes : list (Q * Q)),
    Forall (fun f => (lo_lat <= fst f <= hi_lat /\ lo_lng <= snd f <= hi_lng)%Q) fixes ->
    Forall (fun out : Coordinate exact =>
              exists c : Coordinate Q,
                out = coordinateOf c
                /\ (lo_lat <= lat c <= hi_lat /\ lo_lng <= lng c <= hi_lng)%Q)
           (smoothAll newLocationSmoother
                      (map (fun f => (Fin (fst f), Fin (snd f))) fixes)).
Proof.
  intros lo_lat hi_lat lo_lng hi_lng fixes Hfixes.
  destruct Hfixes as [|[x y] rest [Hx Hy] Hrest]; [constructor|].
  cbn [fst snd] in Hx, Hy.
  cbn [map fst snd smoothAll smooth newLocationSmoother lastLat lastLng].
  constructor.
  - exists (qpoint x y). split; [reflexivity|]. cbn [lat lng qpoint]. split; assumption.
  - now apply lowPass_within.
Qed.

(** Two fixes, at (1, 1) and (2, 2). *)
Lemma smoothed_track_witness :
  Forall (fun out : Coordinate exact =>
            exists c : Coordinate Q,
              out = coordinateOf c
              /\ (1 <= lat c <= 2 /\ 1 <= lng c <= 2)%Q)
         (smoothAll newLocationSmoother [(Fin 1, Fin 1); (Fin 2, Fin 2)]).
Proof.
  apply (@smoothed_track_stays_within_the_fixes 1 2 1 2 [(1, 1); (2, 2)]%Q).
  repeat constructor; cbn; discriminate.
Defined.

(* ================================================================== *)
(** * 32. Route queries *)
(* ================================================================== *)

Section FetchFacts.

Context {N : Type} `{Number N} `{Sqrt N}.
Variable provider : Provider N.

Lemma fetchOSRMRoute_log (coordinates : list (Coordinate N)) (log : list (Request N)) :
  exists requests,
    snd (fetchOSRMRoute provider coordinates log) = log ++ requests
    /\ List.length requests <= 2
    /\ Forall (fun r => req_coords r = filter validCoordinate coordinates) requests.
Proof.
  rewrite fetchOSRMRoute_outcome.
  destruct (List.length _ <? 2)%nat.
  - exists []. rewrite app_nil_r. repeat split; auto.
  - destruct (succeeded _).
    + eexists [_]. repeat split; auto.
    + eexists [_; _]. rewrite <- app_assoc. repeat split; auto.
Qed.

Lemma fetchOSRMRoute_filtered (coordinates : list (Coordinate N)) (log : list (Request N)) :
  fetchOSRMRoute provider (filter validCoordinate coordinates) log
  = fetchOSRMRoute provider coordinates log.
Proof.
  rewrite !fetchOSRMRoute_outcome.
  assert (Hf : filter validCoordinate (filter validCoordinate coordinates)
               = filter validCoordinate coordinates).
  { induction coordinates as [|c cs IH]; [reflexivity|]. cbn [filter].
    destruct (validCoordinate c) eqn:E; cbn [filter]; [rewrite E; now f_equal | exact IH]. }
  now rewrite Hf.
Qed.

End FetchFacts.

(** X12.  When the start or the end of the trip has a [NaN] or infinite
    coordinate, [fetchRoute] returns [null] and sends no request, whatever
    the hazards and the flag. *)
Theorem route_of_an_invalid_endpoint_is_null :
  forall (N : Type) (HN : Number N) (HS : Sqrt N) (engine : Engine) (provider : Provider N)
         (completion : list nat) (start end_ : Coordinate N)
         (floodZones : list (FloodZone N)) (avoidHazards : bool)
         (log : list (Request N)),
    validCoordinate start = false \/ validCoordinate end_ = false ->
    fetchRoute provider completion start end_ floodZones avoidHazards log
    = (Value None, log).
Proof.
  intros N HN HS engine provider completion start end_ floodZones avoidHazards log Hbad.
  unfold fetchRoute, tryCatch. unfold bind at 1.
  rewrite fetchOSRMRoute_outcome. cbn [filter].
  assert (Hshort : (List.length
                      (if validCoordinate start
                       then start :: (if validCoordinate end_ then [end_] else [])
                       else if validCoordinate end_ then [end_] else []) <? 2)%nat = true).
  { destruct Hbad as [-> | ->]; destruct (validCoordinate _); reflexivity. }
  rewrite Hshort. reflexivity.
Qed.

(** A trip from a point at infinite latitude. *)
Lemma invalid_endpoint_witness :
  fetchRoute (N:=float) (engine:=insertionEngine) stubbornProvider (seq 0 8)
             {| lat := nInfinity; lng := ofQ 0 |} (coordinateOf endPoint)
             [zoneOf (qzone square)] true []
  = (Value None, []).
Proof.
  apply (@route_of_an_invalid_endpoint_is_null float _ _ insertionEngine stubbornProvider
           (seq 0 8)
           {| lat := nInfinity; lng := ofQ 0 |} (coordinateOf endPoint)
           [zoneOf (qzone square)] true []).
  left. vm_compute. reflexivity.
Defined.


(** X13.  With [avoidHazards = false], or when the direct route has hazard
    score 0, [fetchRoute] returns the direct route ([null] when the provider
    gives none, or one without legs): only the direct query is made, of at
    most two requests, each carrying the valid coordinates among the start
    and the end. *)
Theorem direct_route_needs_only_the_direct_query :
  forall (N : Type) (HN : Number N) (HS : Sqrt N) (engine : Engine) (provider : Provider N)
         (completion : list nat) (start end_ : Coordinate N)
         (floodZones : list (FloodZone N)) (avoidHazards : bool)
         (log : list (Request N)),
    let direct := match directOutcome provider start end_ with
                  | Value r => r
                  | Thrown _ => None
                  end in
    (avoidHazards = false
     \/ match direct with
        | Some r => calculateRouteHazardScore (coordinates r) floodZones = 0
        | None => True
        end) ->
    fetchRoute provider completion start end_ floodZones avoidHazards log
    = (Value direct, snd (fetchOSRMRoute provider [start; end_] log))
    /\ exists requests,
         snd (fetchOSRMRoute provider [start; end_] log) = log ++ requests
         /\ List.length requests <= 2
         /\ Forall (fun r => req_coords r = filter validCoordinate [start; end_]) requests.
Proof.
  intros N HN HS engine provider completion start end_ floodZones avoidHazards log direct
         Hcase.
  split; [|apply fetchOSRMRoute_log].
  unfold fetchRoute, tryCatch. unfold bind at 1.
  pose proof (fetchOSRMRoute_fetched provider [start; end_] log) as Hf.
  unfold direct, directOutcome in *.
  destruct (fetchOSRMRoute provider [start; end_] log) as [o log1]. simpl in Hf. subst o.
  cbn [snd]. unfold bind at 1, liftOutcome at 1.
  destruct (transformRouteData (fetched provider [start; end_])) as [[r|]|e];
    [|reflexivity|reflexivity].
  destruct Hcase as [-> | Hscore]; [reflexivity|].
  destruct avoidHazards; [|reflexivity]. cbn [negb]. rewrite Hscore. reflexivity.
Qed.

(** The sample trip without hazard avoidance. *)
Lemma direct_query_witness :
  fst (fetchRoute (N:=float) (engine:=insertionEngine) stubbornProvider (seq 0 8)
                  (coordinateOf startPoint) (coordinateOf endPoint)
                  [zoneOf (qzone square)] false [])
  = Value (Some (routeDataOf [startPoint; midPoint; endPoint] 2000)).
Proof.
  rewrite (proj1 (@direct_route_needs_only_the_direct_query
                    float _ _ insertionEngine stubbornProvider (seq 0 8)
                    (coordinateOf startPoint) (coordinateOf endPoint)
                    [zoneOf (qzone square)] false [] (or_introl eq_refl))).
  vm_compute. reflexivity.
Defined.


(** X14.  [fetchOSRMRoute] drops the coordinates that are [NaN] or
    infinite and asks for the route through the others: a detour whose
    waypoint is not valid is the direct query, sent again. *)
Theorem invalid_waypoint_is_dropped :
  forall (N : Type) (HN : Number N) (provider : Provider N)
         (coordinates : list (Coordinate N)) (start waypoint_ end_ : Coordinate N)
         (log : list (Request N)),
    fetchOSRMRoute provider (filter validCoordinate coordinates) log
    = fetchOSRMRoute provider coordinates log
    /\ (validCoordinate waypoint_ = false ->
        fetchOSRMRoute provider [start; waypoint_; end_] log
        = fetchOSRMRoute provider [start; end_] log).
Proof.
  intros N HN provider coordinates start waypoint_ end_ log.
  split; [apply fetchOSRMRoute_filtered|].
  intro Hbad.
  rewrite <- (fetchOSRMRoute_filtered provider [start; waypoint_; end_]).
  rewrite <- (fetchOSRMRoute_filtered provider [start; end_]).
  cbn [filter]. rewrite Hbad. reflexivity.
Qed.

(** The direct query gives nothing when both servers fail it. *)
Lemma both_providers_fail {N : Type} `{Number N} (provider : Provider N)
      (coordinates : list (Coordinate N)) :
  (forall base,
      succeeded (provider {| req_base := base;
                             req_coords := filter validCoordinate coordinates;
                             req_timeout_ms := 5000 |}) = None) ->
  transformRouteData (fetched provider coordinates) = Value None.
Proof.
  intro Hfail. unfold fetched. rewrite fetchOSRMRoute_outcome.
  destruct (List.length _ <? 2)%nat; [reflexivity|].
  rewrite !Hfail. reflexivity.
Qed.

(** X20.  When the direct query gives no route (both servers fail, or the
    answer is [null] or has no routes), [calculateRoute] ends with
    no route at all: the route held before is replaced by [null], the
    blocked flag is left as it was, [rerouting] and [isCalculating] are
    cleared, and after an automatic reroute the alert stays at
    [REROUTING...]. *)
Theorem failed_query_clears_the_route :
  forall (N : Type) (HN : Number N) (HS : Sqrt N) (engine : Engine) (provider : Provider N)
         (completion : list nat) (q : RouteQuery N) (st : AppState N),
    invalidQuery q = false ->
    transformRouteData (fetched provider [q_start q; q_end q]) = Value None ->
    let st' := calculateRoute provider completion q st in
    activeRoute st' = None
    /\ isBlocked st' = isBlocked st
    /\ isCalculating st' = false
    /\ rerouting (navStatus st') = false
    /\ alert (navStatus st')
       = (if q_isAutoReroute q then Some "REROUTING..."%string else alert (navStatus st))
    /\ pending st' = pending st.
Proof.
  intros N HN HS engine provider completion q st Hvalid Hnone st'.
  assert (Hfetch : fst (fetchRoute provider completion (q_start q) (q_end q) (q_zones q)
                                   (q_avoidHazards q) []) = Value None).
  { unfold fetchRoute, tryCatch. unfold bind at 1.
    pose proof (fetchOSRMRoute_fetched provider [q_start q; q_end q] []) as Hf.
    destruct (fetchOSRMRoute provider [q_start q; q_end q] []) as [o log1].
    simpl in Hf. subst o. unfold bind at 1, liftOutcome at 1. rewrite Hnone. reflexivity. }
  unfold st', calculateRoute. rewrite Hvalid, Hfetch.
  unfold calculateRoute_settle, calculateRoute_begin. rewrite Hvalid.
  destruct (q_isAutoReroute q); repeat split.
Qed.

(** The sample query, against a provider that cannot be reached. *)
Lemma failed_query_witness :
  activeRoute (calculateRoute (N:=float) (engine:=insertionEngine) (fun _ => NetworkError)
                              (seq 0 8) sampleQuery navigatingState) = None.
Proof.
  apply (@failed_query_clears_the_route float _ _ insertionEngine (fun _ => NetworkError)
           (seq 0 8) sampleQuery navigatingState).
  - vm_compute. reflexivity.
  - apply both_providers_fail. reflexivity.
Defined.

Section SendFacts.

Context {L : Type}.
Variable P : L -> Prop.

Lemma sends_ret (A : Type) (a : A) : sends 0 P (ret (L:=L) a).
Proof. intro log. exists (Value a), []. rewrite app_nil_r. repeat split; auto. Qed.

Lemma sends_throw (A : Type) (e : string) : sends 0 P (throw (L:=L) (A:=A) e).
Proof. intro log. exists (Thrown e), []. rewrite app_nil_r. repeat split; auto. Qed.

Lemma sends_liftOutcome (A : Type) (o : Outcome A) : sends 0 P (liftOutcome (L:=L) o).
Proof. intro log. exists o, []. rewrite app_nil_r. repeat split; auto. Qed.

Lemma sends_weaken (A : Type) (j k : nat) (m : Async L A) :
  j <= k -> sends j P m -> sends k P m.
Proof.
  intros Hjk Hm log. destruct (Hm log) as (o & requests & E & Hlen & Hall).
  exists o, requests. repeat split; auto. lia.
Qed.

Lemma sends_bind (A B : Type) (j k : nat) (m : Async L A) (f : A -> Async L B) :
  sends j P m -> (forall a, sends k P (f a)) -> sends (j + k) P (bind m f).
Proof.
  intros Hm Hf log. unfold bind.
  destruct (Hm log) as (o & requests & -> & Hlen & Hall).
  destruct o as [a|e].
  - destruct (Hf a (log ++ requests)) as (o' & requests' & -> & Hlen' & Hall').
    exists o', (requests ++ requests'). rewrite app_assoc.
    repeat split; [rewrite length_app; lia | now apply Forall_app].
  - exists (Thrown e), requests. repeat split; [lia | exact Hall].
Qed.

Lemma sends_tryCatch (A : Type) (j k : nat) (m : Async L A) (h : string -> Async L A) :
  sends j P m -> (forall e, sends k P (h e)) -> sends (j + k) P (tryCatch m h).
Proof.
  intros Hm Hh log. unfold tryCatch.
  destruct (Hm log) as (o & requests & -> & Hlen & Hall).
  destruct o as [a|e].
  - exists (Value a), requests. repeat split; [lia | exact Hall].
  - destruct (Hh e (log ++ requests)) as (o' & requests' & -> & Hlen' & Hall').
    exists o', (requests ++ requests'). rewrite app_assoc.
    repeat split; [rewrite length_app; lia | now apply Forall_app].
Qed.

Lemma sends_startAll (A : Type) (j k : nat) (calls : list (Started L A)) :
  Forall (starts j k P) calls ->
  forall log, exists (rests : list (Async L A)) (requests : list L),
      startAll calls log = (rests, log ++ requests)
      /\ List.length requests <= List.length calls * j
      /\ Forall P requests
      /\ Forall (sends k P) rests.
Proof.
  induction 1 as [|call calls Hcall _ IH]; intro log; cbn [startAll List.length].
  - exists [], []. rewrite app_nil_r. repeat split; auto.
  - destruct (Hcall log) as (rest & requests & -> & Hlen & Hall & Hrest).
    destruct (IH (log ++ requests)) as (rests & requests' & -> & Hlen' & Hall' & Hrests).
    exists (rest :: rests), (requests ++ requests'). rewrite app_assoc.
    repeat split; [rewrite length_app; cbn [Nat.mul]; lia | now apply Forall_app | auto].
Qed.

Lemma unsettled_settle (A : Type) (i : nat) (o : Outcome A)
      (os : list (option (Outcome A))) :
  nth_error os i = Some None ->
  S (unsettled (setIndex i (Some o) os)) = unsettled os.
Proof.
  unfold unsettled. revert i. induction os as [|x os IH]; intros [|i] Hi;
    try discriminate; cbn [nth_error] in Hi.
  - injection Hi as ->. reflexivity.
  - cbn [setIndex filter]. destruct x; cbn [List.length]; rewrite <- (IH i Hi); reflexivity.
Qed.

Lemma unsettled_repeat (A : Type) (n : nat) :
  unsettled (repeat (@None (Outcome A)) n) = n.
Proof.
  unfold unsettled. induction n as [|n IH]; [reflexivity|].
  cbn [repeat filter List.length]. now rewrite IH.
Qed.

Lemma sends_resumeAll (A : Type) (k : nat) (rests : list (Async L A)) (order : list nat) :
  Forall (sends k P) rests ->
  forall (s : Progress A) (log : list L),
  exists (s' : Progress A) (requests : list L),
    resumeAll rests order s log = (s', log ++ requests)
    /\ List.length requests <= unsettled (outcomes s) * k
    /\ Forall P requests.
Proof.
  intro Hrests. induction order as [|i later IH]; intros s log; cbn [resumeAll].
  - exists s, []. rewrite app_nil_r.
    split; [reflexivity|]. split; [simpl; lia | constructor].
  - destruct (nth_error rests i) as [rest|] eqn:Hi; [|apply IH].
    destruct (nth_error (outcomes s) i) as [[o|]|] eqn:Hs; [apply IH | | apply IH].
    assert (Hrest : sends k P rest).
    { apply (proj1 (Forall_forall _ _) Hrests). eapply nth_error_In; eassumption. }
    destruct (Hrest log) as (o & requests & -> & Hlen & Hall).
    destruct (IH (settle i o s) (log ++ requests)) as (s' & requests' & -> & Hlen' & Hall').
    exists s', (requests ++ requests'). rewrite app_assoc.
    cbn [settle outcomes] in Hlen'.
    rewrite <- (unsettled_settle i o _ Hs).
    repeat split; [rewrite length_app; cbn [Nat.mul]; lia | now apply Forall_app].
Qed.

Lemma sends_promiseAll (A : Type) (j k : nat) (calls : list (Started L A))
      (completion : list nat) :
  Forall (starts j k P) calls ->
  sends (List.length calls * j + List.length calls * k) P (promiseAll calls completion).
Proof.
  intros Hcalls log. unfold promiseAll.
  destruct (sends_startAll Hcalls log) as (rests & requests & -> & Hlen & Hall & Hrests).
  destruct (@sends_resumeAll A k rests (completion ++ seq 0 (List.length calls)) Hrests
              {| outcomes := repeat None (List.length calls); rejection := None |}
              (log ++ requests))
    as (s' & requests' & -> & Hlen' & Hall').
  cbn [outcomes] in Hlen'. rewrite unsettled_repeat in Hlen'.
  eexists _, (requests ++ requests'). rewrite app_assoc.
  repeat split; [rewrite length_app; lia | now apply Forall_app].
Qed.

End SendFacts.

Section RequestFacts.

Context {N : Type} `{Number N} `{Sqrt N}.
Variable provider : Provider N.

Lemma sends_fetchOSRMRoute (coordinates : list (Coordinate N)) :
  sends 2 routeRequest (fetchOSRMRoute provider coordinates).
Proof.
  intro log. rewrite fetchOSRMRoute_outcome.
  destruct (List.length (filter validCoordinate coordinates) <? 2)%nat eqn:Hlen.
  - exists (Value None), []. rewrite app_nil_r. repeat split; auto.
  - apply Nat.ltb_ge in Hlen.
    assert (Hvalid : forallb validCoordinate (filter validCoordinate coordinates) = true).
    { apply forallb_forall. intros c Hc. now apply filter_In in Hc. }
    destruct (succeeded _).
    + eexists _, [_]. split; [reflexivity|]. split; [auto|].
      repeat constructor; assumption.
    + eexists _, [_; _]. rewrite <- app_assoc. split; [reflexivity|]. split; [auto|].
      repeat constructor; assumption.
Qed.

Lemma sends_evaluateCandidate (start end_ : Coordinate N) (floodZones : list (FloodZone N))
      (candidate : DetourCandidate N) :
  sends 2 routeRequest (evaluateCandidate provider start end_ floodZones candidate).
Proof.
  unfold evaluateCandidate.
  change 2 with (2 + (0 + 0)).
  apply sends_bind; [apply sends_fetchOSRMRoute|]. intro detourData.
  apply sends_bind; [apply sends_liftOutcome|]. intros [detourRoute|]; apply sends_ret.
Qed.

Lemma sends_performFetch (base : string) (coords : list (Coordinate N)) :
  2 <= List.length coords -> forallb validCoordinate coords = true ->
  sends 1 routeRequest (performFetch provider base coords).
Proof.
  intros Hlen Hvalid log. rewrite performFetch_parts.
  eexists _, [_]. split; [reflexivity|]. split; [auto|].
  repeat constructor; assumption.
Qed.

(** Of the two requests of [fetchOSRMRoute], the first is sent before the
    call first waits, the second after. *)
Lemma starts_fetchOSRMRoute (coordinates : list (Coordinate N)) :
  starts 1 1 routeRequest (fetchOSRMRoute_started provider coordinates).
Proof.
  intro log. unfold fetchOSRMRoute_started.
  destruct (List.length (filter validCoordinate coordinates) <? 2)%nat eqn:Hlen.
  - exists (ret None), []. rewrite app_nil_r. repeat split; auto.
    eapply sends_weaken; [|apply sends_ret]. lia.
  - apply Nat.ltb_ge in Hlen.
    assert (Hvalid : forallb validCoordinate (filter validCoordinate coordinates) = true).
    { apply forallb_forall. intros c Hc. now apply filter_In in Hc. }
    eexists _, [_]. split; [reflexivity|]. split; [auto|]. split.
    + repeat constructor; assumption.
    + change 1 with (0 + (1 + 0)).
      apply sends_tryCatch; [apply sends_liftOutcome|]. intro primaryError.
      apply sends_tryCatch; [now apply sends_performFetch|]. intro backupError.
      apply sends_ret.
Qed.

Lemma starts_evaluateCandidate (start end_ : Coordinate N) (floodZones : list (FloodZone N))
      (candidate : DetourCandidate N) :
  starts 1 1 routeRequest (evaluateCandidate_started provider start end_ floodZones candidate).
Proof.
  intro log. unfold evaluateCandidate_started, bind at 1.
  destruct (starts_fetchOSRMRoute [start; waypoint candidate; end_] log)
    as (rest & requests & -> & Hlen & Hall & Hrest).
  eexists _, requests. split; [reflexivity|]. repeat split; auto.
  change 1 with (1 + (0 + 0)).
  apply sends_bind; [exact Hrest|]. intro detourData.
  apply sends_bind; [apply sends_liftOutcome|]. intros [detourRoute|]; apply sends_ret.
Qed.

End RequestFacts.

(** X27.  [fetchRoute] never throws, and it is frugal: whatever the order
    in which the answers arrive, it sends at most 18 requests, two for the
    direct query and, for the eight detours, eight to the primary server,
    sent together, and at most one more for each to the backup server; every
    request carries at least two coordinates, all valid, and a timer of
    5000 ms. *)
Theorem route_search_is_bounded :
  forall (N : Type) (HN : Number N) (HS : Sqrt N) (engine : Engine) (provider : Provider N)
         (completion : list nat) (start end_ : Coordinate N)
         (floodZones : list (FloodZone N)) (avoidHazards : bool)
         (log : list (Request N)),
    exists (result : option (RouteData N)) (requests : list (Request N)),
      fetchRoute provider completion start end_ floodZones avoidHazards log
      = (Value result, log ++ requests)
      /\ List.length requests <= 18
      /\ Forall routeRequest requests.
Proof.
  intros N HN HS engine provider completion start end_ floodZones avoidHazards log.
  assert (Hs : sends (2 + (0 + (8 * 1 + 8 * 1 + 0)) + 0) routeRequest
                 (fetchRoute provider completion start end_ floodZones avoidHazards)).
  { unfold fetchRoute. apply sends_tryCatch; [|intro; apply sends_ret].
    apply sends_bind; [apply sends_fetchOSRMRoute|]. intro data.
    apply sends_bind; [apply sends_liftOutcome|]. intros [directRoute|].
    2:{ eapply sends_weaken; [|apply sends_ret]. lia. }
    destruct (negb avoidHazards).
    { eapply sends_weaken; [|apply sends_ret]. lia. }
    cbv zeta. destruct (_ =? 0)%nat.
    { eapply sends_weaken; [|apply sends_ret]. lia. }
    destruct (getCombinedHazardZone _) as [metaZone|].
    2:{ eapply sends_weaken; [|apply sends_ret]. lia. }
    apply sends_bind.
    - pose proof (@sends_promiseAll
                    _ routeRequest _ 1 1
                    (map (evaluateCandidate_started provider start end_ floodZones)
                         (generateDetourWaypoints start end_ metaZone))
                    completion) as Hall.
      rewrite length_map, generateDetourWaypoints_length in Hall.
      apply Hall. apply Forall_forall. intros call Hcall.
      apply in_map_iff in Hcall as (candidate & <- & _).
      apply starts_evaluateCandidate.
    - intro results. destruct (0 <? _)%nat; [|apply sends_ret].
      destruct (arraySort _ _); [apply sends_throw | apply sends_ret]. }
  destruct (Hs log) as (o & requests & E & Hlen & Hall).
  assert (Hvalue : exists result, o = Value result).
  { unfold fetchRoute, tryCatch in E.
    match type of E with
    | (match ?b with _ => _ end) = _ => destruct b as [[a|e] log']
    end; inversion E; eauto. }
  destruct Hvalue as (result & ->).
  exists result, requests. repeat split; [exact E | simpl in Hlen; lia | exact Hall].
Qed.

(* ================================================================== *)
(** * 33. Drawing tools and destination *)
(* ================================================================== *)

Section DrawingFacts.

Context {N : Type} `{Number N} `{Sqrt N}.

Lemma begin_frame (q : RouteQuery N) (st : AppState N) :
  floodZones (calculateRoute_begin q st) = floodZones st
  /\ tempHazardPoints (calculateRoute_begin q st) = tempHazardPoints st
  /\ activeTool (calculateRoute_begin q st) = activeTool st
  /\ destination (calculateRoute_begin q st) = destination st.
Proof. unfold calculateRoute_begin. destruct (invalidQuery q); repeat split. Qed.

Lemma hazardCheck_frame (snap st : AppState N) :
  floodZones (hazardCheckEffect snap st) = floodZones st
  /\ tempHazardPoints (hazardCheckEffect snap st) = tempHazardPoints st
  /\ activeTool (hazardCheckEffect snap st) = activeTool st
  /\ destination (hazardCheckEffect snap st) = destination st.
Proof.
  unfold hazardCheckEffect.
  destruct (activeRoute snap); [|repeat split].
  destruct (_ && _ && _); [|repeat split].
  destruct (isCompromised _ _); [|repeat split].
  destruct (destination snap); [apply begin_frame | repeat split].
Qed.

Lemma autoCalc_frame (snap st : AppState N) :
  floodZones (autoCalcEffect snap st) = floodZones st
  /\ tempHazardPoints (autoCalcEffect snap st) = tempHazardPoints st
  /\ activeTool (autoCalcEffect snap st) = activeTool st
  /\ destination (autoCalcEffect snap st) = destination st.
Proof.
  unfold autoCalcEffect. destruct (destination snap); [apply begin_frame | repeat split].
Qed.

Lemma addFloodZone_frame (zone : FloodZone N) (st : AppState N) :
  floodZones (addFloodZone zone st) = floodZones st ++ [zone]
  /\ tempHazardPoints (addFloodZone zone st) = tempHazardPoints st
  /\ activeTool (addFloodZone zone st) = activeTool st
  /\ destination (addFloodZone zone st) = destination st.
Proof.
  unfold addFloodZone.
  destruct (autoCalc_frame (setFloodZones (fun prev => prev ++ [zone]) st)
              (hazardCheckEffect (setFloodZones (fun prev => prev ++ [zone]) st)
                                 (setFloodZones (fun prev => prev ++ [zone]) st)))
    as (-> & -> & -> & ->).
  destruct (hazardCheck_frame (setFloodZones (fun prev => prev ++ [zone]) st)
                              (setFloodZones (fun prev => prev ++ [zone]) st))
    as (-> & -> & -> & ->).
  repeat split.
Qed.

Lemma destinationSet_frame (coords : Coordinate N) (st : AppState N) :
  floodZones (destinationSet coords st) = floodZones st
  /\ tempHazardPoints (destinationSet coords st) = tempHazardPoints st
  /\ activeTool (destinationSet coords st) = activeTool st
  /\ destination (destinationSet coords st) = Some coords.
Proof.
  unfold destinationSet.
  destruct (autoCalc_frame
              (setTools (activeTool st) (tempHazardPoints st) (Some coords) st)
              (hazardCheckEffect
                 (setTools (activeTool st) (tempHazardPoints st) (Some coords) st)
                 (setTools (activeTool st) (tempHazardPoints st) (Some coords) st)))
    as (-> & -> & -> & ->).
  destruct (hazardCheck_frame
              (setTools (activeTool st) (tempHazardPoints st) (Some coords) st)
              (setTools (activeTool st) (tempHazardPoints st) (Some coords) st))
    as (-> & -> & -> & ->).
  repeat split.
Qed.

Lemma mapClicked_cases (lat_ lng_ : N) (st : AppState N) :
  (mapClicked lat_ lng_ st = st)
  \/ (nIsNaN lat_ = false /\ nIsNaN lng_ = false
      /\ floodZones (mapClicked lat_ lng_ st) = floodZones st
      /\ ((tempHazardPoints (mapClicked lat_ lng_ st) = tempHazardPoints st
           /\ destination (mapClicked lat_ lng_ st) = Some {| lat := lat_; lng := lng_ |})
          \/ (tempHazardPoints (mapClicked lat_ lng_ st)
              = tempHazardPoints st ++ [{| lat := lat_; lng := lng_ |}]
              /\ destination (mapClicked lat_ lng_ st) = destination st))).
Proof.
  unfold mapClicked, handleMapClick.
  destruct (nIsNaN lat_ || nIsNaN lng_) eqn:Hnan.
  { left. destruct (activeTool st); reflexivity. }
  apply orb_false_iff in Hnan as [Hlat Hlng].
  destruct (activeTool st) eqn:Htool; [now left | |].
  - right. split; [exact Hlat|]. split; [exact Hlng|].
    destruct (autoCalc_frame
                (setTools tool_none (tempHazardPoints st)
                          (Some {| lat := lat_; lng := lng_ |}) st)
                (hazardCheckEffect
                   (setTools tool_none (tempHazardPoints st)
                             (Some {| lat := lat_; lng := lng_ |}) st)
                   (setTools tool_none (tempHazardPoints st)
                             (Some {| lat := lat_; lng := lng_ |}) st)))
      as (-> & -> & _ & ->).
    destruct (hazardCheck_frame
                (setTools tool_none (tempHazardPoints st)
                          (Some {| lat := lat_; lng := lng_ |}) st)
                (setTools tool_none (tempHazardPoints st)
                          (Some {| lat := lat_; lng := lng_ |}) st))
      as (-> & -> & _ & ->).
    split; [reflexivity|]. left. split; reflexivity.
  - right. split; [exact Hlat|]. split; [exact Hlng|].
    split; [reflexivity|]. right. split; reflexivity.
Qed.

Lemma userStep_wellDrawn (st : AppState N) (e : UserEvent N) :
  wellDrawn st -> wellDrawn (userStep st e).
Proof.
  intros [Hzones Htemp]. destruct e as [lat_ lng_|tool|id_|coords|lat_ lng_]; cbn [userStep].
  - destruct (mapClicked_cases lat_ lng_ st)
      as [-> | (Hlat & Hlng & Hz & [[Ht _]|[Ht _]])]; [now split | |];
      unfold wellDrawn; rewrite Hz, Ht; split; auto.
    apply Forall_app. split; [exact Htemp|]. constructor; [now split | constructor].
  - split; [exact Hzones | constructor].
  - unfold confirmHazardDrawing.
    destruct (List.length (tempHazardPoints st) <? 3)%nat eqn:Hlen; [now split|].
    apply Nat.ltb_ge in Hlen. unfold wellDrawn.
    destruct (addFloodZone_frame (drawnZone id_ (tempHazardPoints st))
                                 (setTools tool_none [] (destination st) st))
      as (-> & -> & _).
    cbn [floodZones tempHazardPoints setTools]. split; [|constructor].
    apply Forall_app. split; [exact Hzones|].
    constructor; [|constructor]. cbn [polygon drawnZone]. now split.
  - unfold destinationSearched. destruct coords as [c|]; [|now split].
    destruct (_ && _); [|now split].
    unfold wellDrawn. destruct (destinationSet_frame c st) as (-> & -> & _). now split.
  - unfold handleSelectDestination. destruct (_ && _); [|now split].
    unfold wellDrawn.
    destruct (destinationSet_frame {| lat := lat_; lng := lng_ |} st) as (-> & -> & _).
    now split.
Qed.

Lemma userStep_destination (st : AppState N) (e : UserEvent N) :
  destinationIsNumber st -> destinationIsNumber (userStep st e).
Proof.
  intro Hd. destruct e as [lat_ lng_|tool|id_|coords|lat_ lng_]; cbn [userStep].
  - destruct (mapClicked_cases lat_ lng_ st)
      as [-> | (Hlat & Hlng & Hz & [[_ Hdest]|[_ Hdest]])]; [exact Hd | |];
      unfold destinationIsNumber; rewrite Hdest; [now split | exact Hd].
  - exact Hd.
  - unfold confirmHazardDrawing.
    destruct (List.length (tempHazardPoints st) <? 3)%nat; [exact Hd|].
    unfold destinationIsNumber.
    destruct (addFloodZone_frame (drawnZone id_ (tempHazardPoints st))
                                 (setTools tool_none [] (destination st) st))
      as (_ & _ & _ & ->).
    exact Hd.
  - unfold destinationSearched. destruct coords as [c|]; [|exact Hd].
    destruct (negb (nIsNaN (lat c)) && negb (nIsNaN (lng c))) eqn:Hnum; [|exact Hd].
    apply andb_true_iff in Hnum as [Hlat Hlng].
    apply negb_true_iff in Hlat, Hlng.
    unfold destinationIsNumber. destruct (destinationSet_frame c st) as (_ & _ & _ & ->).
    now split.
  - unfold handleSelectDestination.
    destruct (negb (nIsNaN lat_) && negb (nIsNaN lng_)) eqn:Hnum; [|exact Hd].
    apply andb_true_iff in Hnum as [Hlat Hlng].
    apply negb_true_iff in Hlat, Hlng.
    unfold destinationIsNumber.
    destruct (destinationSet_frame {| lat := lat_; lng := lng_ |} st) as (_ & _ & _ & ->).
    now split.
Qed.

End DrawingFacts.

(** X15.  From the initial state, whatever the user does with the map, the
    drawing tools and the destination search (clicks, tool toggles,
    confirmations, search results, suggestions), every hazard of the hazard
    set has at least 3 vertices and no vertex with a [NaN] coordinate, and
    no point being drawn has one. *)
Theorem drawn_hazards_are_well_formed :
  forall (N : Type) (HN : Number N) (HS : Sqrt N) (events : list (UserEvent N)),
    wellDrawn (fold_left userStep events initialState).
Proof.
  intros N HN HS events.
  assert (Hinit : wellDrawn (initialState (N:=N))) by (split; constructor).
  revert Hinit. generalize (initialState (N:=N)).
  induction events as [|e events IH]; intros st Hst; [exact Hst|].
  cbn [fold_left]. apply IH. now apply userStep_wellDrawn.
Qed.

(** X16.  From the initial state, whatever the user does with the map, the
    drawing tools and the destination search, the destination, when there
    is one, has no [NaN] coordinate: the three handlers that set it (map
    click, search, suggestion) all refuse [NaN]. *)
Theorem destination_is_never_NaN :
  forall (N : Type) (HN : Number N) (HS : Sqrt N) (events : list (UserEvent N)),
    destinationIsNumber (fold_left userStep events initialState).
Proof.
  intros N HN HS events.
  assert (Hinit : destinationIsNumber (initialState (N:=N))) by exact I.
  revert Hinit. generalize (initialState (N:=N)).
  induction events as [|e events IH]; intros st Hst; [exact Hst|].
  cbn [fold_left]. apply IH. now apply userStep_destination.
Qed.

Module MeanFacts.

Local Open Scope Q_scope.

Lemma least_exists (l : list Q) :
  l <> [] -> exists m, In m l /\ forall x, In x l -> m <= x.
Proof.
  induction l as [|a l IH]; [congruence|]. intros _.
  destruct l as [|b l].
  - exists a. split; [now left|]. intros x [<-|[]]. lra.
  - destruct (IH ltac:(discriminate)) as (m & Hm & Hall).
    destruct (Qlt_le_dec a m) as [Ham|Hma].
    + exists a. split; [now left|]. intros x [<-|Hx]; [lra|].
      specialize (Hall x Hx). lra.
    + exists m. split; [now right|]. intros x [<-|Hx]; [lra | now apply Hall].
Qed.

Lemma greatest_exists (l : list Q) :
  l <> [] -> exists m, In m l /\ forall x, In x l -> x <= m.
Proof.
  induction l as [|a l IH]; [congruence|]. intros _.
  destruct l as [|b l].
  - exists a. split; [now left|]. intros x [<-|[]]. lra.
  - destruct (IH ltac:(discriminate)) as (m & Hm & Hall).
    destruct (Qlt_le_dec m a) as [Ham|Hma].
    + exists a. split; [now left|]. intros x [<-|Hx]; [lra|].
      specialize (Hall x Hx). lra.
    + exists m. split; [now right|]. intros x [<-|Hx]; [lra | now apply Hall].
Qed.

Lemma count_succ (n : nat) : inject_Z (Z.of_nat (S n)) == inject_Z (Z.of_nat n) + 1.
Proof. rewrite Nat2Z.inj_succ, <- Z.add_1_r, inject_Z_plus. reflexivity. Qed.

Lemma total_bounds (l : list Q) (lo hi : Q) :
  (forall x, In x l -> lo <= x <= hi) ->
  lo * inject_Z (Z.of_nat (List.length l)) <= total l
  /\ total l <= hi * inject_Z (Z.of_nat (List.length l)).
Proof.
  induction l as [|a l IH]; intro Hall.
  - cbn [List.length total fold_right]. change (inject_Z (Z.of_nat 0)) with 0. lra.
  - cbn [List.length total fold_right]. rewrite count_succ.
    destruct IH as [IH1 IH2]; [intros x Hx; apply Hall; now right|].
    fold (total l). specialize (Hall a (or_introl eq_refl)). lra.
Qed.

Lemma count_positive (n : nat) : (0 < n)%nat -> 0 < inject_Z (Z.of_nat n).
Proof.
  intro Hn. change 0 with (inject_Z 0). rewrite <- Zlt_Qlt. lia.
Qed.

(** The mean of a non-empty list lies between two of its elements. *)
Lemma mean_between (l : list Q) :
  l <> [] ->
  (exists x, In x l /\ x <= total l / inject_Z (Z.of_nat (List.length l)))
  /\ (exists y, In y l /\ total l / inject_Z (Z.of_nat (List.length l)) <= y).
Proof.
  intro Hne.
  assert (Hn : 0 < inject_Z (Z.of_nat (List.length l))).
  { apply count_positive. destruct l; [congruence | simpl; lia]. }
  destruct (least_exists Hne) as (lo & Hlo & Hleast).
  destruct (greatest_exists Hne) as (hi & Hhi & Hgreatest).
  destruct (@total_bounds l lo hi) as [H1 H2].
  { intros x Hx. split; [now apply Hleast | now apply Hgreatest]. }
  split.
  - exists lo. split; [exact Hlo|]. now apply Qle_shift_div_l.
  - exists hi. split; [exact Hhi|]. now apply Qle_shift_div_r.
Qed.

Lemma fold_sum (f : Coordinate Q -> Q) (g : Coordinate exact -> exact)
      (pts : list (Coordinate Q)) (a : Q) :
  (forall p, g (coordinateOf p) = Fin (f p)) ->
  exists s, fold_left (fun acc p => nadd acc (g p)) (map coordinateOf pts) (Fin a) = Fin s
            /\ s == a + total (map f pts).
Proof.
  intro Hg. revert a. induction pts as [|p pts IH]; intro a.
  - exists a. split; [reflexivity|]. cbn. ring.
  - cbn [map fold_left]. rewrite Hg.
    change (nadd (Fin a) (Fin (f p))) with (Fin (a + f p)).
    destruct (IH (a + f p)) as (s & -> & Hs).
    exists s. split; [reflexivity|]. rewrite Hs. cbn [total fold_right].
    fold (total (map f pts)). ring.
Qed.

End MeanFacts.

(** X17.  In exact arithmetic, the centre [confirmHazardDrawing] gives a
    drawn hazard is the mean of its vertices, so it lies between two of them
    in latitude and between two of them in longitude; the polygon is the
    list of the drawn points, the radius 500. *)
Theorem drawn_hazard_is_centred_on_the_mean :
  forall (id_ : string) (pts : list (Coordinate Q)),
    pts <> [] ->
    exists c : Coordinate Q,
      center (drawnZone id_ (map coordinateOf pts)) = coordinateOf (N:=exact) c
      /\ polygon (drawnZone id_ (map coordinateOf pts)) = map coordinateOf pts
      /\ radius (drawnZone id_ (map coordinateOf pts)) = Fin 500
      /\ (lat c * inject_Z (Z.of_nat (List.length pts))
          == total (map (@lat Q) pts))%Q
      /\ (lng c * inject_Z (Z.of_nat (List.length pts))
          == total (map (@lng Q) pts))%Q
      /\ inBox c pts.
Proof.
  intros id_ pts Hne.
  assert (Hn : (0 < inject_Z (Z.of_nat (List.length pts)))%Q).
  { apply MeanFacts.count_positive. destruct pts; [congruence | simpl; lia]. }
  assert (Hz : Qeq_bool (inject_Z (Z.of_nat (List.length pts))) 0 = false).
  { destruct (Qeq_bool _ 0) eqn:E; [|reflexivity]. apply Qeq_bool_iff in E. lra. }
  destruct (@MeanFacts.fold_sum (@lat Q) (@lat exact) pts 0 (fun p => eq_refl))
    as (sLat & HsLat & ElatSum).
  destruct (@MeanFacts.fold_sum (@lng Q) (@lng exact) pts 0 (fun p => eq_refl))
    as (sLng & HsLng & ElngSum).
  exists {| lat := (sLat / inject_Z (Z.of_nat (List.length pts)))%Q;
            lng := (sLng / inject_Z (Z.of_nat (List.length pts)))%Q |}.
  unfold drawnZone. cbn [center polygon radius]. rewrite length_map.
  change (ofQ 0) with (Fin 0). rewrite HsLat, HsLng.
  unfold numberOfNat.
  cbn [ndiv ofQ Exact.number Exact.div]. rewrite Hz.
  split; [reflexivity|]. split; [reflexivity|]. split; [reflexivity|].
  cbn [lat lng].
  assert (Elat : (sLat == total (map (@lat Q) pts))%Q) by (rewrite ElatSum; ring).
  assert (Elng : (sLng == total (map (@lng Q) pts))%Q) by (rewrite ElngSum; ring).
  split; [rewrite <- Elat; field; lra|]. split; [rewrite <- Elng; field; lra|].
  assert (Hlats : map (@lat Q) pts <> []) by (destruct pts; [congruence | discriminate]).
  assert (Hlngs : map (@lng Q) pts <> []) by (destruct pts; [congruence | discriminate]).
  destruct (MeanFacts.mean_between Hlats) as [(x & Hx & Hxle) (y & Hy & Hyle)].
  destruct (MeanFacts.mean_between Hlngs) as [(x' & Hx' & Hxle') (y' & Hy' & Hyle')].
  rewrite length_map in *.
  apply in_map_iff in Hx as (vx & <- & Hvx), Hy as (vy & <- & Hvy),
                      Hx' as (vx' & <- & Hvx'), Hy' as (vy' & <- & Hvy').
  unfold inBox. cbn [lat lng].
  repeat split.
  - exists vx. split; [exact Hvx|]. rewrite Elat. exact Hxle.
  - exists vy. split; [exact Hvy|]. rewrite Elat. exact Hyle.
  - exists vx'. split; [exact Hvx'|]. rewrite Elng. exact Hxle'.
  - exists vy'. split; [exact Hvy'|]. rewrite Elng. exact Hyle'.
Qed.

(** The square hazard, drawn by hand. *)
Lemma drawn_hazard_witness :
  exists c : Coordinate Q,
    center (drawnZone "manual-0" (map coordinateOf square)) = coordinateOf (N:=exact) c
    /\ inBox c square.
Proof.
  destruct (@drawn_hazard_is_centred_on_the_mean "manual-0" square)
    as (c & Hc & _ & _ & _ & _ & Hbox).
  - discriminate.
  - exists c. split; assumption.
Defined.

(* ================================================================== *)
(** * 34. Live hazards *)
(* ================================================================== *)

(** X18.  In exact arithmetic the hazard the live monitor spawns is a
    square of side 0.008 degrees around its centre [c]: [isPointInPolygon]
    holds of the centre, and of exactly the points [p] with
    [c.lat - 0.004 <= p.lat < c.lat + 0.004] and
    [c.lng - 0.004 <= p.lng < c.lng + 0.004].  With draws of
    [Math.random()] in [0, 1), the centre is at most 0.015 degrees from the
    user's location on each axis. *)
Theorem live_hazard_surrounds_its_centre :
  forall (baseLoc : Coordinate Q) (latDraw lngDraw : Q) (id_ name_ : string),
    let zone := liveHazard (N:=exact) (coordinateOf baseLoc) (Fin latDraw) (Fin lngDraw)
                           id_ name_ in
    exists c : Coordinate Q,
      center zone = coordinateOf c
      /\ isPointInPolygon (center zone) (polygon zone) = true
      /\ (forall p : Coordinate Q,
             isPointInPolygon (N:=exact) (coordinateOf p) (polygon zone)
             = (Qle_bool (lat c - (4 # 1000)) (lat p) && Exact.qltb (lat p) (lat c + (4 # 1000)))
               && (Qle_bool (lng c - (4 # 1000)) (lng p)
                   && Exact.qltb (lng p) (lng c + (4 # 1000))))
      /\ ((0 <= latDraw < 1)%Q -> (0 <= lngDraw < 1)%Q ->
          (- (15 # 1000) <= lat c - lat baseLoc < 15 # 1000)%Q
          /\ (- (15 # 1000) <= lng c - lng baseLoc < 15 # 1000)%Q).
Proof.
  intros baseLoc latDraw lngDraw id_ name_ zone.
  set (c := {| lat := (lat baseLoc + (latDraw + - (1 # 2)) * (3 # 100))%Q;
               lng := (lng baseLoc + (lngDraw + - (1 # 2)) * (3 # 100))%Q |}).
  assert (Hpoly : polygon zone
                  = rectangle (qbounds (lat c - (4 # 1000)) (lat c + (4 # 1000))
                                       (lng c - (4 # 1000)) (lng c + (4 # 1000))))
    by reflexivity.
  assert (Hin : forall p : Coordinate Q,
             isPointInPolygon (N:=exact) (coordinateOf p) (polygon zone)
             = (Qle_bool (lat c - (4 # 1000)) (lat p) && Exact.qltb (lat p) (lat c + (4 # 1000)))
               && (Qle_bool (lng c - (4 # 1000)) (lng p)
                   && Exact.qltb (lng p) (lng c + (4 # 1000)))).
  { intro p. rewrite Hpoly. apply ExactBounds.rectangle_inside; lra. }
  exists c. split; [reflexivity|]. split; [|split; [exact Hin|]].
  - change (center zone) with (coordinateOf (N:=exact) c). rewrite Hin.
    assert (H1 : Qle_bool (lat c - (4 # 1000)) (lat c) = true) by (apply Qle_bool_iff; lra).
    assert (H2 : Qle_bool (lng c - (4 # 1000)) (lng c) = true) by (apply Qle_bool_iff; lra).
    assert (H3 : Exact.qltb (lat c) (lat c + (4 # 1000)) = true)
      by (apply ExactFacts.qltb_true; lra).
    assert (H4 : Exact.qltb (lng c) (lng c + (4 # 1000)) = true)
      by (apply ExactFacts.qltb_true; lra).
    now rewrite H1, H2, H3, H4.
  - intros Hlat Hlng. unfold c. cbn [lat lng]. split; lra.
Qed.

(* ================================================================== *)
(** * 35. Playback *)
(* ================================================================== *)

Lemma nth_penultimate {A} (l : list A) (d : A) :
  2 <= List.length l -> nth (List.length l - 2) l d = last (removelast l) d.
Proof.
  induction l as [|a l IH]; [cbn; lia|]. intro Hlen.
  destruct l as [|b l]; [cbn in Hlen; lia|].
  destruct l as [|c l]; [reflexivity|].
  change (removelast (a :: b :: c :: l)) with (a :: removelast (b :: c :: l)).
  rewrite last_cons.
  rewrite (@last_default _ (removelast (b :: c :: l)) a d) by discriminate.
  rewrite <- IH by (cbn; lia).
  cbn [List.length]. replace (S (S (S (List.length l))) - 2) with (S (S (S (List.length l)) - 2)) by lia.
  reflexivity.
Qed.

Section PlaybackFacts.

Context {N : Type} `{Number N} `{Sqrt N} `{Trig N}.
Variable closure : SimulationClosure N.

Lemma begin_position (q : RouteQuery N) (st : AppState N) :
  simulationIndex (calculateRoute_begin q st) = simulationIndex st
  /\ userLocation (calculateRoute_begin q st) = userLocation st.
Proof. unfold calculateRoute_begin. destruct (invalidQuery q); split; reflexivity. Qed.

(** A tick on the last index ends the navigation and leaves the car
    where it is. *)
Lemma tick_arrives (hit : bool) (st : AppState N) :
  List.length (coordinates (sim_route closure)) - 1 <= simulationIndex st ->
  simulationTick closure hit st = Some (completeNavigation st).
Proof.
  intro Hidx. unfold simulationTick. apply Nat.ltb_ge in Hidx. now rewrite Hidx.
Qed.

(** A tick before the last point, when the playback was started without a
    destination: the update of the distance remaining throws. *)
Lemma tick_without_destination (hit : bool) (st : AppState N) :
  sim_destination closure = None ->
  simulationIndex st < List.length (coordinates (sim_route closure)) - 1 ->
  simulationTick closure hit st = None.
Proof.
  intros Hdest Hidx. unfold simulationTick.
  destruct (nth_error (coordinates (sim_route closure)) (simulationIndex st)) eqn:Hnth.
  - apply Nat.ltb_lt in Hidx. now rewrite Hidx, Hdest.
  - apply nth_error_None in Hnth. lia.
Qed.

Section WithDestination.

Variable dest : Coordinate N.
Hypothesis destined : sim_destination closure = Some dest.

(** A tick before the last point: the car is put on the point of the
    current index, and the index moves on. *)
Lemma tick_advances (hit : bool) (st : AppState N) (currentPos : Coordinate N) :
  simulationIndex st < List.length (coordinates (sim_route closure)) - 1 ->
  nth_error (coordinates (sim_route closure)) (simulationIndex st) = Some currentPos ->
  exists st',
    simulationTick closure hit st = Some st'
    /\ simulationIndex st' = S (simulationIndex st)
    /\ userLocation st' = currentPos.
Proof.
  intros Hidx Hnth. unfold simulationTick.
  apply Nat.ltb_lt in Hidx. rewrite Hidx, Hnth, destined.
  destruct (hit && _ && _); eexists; (split; [reflexivity|]).
  - match goal with
    | |- context [calculateRoute_begin ?q ?s] =>
        destruct (begin_position q s) as [-> ->]
    end.
    cbn. split; [lia | reflexivity].
  - cbn. split; [lia | reflexivity].
Qed.

Lemma playback_advances (hits : list bool) (st : AppState N) :
  simulationIndex st + List.length hits <= List.length (coordinates (sim_route closure)) - 1 ->
  exists st',
    playback closure hits st = Some st'
    /\ simulationIndex st' = simulationIndex st + List.length hits
    /\ userLocation st'
       = match hits with
         | [] => userLocation st
         | _ => nth (simulationIndex st + List.length hits - 1)
                    (coordinates (sim_route closure)) (userLocation st)
         end.
Proof.
  revert st. induction hits as [|hit hits IH]; intros st Hlen.
  - exists st. cbn. repeat split. lia.
  - cbn [List.length] in Hlen. unfold playback in *. cbn [fold_left].
    destruct (nth_error (coordinates (sim_route closure)) (simulationIndex st))
      as [currentPos|] eqn:Hnth.
    2: { apply nth_error_None in Hnth. lia. }
    destruct (@tick_advances hit st currentPos) as (st1 & -> & Hi & Hu);
      [lia | exact Hnth |].
    destruct (IH st1) as (st' & Hplay & IHi & IHu); [rewrite Hi; lia|].
    exists st'. split; [exact Hplay|].
    rewrite IHi, IHu, Hi, Hu. cbn [List.length]. split; [lia|].
    destruct hits as [|hit' hits'].
    + cbn [List.length]. replace (simulationIndex st + 1 - 1) with (simulationIndex st) by lia.
      symmetry. now apply nth_error_nth.
    + cbn [List.length] in *.
      rewrite (nth_indep _ currentPos (userLocation st)) by lia.
      f_equal. lia.
Qed.

End WithDestination.

End PlaybackFacts.

(** X19.  A playback started with a destination over a route of [n >= 1]
    points, its ticks taken one after the other, ends at its [n]-th tick,
    whatever the draws: after the first [n - 1] ticks the index is [n - 1]
    and the car is on the point of index [n - 2] (where it was, when
    [n = 1]); the [n]-th tick leaves the car there, stops the simulation and
    ends the navigation with the alert [TARGET REACHED]: the last point of
    the route is never shown. *)
Theorem playback_ends_after_every_point :
  forall (N : Type) (HN : Number N) (HS : Sqrt N) (HT : Trig N)
         (closure : SimulationClosure N) (hits : list bool) (lastHit : bool)
         (st : AppState N),
    let coords := coordinates (sim_route closure) in
    sim_destination closure <> None ->
    simulationIndex st = 0 ->
    S (List.length hits) = List.length coords ->
    exists before final : AppState N,
      playback closure hits st = Some before
      /\ playback closure (hits ++ [lastHit]) st = Some final
      /\ simulationIndex before = List.length hits
      /\ userLocation before = last (removelast coords) (userLocation st)
      /\ userLocation final = userLocation before
      /\ isSimulating final = false
      /\ simulationInterval final = false
      /\ navStatus final
         = {| isNavigating := false;
              distanceRemaining := distanceRemaining (navStatus before);
              alert := Some "TARGET REACHED"%string;
              rerouting := false |}.
Proof.
  intros N HN HS HT closure hits lastHit st coords Hdest Hidx Hlen.
  destruct (sim_destination closure) as [dest|] eqn:Hd; [clear Hdest | contradiction].
  destruct (@playback_advances N HN HS HT closure dest Hd hits st)
    as (before & Hplay & Hi & Hu); [fold coords; lia|].
  rewrite Hidx in Hi, Hu. cbn [Nat.add] in Hi, Hu.
  exists before, (completeNavigation before).
  split; [exact Hplay|]. split.
  { unfold playback in *. rewrite fold_left_app, Hplay. cbn [fold_left].
    apply tick_arrives. fold coords. rewrite Hi. lia. }
  split; [exact Hi|]. split.
  { rewrite Hu. destruct hits as [|h hits']; cbn [List.length] in *.
    - destruct coords as [|c0 [|c1 cs]]; cbn in *; try lia. reflexivity.
    - replace (S (List.length hits') - 1) with (List.length coords - 2) by lia.
      apply nth_penultimate. lia. }
  repeat split.
Qed.

(** The playback of the direct sample route: three points, three ticks. *)
Lemma playback_witness :
  let closure := {| sim_route := routeDataOf [startPoint; midPoint; endPoint] 2000;
                    sim_destination := Some (coordinateOf endPoint);
                    sim_floodZones := [];
                    sim_navStatus := navStatus (initialState (N:=float)) |} in
  let HT := {| MPI := ofQ (355 # 113) : float; Msin := fun x => x; Mcos := fun x => x;
               Matan2 := fun x _ => x |} in
  exists final,
    playback closure [false; false; false] initialState = Some final
    /\ userLocation final = coordinateOf midPoint
    /\ isSimulating final = false.
Proof.
  intros closure HT.
  destruct (@playback_ends_after_every_point float _ _ HT closure [false; false] false
              initialState ltac:(discriminate) eq_refl eq_refl)
    as (before & final & _ & Hplay & _ & Hbefore & Hfinal & Hsim & _).
  exists final. split; [exact Hplay|]. split; [|exact Hsim].
  rewrite Hfinal, Hbefore. reflexivity.
Defined.

(* ================================================================== *)
(** * 36. Geocoding *)
(* ================================================================== *)

(** X21.  [getPlaceSuggestions] never throws and sends at most one request,
    none for a query of fewer than 3 code units; it returns the places of
    the answer, and no place when no request was sent, the request failed or
    the answer was [null]. *)
Theorem suggestions_never_fail :
  forall (N : Type) (geocoder : Geocoder N)
         (encodeURIComponent : string -> option string) (query : string)
         (log : list string),
    exists requests : list string,
      getPlaceSuggestions geocoder encodeURIComponent query log
      = (Value (match requests with
                | [url] => placesAt geocoder url
                | _ => []
                end), log ++ requests)
      /\ List.length requests <= 1
      /\ (String.length query < 3 -> requests = [])
      /\ Forall (searchRequest encodeURIComponent query
                               "&format=json&addressdetails=1&limit=5") requests.
Proof.
  intros N geocoder enc query log. unfold getPlaceSuggestions.
  destruct (String.length query <? 3)%nat eqn:Hlen.
  { exists []. rewrite app_nil_r. repeat split; auto. }
  apply Nat.ltb_ge in Hlen.
  unfold tryCatch, bind, searchURL.
  destruct (enc query) as [q|] eqn:Hq.
  - exists [(NOMINATIM_BASE_URL ++ "?q=" ++ q
             ++ "&format=json&addressdetails=1&limit=5")%string].
    split; [|split; [auto | split; [lia | constructor; [now exists q | constructor]]]].
    unfold ret, fetchJSON, placesAt.
    destruct (geocoder _) as [|[[places|]|]]; reflexivity.
  - exists []. rewrite app_nil_r. repeat split; auto.
Qed.

(** X22.  [searchLocation] never throws and sends at most one request; it
    returns the coordinates parsed from the first place of the answer, and
    [null] when no request was sent, the request failed or the answer holds
    no place. *)
Theorem location_is_the_first_place :
  forall (N : Type) (geocoder : Geocoder N)
         (encodeURIComponent : string -> option string)
         (parseFloat : option string -> N) (query : string) (log : list string),
    exists requests : list string,
      searchLocation geocoder encodeURIComponent parseFloat query log
      = (Value (match requests with
                | [url] =>
                    match placesAt geocoder url with
                    | place :: _ =>
                        Some {| lat := parseFloat (Some (place_lat place));
                                lng := parseFloat (Some (place_lon place)) |}
                    | [] => None
                    end
                | _ => None
                end), log ++ requests)
      /\ List.length requests <= 1
      /\ Forall (searchRequest encodeURIComponent query "&format=json&limit=1") requests.
Proof.
  intros N geocoder enc parseFloat query log.
  unfold searchLocation, tryCatch, bind, searchURL.
  destruct (enc query) as [q|] eqn:Hq.
  - exists [(NOMINATIM_BASE_URL ++ "?q=" ++ q ++ "&format=json&limit=1")%string].
    split; [|split; [auto | constructor; [now exists q | constructor]]].
    unfold ret, fetchJSON, placesAt.
    destruct (geocoder _) as [|[[[|place places]|]|]]; reflexivity.
  - exists []. rewrite app_nil_r. repeat split; auto.
Qed.

(** X23.  [searchAreaPolygon] never throws and sends at most one request.
    A zone it returns is made from the first place of the answer: its name
    is the display name up to the first comma, its centre the parsed
    coordinates, its radius 1500, its type [geocoded_area]; its polygon is
    the first ring of the place's polygon or of its first polygon, and the
    polygon of the bounding box when the place has neither. *)
Theorem area_zone_is_the_first_place :
  forall (N : Type) (HN : Number N) (geocoder : Geocoder N)
         (encodeURIComponent : string -> option string)
         (parseFloat : option string -> N) (id_ query : string) (log : list string),
    exists (result : option (FloodZone N)) (requests : list string),
      searchAreaPolygon geocoder encodeURIComponent parseFloat id_ query log
      = (Value result, log ++ requests)
      /\ List.length requests <= 1
      /\ Forall (searchRequest encodeURIComponent query
                               "&format=json&limit=1&polygon_geojson=1") requests
      /\ forall z, result = Some z ->
           exists url place rest,
             requests = [url]
             /\ placesAt geocoder url = place :: rest
             /\ id z = id_
             /\ name z = beforeComma (display_name place)
             /\ center z = {| lat := parseFloat (Some (place_lat place));
                              lng := parseFloat (Some (place_lon place)) |}
             /\ radius z = ofQ 1500
             /\ type z = geocoded_area
             /\ match geojson place with
                | Some (GeoPolygon rings) =>
                    exists ring others, rings = ring :: others
                                        /\ polygon z = ringPolygon ring
                | Some (GeoMultiPolygon polygons) =>
                    exists ring others others', polygons = (ring :: others) :: others'
                                                /\ polygon z = ringPolygon ring
                | _ => polygon z = boundingBoxPolygon parseFloat (boundingbox place)
                end.
Proof.
  intros N HN geocoder enc parseFloat id_ query log.
  unfold searchAreaPolygon, tryCatch, bind, searchURL.
  destruct (enc query) as [q|] eqn:Hq.
  2:{ exists None, []. rewrite app_nil_r. repeat split; auto. discriminate. }
  set (url := (NOMINATIM_BASE_URL ++ "?q=" ++ q
               ++ "&format=json&limit=1&polygon_geojson=1")%string).
  assert (Hreq : Forall (searchRequest enc query "&format=json&limit=1&polygon_geojson=1")
                        [url])
    by (constructor; [now exists q | constructor]).
  unfold ret at 1. unfold fetchJSON, placesAt.
  destruct (geocoder url) as [|[[[|place places]|]|]] eqn:Hans;
    try (exists None, [url]; repeat split; auto; discriminate).
  assert (Hplaces : placesAt geocoder url = place :: places)
    by (unfold placesAt; now rewrite Hans).
  destruct (geojson place) as [[[|ring others]|[|[|ring others] others']|type_]|] eqn:Hgeo;
    unfold ret, throw;
    try (exists None, [url]; repeat split; auto; discriminate);
    (eexists; exists [url]; split; [reflexivity|]; split; [auto|]; split; [exact Hreq|];
     intros z [= <-]; exists url, place, places;
     repeat (split; [first [reflexivity | exact Hplaces]|]);
     rewrite Hgeo; cbn [polygon]; eauto).
Qed.

(** X24.  In exact arithmetic, the polygon [searchAreaPolygon] makes of a
    bounding box [minLat <= maxLat], [minLng <= maxLng] is tested by
    [isPointInPolygon] as the rectangle it bounds, without its top and right
    sides: the closing vertex of the ring changes nothing. *)
Theorem bounding_box_polygon_is_its_rectangle :
  forall (parseFloat : option string -> exact) (bbox : list string)
         (minLat_ maxLat_ minLng_ maxLng_ : Q) (p : Coordinate Q),
    parseFloat (nth_error bbox 0) = Fin minLat_ ->
    parseFloat (nth_error bbox 1) = Fin maxLat_ ->
    parseFloat (nth_error bbox 2) = Fin minLng_ ->
    parseFloat (nth_error bbox 3) = Fin maxLng_ ->
    (minLat_ <= maxLat_)%Q -> (minLng_ <= maxLng_)%Q ->
    isPointInPolygon (N:=exact) (coordinateOf p) (boundingBoxPolygon parseFloat bbox)
    = (Qle_bool minLat_ (lat p) && Exact.qltb (lat p) maxLat_)
      && (Qle_bool minLng_ (lng p) && Exact.qltb (lng p) maxLng_).
Proof.
  intros parseFloat bbox a b c d p Ha Hb Hc Hd Hab Hcd.
  unfold boundingBoxPolygon. rewrite Ha, Hb, Hc, Hd. cbv zeta.
  set (BL := {| lat := Fin a; lng := Fin c |}).
  set (TL := {| lat := Fin b; lng := Fin c |}).
  set (TR := {| lat := Fin b; lng := Fin d |}).
  set (BR := {| lat := Fin a; lng := Fin d |}).
  change [BL; TL; TR; BR; BL] with ((BL :: [TL; TR; BR]) ++ [BL]).
  rewrite isPointInPolygon_closed.
  change [BL; TL; TR; BR] with ([BL] ++ [TL; TR; BR]).
  rewrite isPointInPolygon_rotate.
  rewrite <- (ExactBounds.rectangle_inside p Hab Hcd).
  reflexivity.
Qed.

(** A bounding box whose strings parse to 1, 2, 1, 2 (here [parseFloat]
    reads the length of the string), and the point (1, 1). *)
Lemma bounding_box_witness :
  isPointInPolygon (N:=exact) (coordinateOf (qpoint 1 1))
                   (boundingBoxPolygon
                      (fun s => match s with
                                | Some s => Fin (inject_Z (Z.of_nat (String.length s)))
                                | None => NaN
                                end)
                      ["a"; "bb"; "a"; "bb"]%string)
  = true.
Proof.
  rewrite (@bounding_box_polygon_is_its_rectangle
             (fun s => match s with
                       | Some s => Fin (inject_Z (Z.of_nat (String.length s)))
                       | None => NaN
                       end)
             ["a"; "bb"; "a"; "bb"]%string 1 2 1 2 (qpoint 1 1)
             eq_refl eq_refl eq_refl eq_refl);
    [reflexivity | discriminate | discriminate].
Defined.
